(** * difPy: the comparison engine of the duplicate image finder

    A shallow embedding of [src/difPy/dif.py]: the registry of image ids
    ([_compute._id_by_location]), the preprocessing pass
    ([_compute._imgs_matrices]), the difference metric ([_compute._mse]), the
    pairwise search with rotation tolerance and fast search
    ([_search._matches]), and the quality ranking ([_search._lower_quality],
    [_help._check_img_quality]).

    Conventions of the embedding.
    - A Python [dict] is an association list with pairwise distinct keys, in
      insertion order (the order [items()] and [keys()] enumerate it).
    - An image id ([uuid.uuid4().int]) is a [Z]; a file location is a [string].
    - An image matrix ([np.asarray] of an RGB image) is a list of rows, each a
      list of pixels, each a list of channel values in [Z].
    - [_mse] converts the channel values to floats before subtracting.  On
      the grids the image library produces (channel values from 0 to 255, at
      most 5000 x 5000 pixels) the squared differences and their sum are
      integers below [2 ^ 53], which floats hold exactly and the embedding
      computes in [Z]; the final division is the division of [numpy.float64]:
      the quotient rounded to the nearest float, ties to even, nan for
      [0.0 / 0.0] ([Float64.div]).
    - The operating system and the image library are an explicit environment
      [OS]; a raised exception is [None]. *)

From Stdlib Require Import String Ascii.
From Stdlib Require Import List ZArith QArith Qabs Bool Lia Arith.
From Stdlib Require Import Permutation Sorting.Sorted.
Import ListNotations.

Local Open Scope Z_scope.
Local Open Scope list_scope.

(* ================================================================= *)
(** ** Python dictionaries: insertion-ordered association lists *)

Module Dict.

Section Ops.
Context {V : Type}.

Definition t := list (Z * V).

Definition keys (d : t) : list Z := map fst d.

(** [d[k]], [None] for a [KeyError]. *)
Fixpoint get (k : Z) (d : t) : option V :=
  match d with
  | [] => None
  | (k', v) :: d' => if Z.eqb k k' then Some v else get k d'
  end.

(** [k in d] *)
Fixpoint mem (k : Z) (d : t) : bool :=
  match d with
  | [] => false
  | (k', _) :: d' => if Z.eqb k k' then true else mem k d'
  end.

(** [d[k] = v]: an existing key keeps its position, a new key goes last. *)
Fixpoint set (k : Z) (v : V) (d : t) : t :=
  match d with
  | [] => [(k, v)]
  | (k', v') :: d' =>
      if Z.eqb k k' then (k', v) :: d' else (k', v') :: set k v d'
  end.

(** [d.pop(k, None)] *)
Fixpoint pop (k : Z) (d : t) : t :=
  match d with
  | [] => []
  | (k', v') :: d' =>
      if Z.eqb k k' then d' else (k', v') :: pop k d'
  end.

(** [d.update(e)] *)
Definition update (d : t) (e : list (Z * V)) : t :=
  fold_left (fun acc kv => set (fst kv) (snd kv) acc) e d.

(** [dict(pairs)] *)
Definition of_pairs (e : list (Z * V)) : t := update [] e.

End Ops.

Arguments t : clear implicits.

End Dict.

(** [x in l] for a Python list of ids. *)
Definition list_mem (x : Z) (l : list Z) : bool := existsb (Z.eqb x) l.

(** [enumerate(l)] *)
Definition enumerate {A : Type} (l : list A) : list (nat * A) :=
  combine (seq 0 (length l)) l.

(** A loop whose body may raise: the first [None] aborts the loop. *)
Fixpoint foldM {A S : Type} (f : S -> A -> option S) (l : list A) (s : S)
  : option S :=
  match l with
  | [] => Some s
  | x :: l' =>
      match f s x with
      | Some s' => foldM f l' s'
      | None => None
      end
  end.

(* ================================================================= *)
(** ** Floating point numbers *)

Module Float64.

(** A value of [numpy.float64]: a finite value, given by the rational number
    it stands for as a fraction in lowest terms, an infinity, or nan. *)
Inductive t := Finite (q : Q) | Infinity (negative : bool) | NaN.

(** The integer nearest to [num / den], ties to even, for [0 <= num] and
    [0 < den]. *)
Definition nearest_even (num den : Z) : Z :=
  let q := num / den in
  match 2 * (num mod den) ?= den with
  | Lt => q
  | Gt => q + 1
  | Eq => if Z.even q then q else q + 1
  end.

(** The fraction [n / d * 2 ^ k]. *)
Definition scale (n d k : Z) : Z * Z :=
  if 0 <=? k then (n * 2 ^ k, d) else (n, d * 2 ^ (- k)).

(** The [e] with [2 ^ e <= n / d < 2 ^ (e + 1)], for [0 < n] and [0 < d]. *)
Definition exponent (n d : Z) : Z :=
  let e := Z.log2 n - Z.log2 d in
  let '(a, b) := scale n d (- e) in
  if b <=? a then e else e - 1.

(** [n / d] rounded to the nearest number with a significand of 53 bits,
    ties to even, for [0 < n] and [0 < d], as a fraction in lowest terms.
    Quotients of two integers below [2 ^ 53] lie within the exponent range
    of the format. *)
Definition round (n d : Z) : Q :=
  let e := exponent n d in
  let '(a, b) := scale n d (52 - e) in
  let m := nearest_even a b in
  Qred (if 0 <=? 52 - e then m # Z.to_pos (2 ^ (52 - e))
        else (m * 2 ^ (e - 52)) # 1).

(** [float(x) / float(y)] in numpy, for integers that floats hold exactly. *)
Definition div (x y : Z) : t :=
  if y =? 0 then (if x =? 0 then NaN else Infinity (x <? 0))
  else if x =? 0 then Finite 0
  else
    let q := round (Z.abs x) (Z.abs y) in
    Finite (if xorb (x <? 0) (y <? 0) then Qopp q else q).

(** [x <= y] for a float [x] and a finite [y]; false on nan. *)
Definition leb (x : t) (y : Q) : bool :=
  match x with
  | Finite q => Qle_bool q y
  | Infinity negative => negative
  | NaN => false
  end.

(** [x == 0] *)
Definition is_zero (x : t) : Prop :=
  match x with
  | Finite q => Qeq q 0
  | _ => False
  end.

(** [x] is a finite number, and at most [y]. *)
Definition within (x : t) (y : Q) : Prop :=
  exists q, x = Finite q /\ Qle q y.

(** [x] is the float that a division with the exact quotient [q >= 0]
    returns: a finite number within the relative error [2 ^ -53] of [q]. *)
Definition rounds (q : Q) (x : t) : Prop :=
  exists r, x = Finite r /\ Qle (Qabs (r - q)) (q * (1 # 2 ^ 53)).

(** The same value with its fraction in lowest terms. *)
Definition reduced (x : t) : t :=
  match x with
  | Finite q => Finite (Qred q)
  | _ => x
  end.

End Float64.

(* ================================================================= *)
(** ** Image matrices and the environment *)

Definition pixel := list Z.
Definition matrix := list (list pixel).

(** [img.shape[0]] and [img.shape[1]] *)
Definition shape0 (img : matrix) : nat := length img.
Definition shape1 (img : matrix) : nat :=
  match img with
  | [] => O
  | row :: _ => length row
  end.

(** An array of shape [h x w x c]. *)
Definition has_shape (h w c : nat) (img : matrix) : Prop :=
  length img = h /\
  Forall (fun row => length row = w /\
                     Forall (fun px : pixel => length px = c) row) img.

(** What the code asks of the operating system and of the image library.
    [image_load file px_size] stands for [Image.open], the conversion to RGB,
    the bicubic [resize] to [px_size x px_size] and [np.asarray]; it is [None]
    when any of them raises.  [path_str s] is [str(Path(s))].  [stat_size] is
    [os.stat(s).st_size], [None] when [os.stat] raises.  [list_all_files] is
    the [glob] of [_help._list_all_files]. *)
Record OS := {
  list_all_files : string -> bool -> list string;
  isdir : string -> bool;
  image_load : string -> Z -> option matrix;
  path_str : string -> string;
  stat_size : string -> option Z
}.

Definition registry := Dict.t string.

(** The files on disk as [_delete_imgs] changes them: [remove d file] is the
    disk after [os.remove(file)], [None] when [os.remove] raises. *)
Record Disk := {
  disk : Type;
  remove : disk -> string -> option disk
}.

(* ================================================================= *)
(** ** class _compute *)

Module _compute.

(** [img_id = uuid.uuid4().int; while img_id in img_ids: img_id = uuid.uuid4().int]
    The generator is the list of the values it will return, consumed from the
    head; [None] when the supply is exhausted before a fresh value comes. *)
Fixpoint fresh_id (img_ids : list Z) (uuids : list Z) : option (Z * list Z) :=
  match uuids with
  | [] => None
  | img_id :: uuids' =>
      if list_mem img_id img_ids then fresh_id img_ids uuids'
      else Some (img_id, uuids')
  end.

(** [for i in range(0, len(directory_files)): ... img_ids.append(img_id)] *)
Fixpoint draw_ids (n : nat) (img_ids : list Z) (uuids : list Z)
  : option (list Z * list Z) :=
  match n with
  | O => Some (img_ids, uuids)
  | S n' =>
      match fresh_id img_ids uuids with
      | None => None
      | Some (img_id, uuids') => draw_ids n' (img_ids ++ [img_id]) uuids'
      end
  end.

Definition _id_by_location (directory_files : list string)
  (id_by_location : option registry) (uuids : list Z)
  : option (registry * list Z) :=
  match draw_ids (length directory_files) [] uuids with
  | None => None
  | Some (img_ids, uuids') =>
      let fresh := Dict.of_pairs (combine img_ids directory_files) in
      match id_by_location with
      | None => Some (fresh, uuids')
      | Some reg => Some (Dict.update reg fresh, uuids')
      end
  end.

(** The body of the loop over [id_by_location.items()]. *)
Definition imgs_step (os : OS) (px_size : Z)
  (acc : Dict.t matrix * list Z) (entry : Z * string)
  : Dict.t matrix * list Z :=
  let '(imgs_matrices, invalid_files) := acc in
  let '(id, file) := entry in
  if isdir os file then (imgs_matrices, invalid_files)
  else
    match image_load os file px_size with
    | Some img => (Dict.set id img imgs_matrices, invalid_files)
    | None => (imgs_matrices, invalid_files ++ [id])
    end.

(** Returns [imgs_matrices], [invalid_files] and the registry as the call
    leaves it (the source mutates [id_by_location] in place). *)
Definition _imgs_matrices (os : OS) (id_by_location : registry) (px_size : Z)
  : Dict.t matrix * list Z * registry :=
  let '(imgs_matrices, invalid_files) :=
    fold_left (imgs_step os px_size) id_by_location ([], []) in
  (imgs_matrices, invalid_files,
   fold_left (fun reg id => Dict.pop id reg) invalid_files id_by_location).

(** Elementwise operations of numpy on arrays of equal shape. *)
Fixpoint zip_with {A B C : Type} (f : A -> B -> C) (l : list A) (l' : list B)
  : list C :=
  match l, l' with
  | x :: t, y :: t' => f x y :: zip_with f t t'
  | _, _ => []
  end.

Definition np_sub (img_A img_B : matrix) : matrix :=
  zip_with (zip_with (zip_with Z.sub)) img_A img_B.

Definition np_square (img : matrix) : matrix :=
  map (map (map (fun x => x ^ 2))) img.

Definition sumZ (l : list Z) : Z := fold_right Z.add 0 l.

(** [np.sum] over every axis. *)
Definition np_sum (img : matrix) : Z :=
  sumZ (map (fun row => sumZ (map sumZ row)) img).

Definition _mse (img_A img_B : matrix) : Float64.t :=
  let mse := np_sum (np_square (np_sub img_A img_B)) in
  Float64.div mse (Z.of_nat (shape0 img_A * shape1 img_A)).

End _compute.

(* ================================================================= *)
(** ** class _help *)

Module _help.

Definition column (j : nat) (img : matrix) : list pixel :=
  map (fun row => nth j row []) img.

(** [np.transpose] of the first two axes. *)
Definition transpose01 (img : matrix) : matrix :=
  map (fun j => column j img) (seq 0 (shape1 img)).

(** [np.rot90(img, k=1, axes=(0, 1))], which numpy computes as
    [transpose(flip(img, 1))]. *)
Definition _rotate_img (img : matrix) : matrix :=
  transpose01 (map (@rev pixel) img).

(** The order of Python on the tuples [(size, file)]: by size, then by the
    string.  Python orders strings by code point; on the UTF-8 bytes that a
    [string] holds this is the order of [String.compare]. *)
Definition tuple_leb (a b : Z * string) : bool :=
  if Z.ltb (fst a) (fst b) then true
  else if Z.eqb (fst a) (fst b) then String.leb (snd a) (snd b)
  else false.

(** [sorted(l, reverse=True)]: the element goes before the first one that is
    not greater. *)
Fixpoint insert_desc (x : Z * string) (l : list (Z * string))
  : list (Z * string) :=
  match l with
  | [] => [x]
  | y :: l' => if tuple_leb y x then x :: y :: l' else y :: insert_desc x l'
  end.

Definition sorted_reverse (l : list (Z * string)) : list (Z * string) :=
  fold_right insert_desc [] l.

(** [imgs_sizes]: [None] when an [os.stat] raises. *)
Fixpoint imgs_sizes (os : OS) (img_list : list string)
  : option (list (Z * string)) :=
  match img_list with
  | [] => Some []
  | img :: rest =>
      match stat_size os img, imgs_sizes os rest with
      | Some size, Some l => Some ((size, img) :: l)
      | _, _ => None
      end
  end.

Definition _check_img_quality (os : OS) (img_list : list string)
  : option (list string) :=
  match imgs_sizes os img_list with
  | Some l => Some (map snd (sorted_reverse l))
  | None => None
  end.

(** The loop of [_delete_imgs]: [os.remove] on every file, counting the
    removals that did not raise. *)
Fixpoint remove_all (D : Disk) (files : list string) (d : disk D)
  (delete_count : nat) : disk D * nat :=
  match files with
  | [] => (d, delete_count)
  | file :: rest =>
      match remove D d file with
      | Some d' => remove_all D rest d' (S delete_count)
      | None => remove_all D rest d delete_count
      end
  end.

(** [usr] is the answer typed at the prompt, read only when [silent_del] is
    off.  Returns the disk as the call leaves it and the count of the closing
    message, [None] when the deletion is cancelled (no closing message). *)
Definition _delete_imgs (D : Disk) (lower_quality_set : list string)
  (silent_del : bool) (usr : string) (d : disk D) : disk D * option nat :=
  if negb silent_del then
    if String.eqb usr "y" then
      let '(d', delete_count) := remove_all D lower_quality_set d 1 in
      (d', Some delete_count)
    else (d, None)
  else
    let '(d', delete_count) := remove_all D lower_quality_set d 1 in
    (d', Some delete_count).

End _help.

(* ================================================================= *)
(** ** class _search *)

Module _search.

(** [{'location': ..., 'mse': ...}] and
    [{'location': ..., 'matches': {...}}] *)
Record match_info := { m_location : string; m_mse : Float64.t }.
Record group := { location : string; matches : Dict.t match_info }.

(** The two objects the search mutates. *)
Record state := { result : Dict.t group; exclude_from_search : list Z }.

(** [while rotations <= 3]: the rotation state is [matrix_B] itself, turned
    once more at every pass but the first.  The accepted pass is returned
    with its rotation count, the turned matrix and the score; the source
    leaves the loop there by [rotations = 4]. *)
Fixpoint rotation_loop (fuel rotations : nat) (matrix_A matrix_B : matrix)
  (similarity : Q) : option (nat * matrix * Float64.t) :=
  match fuel with
  | O => None
  | S fuel' =>
      if (rotations <=? 3)%nat then
        let matrix_B :=
          if (rotations =? 0)%nat then matrix_B
          else _help._rotate_img matrix_B in
        let mse := _compute._mse matrix_A matrix_B in
        if Float64.leb mse similarity then Some (rotations, matrix_B, mse)
        else rotation_loop fuel' (S rotations) matrix_A matrix_B similarity
      else None
  end.

(** Four passes and the failing loop test. *)
Definition match_rotations (matrix_A matrix_B : matrix) (similarity : Q)
  : option (nat * matrix * Float64.t) :=
  rotation_loop 5 0 matrix_A matrix_B similarity.

(** [g['matches'][id_B] = info] *)
Definition set_match (id_B : Z) (info : match_info) (g : group) : group :=
  {| location := location g; matches := Dict.set id_B info (matches g) |}.

(** [for key in result.keys(): if id_A in result[key]['matches']: ...]
    Returns the dictionary and [check]. *)
Fixpoint attach (id_A id_B : Z) (info : match_info) (result : Dict.t group)
  : Dict.t group * bool :=
  match result with
  | [] => ([], false)
  | (key, g) :: rest =>
      let '(rest', check) := attach id_A id_B info rest in
      if Dict.mem id_A (matches g)
      then ((key, set_match id_B info g) :: rest', true)
      else ((key, g) :: rest', check)
  end.

(** [result[id_A]['matches'][id_B] = info] for a key [id_A] of [result]. *)
Fixpoint add_to_group (id_A id_B : Z) (info : match_info)
  (result : Dict.t group) : Dict.t group :=
  match result with
  | [] => []
  | (key, g) :: rest =>
      if Z.eqb id_A key then (key, set_match id_B info g) :: rest
      else (key, g) :: add_to_group id_A id_B info rest
  end.

(** The body of [if mse <= similarity:], with [show_output] off. *)
Definition on_match (os : OS) (id_by_location : registry) (fast_search : bool)
  (id_A id_B : Z) (mse : Float64.t) (st : state) : option state :=
  match Dict.get id_B id_by_location with
  | None => None
  | Some file_B =>
      let info := {| m_location := path_str os file_B; m_mse := mse |} in
      let '(result1, check) := attach id_A id_B info (result st) in
      let result2 :=
        if check then Some result1
        else if Dict.mem id_A result1
        then Some (add_to_group id_A id_B info result1)
        else
          match Dict.get id_A id_by_location with
          | None => None
          | Some file_A =>
              Some (Dict.set id_A
                      {| location := path_str os file_A;
                         matches := [(id_B, info)] |} result1)
          end in
      match result2 with
      | None => None
      | Some r =>
          Some {| result := r;
                  exclude_from_search :=
                    if fast_search then exclude_from_search st ++ [id_B]
                    else exclude_from_search st |}
      end
  end.

(** The body of the loop over candidates B. *)
Definition inner_step (os : OS) (id_by_location : registry) (similarity : Q)
  (fast_search : bool) (number_A : nat) (id_A : Z) (matrix_A : matrix)
  (st : state) (entry_B : nat * (Z * matrix)) : option state :=
  let '(number_B, (id_B, matrix_B)) := entry_B in
  if (number_A <? number_B)%nat then
    match match_rotations matrix_A matrix_B similarity with
    | Some (_, _, mse) => on_match os id_by_location fast_search id_A id_B mse st
    | None => Some st
    end
  else Some st.

(** The body of the loop over anchors A. *)
Definition outer_step (os : OS) (id_by_location : registry) (similarity : Q)
  (fast_search : bool) (imgs_matrices : Dict.t matrix)
  (st : state) (entry_A : nat * (Z * matrix)) : option state :=
  let '(number_A, (id_A, matrix_A)) := entry_A in
  if list_mem id_A (exclude_from_search st) then Some st
  else
    foldM (inner_step os id_by_location similarity fast_search
             number_A id_A matrix_A)
          (enumerate imgs_matrices) st.

Definition search_loop (os : OS) (id_by_location : registry) (similarity : Q)
  (fast_search : bool) (imgs_matrices : Dict.t matrix) : option state :=
  foldM (outer_step os id_by_location similarity fast_search imgs_matrices)
        (enumerate imgs_matrices)
        {| result := []; exclude_from_search := [] |}.

(** [for id in result: match_count += len(result[id]['matches'])] *)
Definition count_matches (result : Dict.t group) : nat :=
  fold_left (fun match_count e => (match_count + length (matches (snd e)))%nat)
            result O.

(** Returns [result, exclude_from_search, total_count, match_count]. *)
Definition _matches (os : OS) (imgs_matrices : Dict.t matrix)
  (id_by_location : registry) (similarity : Q) (fast_search : bool)
  : option (Dict.t group * list Z * nat * nat) :=
  match search_loop os id_by_location similarity fast_search imgs_matrices with
  | None => None
  | Some st =>
      Some (result st, exclude_from_search st, length imgs_matrices,
            count_matches (result st))
  end.

(** [match_group]: the location of the representative, then of the matches. *)
Definition match_group (g : group) : list string :=
  location g :: map (fun e => m_location (snd e)) (matches g).

Definition lower_step (os : OS) (lower_quality : list string)
  (entry : Z * group) : option (list string) :=
  match _help._check_img_quality os (match_group (snd entry)) with
  | Some sort_by_size => Some (lower_quality ++ tl sort_by_size)
  | None => None
  end.

Definition _lower_quality (os : OS) (result : Dict.t group)
  : option (list string) :=
  foldM (lower_step os) result [].

End _search.

(* ================================================================= *)
(** ** class dif *)

Module dif.

Definition string_mem (s : string) (l : list string) : bool :=
  existsb (String.eqb s) l.

(** The passes of the loop of [_run] with [count >= 1]. *)
Fixpoint later_dirs (os : OS) (recursive : bool) (directory : list string)
  (directory_files : list string) (id_by_location : registry)
  (uuids : list Z) : option (registry * list Z) :=
  match directory with
  | [] => Some (id_by_location, uuids)
  | dir :: rest =>
      if string_mem dir directory_files
      then later_dirs os recursive rest directory_files id_by_location uuids
      else
        let directory_files := list_all_files os dir recursive in
        match _compute._id_by_location directory_files
                (Some id_by_location) uuids with
        | None => None
        | Some (id_by_location, uuids) =>
            later_dirs os recursive rest directory_files id_by_location uuids
        end
  end.

(** The loop of [_run] over the directories; with no directory at all
    [id_by_location] is never bound and the next line raises. *)
Definition scan (os : OS) (recursive : bool) (directory : list string)
  (uuids : list Z) : option (registry * list Z) :=
  match directory with
  | [] => None
  | dir :: rest =>
      let directory_files := list_all_files os dir recursive in
      match _compute._id_by_location directory_files None uuids with
      | None => None
      | Some (id_by_location, uuids) =>
          later_dirs os recursive rest directory_files id_by_location uuids
      end
  end.

(** Returns [result, lower_quality, total_count, match_count, invalid_files]. *)
Definition _run (os : OS) (directory : list string) (recursive : bool)
  (similarity : Q) (px_size : Z) (fast_search : bool) (uuids : list Z)
  : option (Dict.t _search.group * list string * nat * nat * list Z) :=
  match scan os recursive directory uuids with
  | None => None
  | Some (id_by_location, _) =>
      let '(imgs_matrices, invalid_files, id_by_location) :=
        _compute._imgs_matrices os id_by_location px_size in
      match _search._matches os imgs_matrices id_by_location similarity
              fast_search with
      | None => None
      | Some (result, _, total_count, match_count) =>
          match _search._lower_quality os result with
          | None => None
          | Some lower_quality =>
              Some (result, lower_quality, total_count, match_count,
                    invalid_files)
          end
      end
  end.

End dif.

(* ================================================================= *)
(** ** Vocabulary of the statements *)

(** The difference metric in the words of the specification: the sum, over
    every pixel [(i, j)] and channel [c] of two [S x S x 3] grids, of the
    squared difference of the two values, divided by [S * S].  The sums are
    written out index by index; the division is that of floats. *)
Definition element (img : matrix) (i j c : nat) : Z :=
  nth c (nth j (nth i img []) []) 0.

Fixpoint sum_upto (n : nat) (f : nat -> Z) : Z :=
  match n with
  | O => 0
  | S n' => sum_upto n' f + f n'
  end.

Definition squared_differences (S : nat) (A B : matrix) : Z :=
  sum_upto S (fun i =>
    sum_upto S (fun j =>
      sum_upto 3 (fun c => (element A i j c - element B i j c) ^ 2))).

Definition spec_difference (S : nat) (A B : matrix) : Float64.t :=
  Float64.div (squared_differences S A B) (Z.of_nat (S * S)).

(** The same quotient as an exact rational number, for [0 < S]. *)
Definition exact_difference (S : nat) (A B : matrix) : Q :=
  squared_differences S A B # Pos.of_nat (S * S).

(** A quarter turn in the words of the specification, on a grid of [S x S]
    pixels: the pixel at [(i, j)] of the turned grid is the pixel at
    [(j, S - 1 - i)] of the grid (a turn by 90 degrees counter-clockwise),
    and the grid turned [k] times. *)
Definition quarter_turn (S : nat) (grid : matrix) : matrix :=
  map (fun i =>
         map (fun j => nth (S - 1 - i) (nth j grid []) []) (seq 0 S))
      (seq 0 S).

Definition turned (S k : nat) (grid : matrix) : matrix :=
  Nat.iter k (quarter_turn S) grid.


(** [matrix_B] after [k] quarter turns. *)
Definition rotated (k : nat) (matrix_B : matrix) : matrix :=
  Nat.iter k _help._rotate_img matrix_B.

(** The test [mse <= similarity] on the candidate turned [k] times. *)
Definition accepted (similarity : Q) (matrix_A matrix_B : matrix) (k : nat)
  : Prop :=
  Float64.leb (_compute._mse matrix_A (rotated k matrix_B)) similarity = true.

(** A solid-colour image of [S x S] pixels. *)
Definition solid (S : nat) (px : pixel) : matrix := repeat (repeat px S) S.

(** Descending order on the tuples [(size, file)]. *)
Definition desc (a b : Z * string) : Prop := _help.tuple_leb b a = true.

(** [os.stat(f).st_size] where it is known to succeed. *)
Definition size_of (os : OS) (f : string) : Z :=
  match stat_size os f with
  | Some size => size
  | None => 0
  end.

(** [a] is ranked no later than [b]: the larger byte size first and, at
    equal byte size, the larger location string first. *)
Definition ranks_first (os : OS) (a b : string) : Prop :=
  size_of os b < size_of os a \/
  (size_of os a = size_of os b /\ String.leb b a = true).

(** [b] is a key of the ['matches'] of the group keyed [K]. *)
Definition in_group (b K : Z) (result : Dict.t _search.group) : Prop :=
  exists g, In (K, g) result /\ Dict.mem b (_search.matches g) = true.

(** [b] is a matched member of some group. *)
Definition is_member (b : Z) (result : Dict.t _search.group) : Prop :=
  exists K, in_group b K result.

(** Every id of [imgs_matrices] has a location in the registry. *)
Definition covers (id_by_location : registry) (imgs_matrices : Dict.t matrix)
  : Prop :=
  forall id, In id (Dict.keys imgs_matrices) ->
             Dict.get id id_by_location <> None.

(** The entries at positions [i] and [j] of the enumeration pass the match
    test, [i] as the anchor. *)
Definition hit (similarity : Q) (imgs_matrices : Dict.t matrix) (i j : nat)
  : Prop :=
  exists id_A matrix_A id_B matrix_B,
    nth_error imgs_matrices i = Some (id_A, matrix_A) /\
    nth_error imgs_matrices j = Some (id_B, matrix_B) /\
    _search.match_rotations matrix_A matrix_B similarity <> None.

Definition id_at (imgs_matrices : Dict.t matrix) (i : nat) : option Z :=
  option_map fst (nth_error imgs_matrices i).

(** The groups an accepted match [(id_A, id_B)] writes to: those that hold
    [id_A] as a member or, when there is none, the group keyed [id_A]. *)
Definition target (id_A K : Z) (result : Dict.t _search.group) : Prop :=
  in_group id_A K result \/ (K = id_A /\ ~ is_member id_A result).

(** What the loop over [result.keys()] does to one entry. *)
Definition attach_entry (id_A id_B : Z) (info : _search.match_info)
  (e : Z * _search.group) : Z * _search.group :=
  if Dict.mem id_A (_search.matches (snd e))
  then (fst e, _search.set_match id_B info (snd e))
  else e.

(** The group created for an anchor on its first match. *)
Definition new_group (os : OS) (file_A : string) (id_B : Z)
  (info : _search.match_info) : _search.group :=
  {| _search.location := path_str os file_A;
     _search.matches := [(id_B, info)] |}.

(** Every member was matched by an entry enumerated before it. *)
Definition sound (similarity : Q) (imgs_matrices : Dict.t matrix)
  (st : _search.state) : Prop :=
  NoDup (Dict.keys (_search.result st)) /\
  forall b, is_member b (_search.result st) ->
    exists i j, (i < j)%nat /\ hit similarity imgs_matrices i j /\
                id_at imgs_matrices j = Some b.

(** Without fast search: every pair the loops have gone through and that
    passes the match test has left its second entry as a member.  The loops
    are at anchor [a], candidate [j]. *)
Definition complete (similarity : Q) (imgs_matrices : Dict.t matrix)
  (a j : nat) (st : _search.state) : Prop :=
  _search.exclude_from_search st = [] /\
  NoDup (Dict.keys (_search.result st)) /\
  forall i' j', (i' < a \/ (i' = a /\ j' < j))%nat -> (i' < j')%nat ->
    hit similarity imgs_matrices i' j' ->
    forall b, id_at imgs_matrices j' = Some b ->
              is_member b (_search.result st).

(** [K] and [b] share a group: some group holds [b] as a member and has [K]
    as its key or as another member. *)
Definition share_group (K b : Z) (result : Dict.t _search.group) : Prop :=
  exists K', in_group b K' result /\ (K' = K \/ in_group K K' result).

(** Without fast search: the two entries of every pair the loops have gone
    through and that passes the match test share a group. *)
Definition complete_pairs (similarity : Q) (imgs_matrices : Dict.t matrix)
  (a j : nat) (st : _search.state) : Prop :=
  _search.exclude_from_search st = [] /\
  NoDup (Dict.keys (_search.result st)) /\
  forall i' j', (i' < a \/ (i' = a /\ j' < j))%nat -> (i' < j')%nat ->
    hit similarity imgs_matrices i' j' ->
    forall K b, id_at imgs_matrices i' = Some K ->
                id_at imgs_matrices j' = Some b ->
                share_group K b (_search.result st).

(** With fast search, before the anchor at position [a] is looked at:
    members are excluded, keys are unexcluded earlier entries, a member is an
    entry that its key matched, and what a key matches is excluded. *)
Definition pruned (similarity : Q) (imgs_matrices : Dict.t matrix) (a : nat)
  (st : _search.state) : Prop :=
  let r := _search.result st in
  let ex := _search.exclude_from_search st in
  NoDup (Dict.keys r) /\
  (forall b, is_member b r -> In b ex) /\
  (forall K, In K (Dict.keys r) ->
     exists k, (k < a)%nat /\ id_at imgs_matrices k = Some K) /\
  (forall b K, in_group b K r ->
     exists k i, (k < i)%nat /\ id_at imgs_matrices k = Some K /\
                 id_at imgs_matrices i = Some b /\
                 hit similarity imgs_matrices k i) /\
  (forall K k i b, In K (Dict.keys r) -> id_at imgs_matrices k = Some K ->
     (k < a)%nat -> (k < i)%nat -> hit similarity imgs_matrices k i ->
     id_at imgs_matrices i = Some b -> In b ex) /\
  (forall K, In K (Dict.keys r) -> ~ In K ex).

(** The same while the anchor [id_A] at position [a] goes through the
    candidates, now at position [j]. *)
Definition pruning (similarity : Q) (imgs_matrices : Dict.t matrix)
  (a : nat) (id_A : Z) (j : nat) (st : _search.state) : Prop :=
  let r := _search.result st in
  let ex := _search.exclude_from_search st in
  NoDup (Dict.keys r) /\
  (forall b, is_member b r -> In b ex) /\
  (forall K, In K (Dict.keys r) ->
     exists k, (k <= a)%nat /\ id_at imgs_matrices k = Some K) /\
  (forall b K, in_group b K r ->
     exists k i, (k < i)%nat /\ id_at imgs_matrices k = Some K /\
                 id_at imgs_matrices i = Some b /\
                 hit similarity imgs_matrices k i) /\
  (forall K k i b, In K (Dict.keys r) -> id_at imgs_matrices k = Some K ->
     (k < a)%nat -> (k < i)%nat -> hit similarity imgs_matrices k i ->
     id_at imgs_matrices i = Some b -> In b ex) /\
  (forall K, In K (Dict.keys r) -> ~ In K ex) /\
  (forall i b, (a < i < j)%nat -> hit similarity imgs_matrices a i ->
     id_at imgs_matrices i = Some b -> In b ex) /\
  ~ In id_A ex.

(** The match test is transitive along the enumeration: two entries that
    both match a later third match each other. *)
Definition transitive_hits (similarity : Q) (imgs_matrices : Dict.t matrix)
  : Prop :=
  forall i j k, (i < j < k)%nat ->
    hit similarity imgs_matrices i k -> hit similarity imgs_matrices j k ->
    hit similarity imgs_matrices i j.

(* ================================================================= *)
(** ** Concrete runs *)

(** Values [uuid.uuid4().int] can take: version 4, variant 1, the other
    bits free. *)
Definition uuid4_value (n : Z) : Z := 2 ^ 78 + 2 ^ 63 + n.

(** One picture [a/x.jpg], and the directory [a] named twice, as [a] and as
    [./a]: [glob] keeps the prefix it was given and [str(Path(...))] drops a
    leading [./]. *)
Definition alias_os : OS := {|
  list_all_files := fun dir _ =>
    if String.eqb dir "a" then ["a/"; "a/x.jpg"]%string
    else if String.eqb dir "./a" then ["./a/"; "./a/x.jpg"]%string
    else [];
  isdir := fun f => String.eqb f "a/" || String.eqb f "./a/";
  image_load := fun f px_size =>
    if String.eqb f "a/x.jpg" || String.eqb f "./a/x.jpg"
    then Some (solid (Z.to_nat px_size) [9; 9; 9])
    else None;
  path_str := fun f =>
    match f with
    | String "."%char (String "/"%char rest) => rest
    | _ => f
    end;
  stat_size := fun f => if String.eqb f "a/x.jpg" then Some 5000 else None
|}.

Definition alias_uuids : list Z :=
  [uuid4_value 1; uuid4_value 2; uuid4_value 3; uuid4_value 4].

(** Three files, two of them of the same byte size. *)
Definition sizes_os : OS := {|
  list_all_files := fun _ _ => [];
  isdir := fun _ => false;
  image_load := fun _ _ => None;
  path_str := fun f => f;
  stat_size := fun f =>
    if String.eqb f "a.jpg" then Some 5000
    else if String.eqb f "b.jpg" then Some 3000
    else if String.eqb f "c.jpg" then Some 5000
    else None
|}.

Definition abc_group : _search.group := {|
  _search.location := "a.jpg";
  _search.matches :=
    [(uuid4_value 2, {| _search.m_location := "b.jpg";
                        _search.m_mse := Float64.Finite 0 |});
     (uuid4_value 3, {| _search.m_location := "c.jpg";
                        _search.m_mse := Float64.Finite 0 |})]
|}.

(** A directory holding a sub-directory entry, a picture and a text file. *)
Definition mixed_os : OS := {|
  list_all_files := fun dir _ =>
    if String.eqb dir "pics"
    then ["pics/"; "pics/a.jpg"; "pics/notes.txt"]%string
    else [];
  isdir := fun f => String.eqb f "pics/";
  image_load := fun f px_size =>
    if String.eqb f "pics/a.jpg"
    then Some (solid (Z.to_nat px_size) [9; 9; 9])
    else None;
  path_str := fun f => f;
  stat_size := fun f => if String.eqb f "pics/a.jpg" then Some 5000 else None
|}.

Definition mixed_registry : registry :=
  [(uuid4_value 1, "pics/"%string); (uuid4_value 2, "pics/a.jpg"%string);
   (uuid4_value 3, "pics/notes.txt"%string)].

(** Two directories of one picture each; the generator returns the same
    value once in each batch. *)
Definition two_dirs_os : OS := {|
  list_all_files := fun dir _ =>
    if String.eqb dir "a" then ["a/"; "a/x.jpg"]%string
    else if String.eqb dir "b" then ["b/"; "b/y.jpg"]%string
    else [];
  isdir := fun f => String.eqb f "a/" || String.eqb f "b/";
  image_load := fun f px_size =>
    if String.eqb f "a/x.jpg"
    then Some (solid (Z.to_nat px_size) [9; 9; 9])
    else if String.eqb f "b/y.jpg"
    then Some (solid (Z.to_nat px_size) [200; 0; 0])
    else None;
  path_str := fun f => f;
  stat_size := fun _ => Some 5000
|}.

Definition repeating_uuids : list Z :=
  [uuid4_value 1; uuid4_value 2; uuid4_value 3; uuid4_value 2].

(** Solid-colour pictures of 10 x 10 pixels; the score of two of them is the
    squared distance of their colours. *)
Definition plain_os : OS := {|
  list_all_files := fun _ _ => [];
  isdir := fun _ => false;
  image_load := fun _ _ => None;
  path_str := fun f => f;
  stat_size := fun _ => Some 5000
|}.

Definition pictures (colours : list pixel) : Dict.t matrix :=
  combine (map uuid4_value (map Z.of_nat (seq 1 (length colours))))
          (map (solid 10) colours).

Definition locations (n : nat) : registry :=
  map (fun i => (uuid4_value (Z.of_nat i), "img.jpg"%string)) (seq 1 n).

(** Seven pictures: the second matches the first, the third and the
    fourth; the third and the fourth both match the last three; no other
    pair of an earlier and a later picture matches at threshold 100, but for
    the last three among themselves. *)
Definition seven_pictures : Dict.t matrix :=
  pictures [[8; 0; 10]; [8; 0; 0]; [0; 6; 0]; [16; 6; 0];
            [8; 12; 0]; [8; 11; 0]; [8; 11; 1]].

(** Three pictures: the first and the second both match the third and do
    not match each other at threshold 1. *)
Definition three_pictures : Dict.t matrix :=
  pictures [[0; 0; 0]; [2; 0; 0]; [1; 0; 0]].

(** Three pictures in a row: the first matches the second and, at a larger
    score, the third, which the second matches too. *)
Definition row_pictures : Dict.t matrix :=
  pictures [[0; 0; 0]; [1; 0; 0]; [2; 0; 0]].

(** Four pictures: the first and the second both match the third and do not
    match each other; only the third matches the fourth. *)
Definition four_pictures : Dict.t matrix :=
  pictures [[0; 0; 0]; [4; 0; 0]; [2; 0; 0]; [2; 2; 0]].

(** Three copies of one picture. *)
Definition same_pictures : Dict.t matrix :=
  pictures [[5; 5; 5]; [5; 5; 5]; [5; 5; 5]].

(** The ids of the groups and of their members. *)
Definition membership (result : Dict.t _search.group) : list (Z * list Z) :=
  map (fun e => (fst e, Dict.keys (_search.matches (snd e)))) result.

(** The recorded scores, in lowest terms. *)
Definition scores (result : Dict.t _search.group)
  : list (Z * list (Z * Float64.t)) :=
  map (fun e =>
         (fst e,
          map (fun m => (fst m, Float64.reduced (_search.m_mse (snd m))))
              (_search.matches (snd e))))
      result.

(** The result of the fast search over the three copies. *)
Definition same_result : Dict.t _search.group :=
  let info := {| _search.m_location := "img.jpg";
                 _search.m_mse :=
                   _compute._mse (solid 10 [5; 5; 5]) (solid 10 [5; 5; 5]) |} in
  [(uuid4_value 1,
    {| _search.location := "img.jpg";
       _search.matches := [(uuid4_value 2, info); (uuid4_value 3, info)] |})].

(** The state of the search over the pictures in a row after its first
    anchor, without fast search. *)
Definition row_after_first_anchor : option _search.state :=
  _search.outer_step plain_os (locations 3) (4 # 1) false row_pictures
    {| _search.result := []; _search.exclude_from_search := [] |}
    (O, (uuid4_value 1, solid 10 [0; 0; 0])).

(** The state before any match and the state after a first match of the
    first two pictures. *)
Definition empty_state : _search.state :=
  {| _search.result := []; _search.exclude_from_search := [] |}.

Definition first_match_state : _search.state :=
  {| _search.result :=
       [(uuid4_value 1,
         new_group plain_os "img.jpg" (uuid4_value 2)
           {| _search.m_location := "img.jpg";
              _search.m_mse := Float64.Finite (1 # 1) |})];
     _search.exclude_from_search := [] |}.




(** A grid of [12 x 12] pixels that differs from the black one by 1 in one
    channel of 48 pixels. *)
Definition four_rows_off : matrix :=
  repeat (repeat [1; 0; 0] 12%nat) 4%nat ++
  repeat (repeat [0; 0; 0] 12%nat) 8%nat.

(** A black grid of [3 x 3] pixels with the first channel of the first pixel
    set to 1. *)
Definition one_off : matrix :=
  [[1; 0; 0]; [0; 0; 0]; [0; 0; 0]] :: repeat (repeat [0; 0; 0] 3%nat) 2%nat.

(** Two arrays with the same dimensions, pixel by pixel. *)
Definition same_shape (A B : matrix) : Prop :=
  Forall2 (Forall2 (fun p q : pixel => length p = length q)) A B.

(** Closed goals on the concrete runs. *)
Ltac solve_covers :=
  let id := fresh "id" in
  let Hin := fresh "Hin" in
  intros id Hin; vm_compute in Hin;
  repeat (destruct Hin as [<-|Hin]; [vm_compute; discriminate|]);
  contradiction.

Ltac solve_nodup :=
  vm_compute;
  repeat (apply NoDup_cons; [vm_compute; intuition discriminate|]);
  apply NoDup_nil.

(* ================================================================= *)
(** ** class _validate *)

Module _validate.

(** [if len(set(directory)) != len(directory): raise ValueError] *)
Definition _directory_unique (directory : list string) : option unit :=
  if Nat.eqb (length (nodup string_dec directory)) (length directory)
  then Some tt
  else None.

End _validate.

(* ================================================================= *)
(** ** Vocabulary of the further properties *)

(** The listings a scan registers: that of the first directory and that of
    every later directory that is not an entry of the listing scanned
    before it. *)
Fixpoint later_listings (os : OS) (recursive : bool)
  (directory : list string) (directory_files : list string) : list string :=
  match directory with
  | [] => []
  | dir :: rest =>
      if dif.string_mem dir directory_files
      then later_listings os recursive rest directory_files
      else
        let listing := list_all_files os dir recursive in
        listing ++ later_listings os recursive rest listing
  end.

Definition scanned_files (os : OS) (recursive : bool)
  (directory : list string) : list string :=
  match directory with
  | [] => []
  | dir :: rest =>
      let listing := list_all_files os dir recursive in
      listing ++ later_listings os recursive rest listing
  end.

(** The components of what [_matches] returns. *)
Definition run_result
  (r : option (Dict.t _search.group * list Z * nat * nat))
  : Dict.t _search.group :=
  match r with
  | Some (result, _, _, _) => result
  | None => []
  end.

Definition run_excluded
  (r : option (Dict.t _search.group * list Z * nat * nat)) : list Z :=
  match r with
  | Some (_, excluded, _, _) => excluded
  | None => []
  end.

Definition run_total
  (r : option (Dict.t _search.group * list Z * nat * nat)) : nat :=
  match r with
  | Some (_, _, total_count, _) => total_count
  | None => O
  end.

Definition run_count
  (r : option (Dict.t _search.group * list Z * nat * nat)) : nat :=
  match r with
  | Some (_, _, _, match_count) => match_count
  | None => O
  end.

(** Every member of a group is enumerated after the key of the group. *)
Definition ordered (imgs_matrices : Dict.t matrix) (st : _search.state)
  : Prop :=
  NoDup (Dict.keys (_search.result st)) /\
  forall b K, in_group b K (_search.result st) ->
    exists k i, (k < i)%nat /\ id_at imgs_matrices k = Some K /\
                id_at imgs_matrices i = Some b.

(** What an entry of a group records: the location of its id in the
    registry, and the score of the id, in one of its four turns, against an
    entry enumerated before it, within the threshold. *)
Definition well_recorded (os : OS) (reg : registry) (similarity : Q)
  (imgs_matrices : Dict.t matrix) (b : Z) (info : _search.match_info)
  : Prop :=
  (exists file, Dict.get b reg = Some file /\
                _search.m_location info = path_str os file) /\
  exists i j k id_A matrix_A matrix_B,
    (i < j)%nat /\ (k <= 3)%nat /\
    nth_error imgs_matrices i = Some (id_A, matrix_A) /\
    nth_error imgs_matrices j = Some (b, matrix_B) /\
    _search.m_mse info = _compute._mse matrix_A (rotated k matrix_B) /\
    Float64.leb (_search.m_mse info) similarity = true.

Definition recorded (os : OS) (reg : registry) (similarity : Q)
  (imgs_matrices : Dict.t matrix) (st : _search.state) : Prop :=
  NoDup (Dict.keys (_search.result st)) /\
  forall K g, In (K, g) (_search.result st) ->
    (exists file, Dict.get K reg = Some file /\
                  _search.location g = path_str os file) /\
    forall b info, In (b, info) (_search.matches g) ->
      well_recorded os reg similarity imgs_matrices b info.

(** With fast search the exclusion list holds the members and nothing
    else. *)
Definition excluded_are_members (st : _search.state) : Prop :=
  NoDup (Dict.keys (_search.result st)) /\
  forall b, In b (_search.exclude_from_search st) <->
            is_member b (_search.result st).

(** The files [_delete_imgs] removes, in the order of the loop. *)
Fixpoint removed (D : Disk) (files : list string) (d : disk D)
  : list string :=
  match files with
  | [] => []
  | file :: rest =>
      match remove D d file with
      | Some d' => file :: removed D rest d'
      | None => removed D rest d
      end
  end.

(** The registry entries that are directories, that decode, and that do
    not. *)
Definition directory_entries (os : OS) (reg : registry) : registry :=
  filter (fun e => isdir os (snd e)) reg.

(** A disk that is the list of its files; removing a file that is not there
    raises. *)
Definition listed_disk : Disk := {|
  disk := list string;
  remove := fun d file =>
    if existsb (String.eqb file) d
    then Some (filter (fun f => negb (String.eqb file f)) d)
    else None
|}.

(** Two of the concrete searches. *)
Definition four_full_run :=
  _search._matches plain_os four_pictures (locations 4) (4 # 1) false.

Definition seven_fast_run :=
  _search._matches plain_os seven_pictures (locations 7) (100 # 1) true.

Definition seven_full_run :=
  _search._matches plain_os seven_pictures (locations 7) (100 # 1) false.

(** The registry a scan returns. *)
Definition run_registry (r : option (registry * list Z)) : registry :=
  match r with
  | Some (reg, _) => reg
  | None => []
  end.

(** The registry of the scan of [a] and [./a] and what preprocessing makes
    of it. *)
Definition alias_registry : registry :=
  run_registry (dif.scan alias_os true ["a"; "./a"]%string alias_uuids).

Definition alias_preprocessed : Dict.t matrix * list Z * registry :=
  _compute._imgs_matrices alias_os alias_registry 10.

(** The run over [a] and [./a] and the groups it returns. *)
Definition alias_run :=
  dif._run alias_os ["a"; "./a"]%string true (200 # 1) 10 true alias_uuids.

Definition run5_result
  (r : option (Dict.t _search.group * list string * nat * nat * list Z))
  : Dict.t _search.group :=
  match r with
  | Some (result, _, _, _, _) => result
  | None => []
  end.

(** With fast search: a pair that the loops have gone through and that
    passes the match test has put its second entry into the group of the
    first, when the first is a key (or the anchor at work). *)
Definition grouped (similarity : Q) (imgs_matrices : Dict.t matrix)
  (a j : nat) (st : _search.state) : Prop :=
  forall k i K b,
    id_at imgs_matrices k = Some K -> id_at imgs_matrices i = Some b ->
    (k < i)%nat -> hit similarity imgs_matrices k i ->
    ((k < a)%nat /\ In K (Dict.keys (_search.result st))) \/
    (k = a /\ (i < j)%nat) ->
    in_group b K (_search.result st).

(** With fast search: the score of a member is the score of the match test
    of the representative of its group against it. *)
Definition first_scores (similarity : Q) (imgs_matrices : Dict.t matrix)
  (st : _search.state) : Prop :=
  forall K g b info,
    In (K, g) (_search.result st) -> In (b, info) (_search.matches g) ->
    exists k i matrix_K matrix_b turns turned,
      (k < i)%nat /\
      nth_error imgs_matrices k = Some (K, matrix_K) /\
      nth_error imgs_matrices i = Some (b, matrix_b) /\
      _search.match_rotations matrix_K matrix_b similarity =
        Some (turns, turned, _search.m_mse info).

(** The registry entries that decode and those that are no directory and do
    not decode. *)
Definition decodes (os : OS) (px_size : Z) (e : Z * string) : bool :=
  negb (isdir os (snd e)) &&
  match image_load os (snd e) px_size with
  | Some _ => true
  | None => false
  end.

Definition undecodable (os : OS) (px_size : Z) (e : Z * string) : bool :=
  negb (isdir os (snd e)) &&
  match image_load os (snd e) px_size with
  | Some _ => false
  | None => true
  end.

(** The first group of a result and its first match entry. *)
Definition first_group (result : Dict.t _search.group) : Z * _search.group :=
  hd (0, {| _search.location := ""; _search.matches := [] |}) result.

Definition first_entry (g : _search.group) : Z * _search.match_info :=
  hd (0, {| _search.m_location := ""; _search.m_mse := Float64.Finite 0 |})
     (_search.matches g).

(* ================================================================= *)
(** * Properties *)

(** ** Lists and sums *)

Lemma zip_with_length {A B C : Type} (f : A -> B -> C) (l : list A)
  (l' : list B) :
  length l = length l' -> length (_compute.zip_with f l l') = length l.
Proof.
  revert l'; induction l as [|x l IH]; intros [|y l'] H; simpl in *;
    try discriminate; auto.
Qed.

Lemma zip_with_nth {A B C : Type} (f : A -> B -> C) (dA : A) (dB : B) (dC : C) :
  forall (l : list A) (l' : list B) (i : nat),
    (i < length l)%nat -> (i < length l')%nat ->
    nth i (_compute.zip_with f l l') dC = f (nth i l dA) (nth i l' dB).
Proof.
  induction l as [|x l IH]; intros [|y l'] i Hi Hi'; simpl in *; try lia.
  destruct i as [|i]; [reflexivity|]. apply IH; lia.
Qed.

Lemma list_as_map_nth {A : Type} (d : A) (l : list A) :
  l = map (fun i => nth i l d) (seq 0 (length l)).
Proof.
  induction l as [|x l IH]; simpl; [reflexivity|].
  f_equal. rewrite <- seq_shift, map_map. exact IH.
Qed.

Lemma sumZ_app (l l' : list Z) :
  _compute.sumZ (l ++ l') = _compute.sumZ l + _compute.sumZ l'.
Proof.
  unfold _compute.sumZ. induction l as [|x l IH]; simpl; [reflexivity|].
  rewrite IH. lia.
Qed.

(** The sum of a list is the sum of its entries, index by index. *)
Lemma sumZ_seq (n : nat) (f : nat -> Z) :
  _compute.sumZ (map f (seq 0 n)) = sum_upto n f.
Proof.
  induction n as [|n IH]; [reflexivity|].
  rewrite seq_S, map_app, sumZ_app, IH. simpl. lia.
Qed.

Lemma sumZ_map_index {A : Type} (d : A) (g : A -> Z) (l : list A) (n : nat) :
  length l = n ->
  _compute.sumZ (map g l) = sum_upto n (fun i => g (nth i l d)).
Proof.
  intros <-. rewrite <- sumZ_seq.
  rewrite (list_as_map_nth d l) at 1. now rewrite map_map.
Qed.

Lemma sum_upto_ext (n : nat) (f g : nat -> Z) :
  (forall i, (i < n)%nat -> f i = g i) -> sum_upto n f = sum_upto n g.
Proof.
  induction n as [|n IH]; intros H; [reflexivity|]. simpl.
  rewrite IH by (intros i Hi; apply H; lia). f_equal. apply H. lia.
Qed.

Lemma has_shape_row (h w c : nat) (img : matrix) (i : nat) :
  has_shape h w c img -> (i < h)%nat ->
  length (nth i img []) = w /\
  Forall (fun px : pixel => length px = c) (nth i img []).
Proof.
  intros [Hlen Hrows] Hi. rewrite Forall_forall in Hrows.
  apply Hrows, nth_In. lia.
Qed.

Lemma has_shape_pixel (h w c : nat) (img : matrix) (i j : nat) :
  has_shape h w c img -> (i < h)%nat -> (j < w)%nat ->
  length (nth j (nth i img []) []) = c.
Proof.
  intros Hs Hi Hj. destruct (has_shape_row h w c img i Hs Hi) as [Hw Hpx].
  rewrite Forall_forall in Hpx. apply Hpx, nth_In. lia.
Qed.

Lemma has_shape_shape1 (h w c : nat) (img : matrix) :
  has_shape h w c img -> (0 < h)%nat -> shape1 img = w.
Proof.
  intros [Hlen Hrows] Hh. destruct img as [|row img]; simpl in *; [lia|].
  inversion Hrows as [|? ? [Hw _] _]. exact Hw.
Qed.

(** The sum that [_mse] divides, read off by indices. *)
Lemma np_sum_by_index (S c : nat) (A B : matrix) :
  has_shape S S c A -> has_shape S S c B ->
  _compute.np_sum (_compute.np_square (_compute.np_sub A B)) =
  sum_upto S (fun i =>
    sum_upto S (fun j =>
      sum_upto c (fun k => (element A i j k - element B i j k) ^ 2))).
Proof.
  intros HA HB. unfold _compute.np_sum, _compute.np_square, _compute.np_sub.
  unfold matrix, pixel in *. rewrite map_map.
  assert (HlA : length A = S) by apply HA.
  assert (HlB : length B = S) by apply HB.
  rewrite (sumZ_map_index [] _ _ S)
    by (rewrite zip_with_length; [assumption | now transitivity S]).
  apply sum_upto_ext. intros i Hi.
  rewrite (zip_with_nth _ [] [] []) by lia.
  destruct (has_shape_row _ _ _ _ i HA Hi) as [HwA _].
  destruct (has_shape_row _ _ _ _ i HB Hi) as [HwB _].
  unfold matrix, pixel in *. rewrite map_map.
  rewrite (sumZ_map_index [] _ _ S)
    by (rewrite zip_with_length; [assumption | now transitivity S]).
  apply sum_upto_ext. intros j Hj.
  rewrite (zip_with_nth _ [] [] []) by lia.
  pose proof (has_shape_pixel _ _ _ _ i j HA Hi Hj) as HcA.
  pose proof (has_shape_pixel _ _ _ _ i j HB Hi Hj) as HcB.
  unfold matrix, pixel in *.
  rewrite (sumZ_map_index 0 _ _ c)
    by (rewrite zip_with_length; [assumption | now transitivity c]).
  apply sum_upto_ext. intros k Hk.
  rewrite (zip_with_nth _ 0 0 0) by lia.
  reflexivity.
Qed.

(** ** The difference metric *)

Lemma map_zip_with {A B C D : Type} (g : C -> D) (f : A -> B -> C)
  (l : list A) (l' : list B) :
  map g (_compute.zip_with f l l') =
  _compute.zip_with (fun x y => g (f x y)) l l'.
Proof.
  revert l'; induction l as [|x l IH]; intros [|y l']; simpl; auto.
  now rewrite IH.
Qed.

(** A sum of terms that are non-negative, and zero only on equal arguments,
    is zero only on equal lists. *)
Lemma sumZ_zip_with_zero {A : Type} (f : A -> A -> Z) (R : A -> A -> Prop) :
  (forall x y, R x y -> 0 <= f x y /\ (f x y = 0 <-> x = y)) ->
  forall l l', Forall2 R l l' ->
    0 <= _compute.sumZ (_compute.zip_with f l l') /\
    (_compute.sumZ (_compute.zip_with f l l') = 0 <-> l = l').
Proof.
  intros Hf l l' H. induction H as [|x y l l' Hxy _ [IH0 IH]]; simpl.
  - split; [lia | tauto].
  - destruct (Hf x y Hxy) as [H0 Hz]. split; [lia|]. split.
    + intros Hs.
      assert (f x y = 0) by lia.
      assert (_compute.sumZ (_compute.zip_with f l l') = 0) by lia.
      f_equal; tauto.
    + intros Heq. injection Heq as Hx Hl.
      apply Hz in Hx. apply IH in Hl. lia.
Qed.

Lemma Forall2_of_Forall {A : Type} (P : A -> Prop) (R : A -> A -> Prop) :
  (forall x y, P x -> P y -> R x y) ->
  forall l l', length l = length l' -> Forall P l -> Forall P l' ->
    Forall2 R l l'.
Proof.
  intros HR. induction l as [|x l IH]; intros [|y l'] Hlen Hl Hl';
    simpl in *; try discriminate; constructor.
  - apply HR; [now inversion Hl | now inversion Hl'].
  - apply IH; [lia | now inversion Hl | now inversion Hl'].
Qed.

Lemma has_shape_same_shape (h w c : nat) (A B : matrix) :
  has_shape h w c A -> has_shape h w c B -> same_shape A B.
Proof.
  intros [HlA HA] [HlB HB]. unfold same_shape.
  eapply Forall2_of_Forall; [| congruence | exact HA | exact HB].
  intros r r' [Hr Hpx] [Hr' Hpx'].
  eapply Forall2_of_Forall; [| congruence | exact Hpx | exact Hpx'].
  simpl. intros; congruence.
Qed.

Lemma pixel_squares_zero_iff (p q : pixel) :
  length p = length q ->
  0 <= _compute.sumZ (map (fun x => x ^ 2) (_compute.zip_with Z.sub p q)) /\
  (_compute.sumZ (map (fun x => x ^ 2) (_compute.zip_with Z.sub p q)) = 0
   <-> p = q).
Proof.
  intros Hlen. rewrite map_zip_with.
  apply (sumZ_zip_with_zero _ (fun _ _ => True)).
  - intros a b _. split; [nia|]. split; [nia | intros ->; lia].
  - apply Forall2_of_Forall with (P := fun _ => True); auto.
    + clear. induction p; constructor; auto.
    + clear. induction q; constructor; auto.
Qed.

Lemma row_squares_zero_iff (r r' : list pixel) :
  Forall2 (fun p q : pixel => length p = length q) r r' ->
  0 <= _compute.sumZ (map _compute.sumZ
         (map (map (fun x => x ^ 2))
            (_compute.zip_with (_compute.zip_with Z.sub) r r'))) /\
  (_compute.sumZ (map _compute.sumZ
         (map (map (fun x => x ^ 2))
            (_compute.zip_with (_compute.zip_with Z.sub) r r'))) = 0
   <-> r = r').
Proof.
  intros H. rewrite map_map, map_zip_with.
  apply (sumZ_zip_with_zero _ _ pixel_squares_zero_iff _ _ H).
Qed.

Lemma squares_zero_iff (A B : matrix) :
  same_shape A B ->
  0 <= _compute.np_sum (_compute.np_square (_compute.np_sub A B)) /\
  (_compute.np_sum (_compute.np_square (_compute.np_sub A B)) = 0 <-> A = B).
Proof.
  intros H. unfold _compute.np_sum, _compute.np_square, _compute.np_sub.
  rewrite map_map, map_zip_with.
  apply (sumZ_zip_with_zero _ _ row_squares_zero_iff _ _ H).
Qed.

(** ** The float division *)

Lemma scale_den_pos (n d k : Z) : 0 < d -> 0 < snd (Float64.scale n d k).
Proof.
  intros Hd. unfold Float64.scale. destruct (0 <=? k) eqn:Hk; simpl; auto.
  apply Z.leb_gt in Hk. assert (0 < 2 ^ (- k)) by (apply Z.pow_pos_nonneg; lia).
  nia.
Qed.

(** [Float64.exponent n d] is an exponent below the quotient:
    [2 ^ e <= n / d]. *)
Lemma exponent_below (n d : Z) :
  0 < n -> 0 < d ->
  snd (Float64.scale n d (- Float64.exponent n d)) <=
  fst (Float64.scale n d (- Float64.exponent n d)).
Proof.
  intros Hn Hd. unfold Float64.exponent.
  destruct (Float64.scale n d (- (Z.log2 n - Z.log2 d))) as [a b] eqn:Hs.
  destruct (b <=? a) eqn:Hle.
  - rewrite Hs. simpl. now apply Z.leb_le.
  - clear Hs Hle a b.
    destruct (Z.log2_spec n Hn) as [Hn1 _].
    destruct (Z.log2_spec d Hd) as [_ Hd2].
    pose proof (Z.log2_nonneg n) as Ln. pose proof (Z.log2_nonneg d) as Ld.
    unfold Float64.scale.
    destruct (0 <=? - (Z.log2 n - Z.log2 d - 1)) eqn:Hk; simpl.
    + apply Z.leb_le in Hk.
      replace (- (Z.log2 n - Z.log2 d - 1)) with (Z.succ (Z.log2 d) - Z.log2 n)
        by lia.
      assert (2 ^ Z.succ (Z.log2 d) =
              2 ^ Z.log2 n * 2 ^ (Z.succ (Z.log2 d) - Z.log2 n)) as E.
      { rewrite <- Z.pow_add_r by lia. f_equal. lia. }
      assert (0 < 2 ^ (Z.succ (Z.log2 d) - Z.log2 n))
        by (apply Z.pow_pos_nonneg; lia).
      nia.
    + apply Z.leb_gt in Hk.
      replace (- - (Z.log2 n - Z.log2 d - 1))
        with (Z.log2 n - Z.succ (Z.log2 d)) by lia.
      assert (2 ^ Z.log2 n =
              2 ^ Z.succ (Z.log2 d) * 2 ^ (Z.log2 n - Z.succ (Z.log2 d))) as E.
      { rewrite <- Z.pow_add_r by lia. f_equal. lia. }
      assert (0 < 2 ^ (Z.log2 n - Z.succ (Z.log2 d)))
        by (apply Z.pow_pos_nonneg; lia).
      nia.
Qed.

Lemma scale_significand (n d e : Z) :
  0 < n -> 0 < d ->
  snd (Float64.scale n d (- e)) <= fst (Float64.scale n d (- e)) ->
  snd (Float64.scale n d (52 - e)) <= fst (Float64.scale n d (52 - e)).
Proof.
  intros Hn Hd. unfold Float64.scale.
  destruct (0 <=? - e) eqn:H1; destruct (0 <=? 52 - e) eqn:H2; cbn [fst snd];
    try apply Z.leb_le in H1; try apply Z.leb_le in H2;
    try apply Z.leb_gt in H1; try apply Z.leb_gt in H2; try lia; intros H.
  - replace (52 - e) with (- e + 52) by lia.
    rewrite Z.pow_add_r by lia.
    assert (0 < 2 ^ (- e)) by (apply Z.pow_pos_nonneg; lia).
    assert (1 <= 2 ^ 52) by (vm_compute; discriminate). nia.
  - assert (1 <= 2 ^ (52 - e)) by (apply (Z.pow_le_mono_r 2 0); lia).
    assert (1 <= 2 ^ (- - e)) by (apply (Z.pow_le_mono_r 2 0); lia).
    nia.
  - assert (2 ^ (- (52 - e)) <= 2 ^ (- - e))
      by (apply Z.pow_le_mono_r; lia).
    assert (0 < 2 ^ (- (52 - e))) by (apply Z.pow_pos_nonneg; lia).
    nia.
Qed.

Lemma nearest_even_pos (a b : Z) :
  0 < b -> b <= a -> 0 < Float64.nearest_even a b.
Proof.
  intros Hb Hab. unfold Float64.nearest_even.
  assert (1 <= a / b) by (apply Z.div_le_lower_bound; lia).
  destruct (2 * (a mod b) ?= b); try lia.
  destruct (Z.even (a / b)); lia.
Qed.

(** Rounding does not take a positive quotient to zero. *)
Lemma round_pos (n d : Z) : 0 < n -> 0 < d -> Qlt 0 (Float64.round n d).
Proof.
  intros Hn Hd. unfold Float64.round.
  pose proof (scale_significand n d (Float64.exponent n d) Hn Hd
                (exponent_below n d Hn Hd)) as Hle.
  pose proof (scale_den_pos n d (52 - Float64.exponent n d) Hd) as Hpos.
  destruct (Float64.scale n d (52 - Float64.exponent n d)) as [a b].
  simpl in Hle, Hpos.
  pose proof (nearest_even_pos a b Hpos Hle) as Hm.
  cbv zeta. rewrite Qred_correct.
  destruct (0 <=? 52 - Float64.exponent n d) eqn:Hk.
  - unfold Qlt. simpl. lia.
  - apply Z.leb_gt in Hk. unfold Qlt. simpl.
    assert (0 < 2 ^ (Float64.exponent n d - 52))
      by (apply Z.pow_pos_nonneg; lia).
    nia.
Qed.

Lemma div_pos (x y : Z) :
  0 < x -> 0 < y ->
  Float64.div x y = Float64.Finite (Float64.round x y).
Proof.
  intros Hx Hy. unfold Float64.div.
  destruct (y =? 0) eqn:E0; [apply Z.eqb_eq in E0; lia|].
  destruct (x =? 0) eqn:E1; [apply Z.eqb_eq in E1; lia|].
  assert ((x <? 0) = false) as -> by (apply Z.ltb_ge; lia).
  assert ((y <? 0) = false) as -> by (apply Z.ltb_ge; lia).
  simpl. now rewrite !Z.abs_eq by lia.
Qed.

Lemma div_zero (y : Z) : 0 < y -> Float64.div 0 y = Float64.Finite 0.
Proof.
  intros Hy. unfold Float64.div.
  destruct (y =? 0) eqn:E0; [apply Z.eqb_eq in E0; lia|]. reflexivity.
Qed.

Lemma quotient_eq_zero (n d : Z) :
  0 <= n -> 0 < d -> (Float64.is_zero (Float64.div n d) <-> n = 0).
Proof.
  intros Hn Hd. destruct (Z.eq_dec n 0) as [->|Hne].
  - rewrite (div_zero d Hd). simpl. split; intros; reflexivity.
  - rewrite (div_pos n d ltac:(lia) Hd). simpl.
    pose proof (round_pos n d ltac:(lia) Hd) as Hp.
    split; [|lia]. intros H. rewrite H in Hp. discriminate Hp.
Qed.

Lemma quotient_le_zero (n d : Z) :
  0 <= n -> 0 < d -> (Float64.leb (Float64.div n d) 0 = true <-> n = 0).
Proof.
  intros Hn Hd. destruct (Z.eq_dec n 0) as [->|Hne].
  - rewrite (div_zero d Hd). simpl. split; auto.
  - rewrite (div_pos n d ltac:(lia) Hd). simpl.
    pose proof (round_pos n d ltac:(lia) Hd) as Hp.
    split; [|lia]. intros H. apply Qle_bool_iff in H.
    exfalso. apply (Qlt_irrefl 0). eapply Qlt_le_trans; eauto.
Qed.

(** The significand has 53 bits: the scaled quotient is at least [2 ^ 52]. *)
Lemma scale_significand_bits (n d e : Z) :
  0 < n -> 0 < d ->
  snd (Float64.scale n d (- e)) <= fst (Float64.scale n d (- e)) ->
  2 ^ 52 * snd (Float64.scale n d (52 - e)) <=
  fst (Float64.scale n d (52 - e)).
Proof.
  intros Hn Hd. unfold Float64.scale.
  destruct (0 <=? - e) eqn:H1; destruct (0 <=? 52 - e) eqn:H2; cbn [fst snd];
    try apply Z.leb_le in H1; try apply Z.leb_le in H2;
    try apply Z.leb_gt in H1; try apply Z.leb_gt in H2; try lia; intros H.
  - replace (52 - e) with (- e + 52) by lia.
    rewrite Z.pow_add_r by lia.
    assert (0 < 2 ^ 52) by (vm_compute; reflexivity). nia.
  - replace (- - e) with e in H by lia.
    assert (E : 2 ^ 52 = 2 ^ e * 2 ^ (52 - e)).
    { rewrite <- Z.pow_add_r by lia. f_equal. lia. }
    rewrite E.
    assert (0 < 2 ^ (52 - e)) by (apply Z.pow_pos_nonneg; lia).
    nia.
  - replace (- - e) with e in H by lia.
    replace (- (52 - e)) with (e - 52) by lia.
    assert (E : 2 ^ e = 2 ^ 52 * 2 ^ (e - 52)).
    { rewrite <- Z.pow_add_r by lia. f_equal. lia. }
    rewrite E in H. lia.
Qed.

Lemma nearest_even_error (a b : Z) :
  0 < b -> 0 <= a -> 2 * Z.abs (Float64.nearest_even a b * b - a) <= b.
Proof.
  intros Hb Ha. unfold Float64.nearest_even.
  pose proof (Z.div_mod a b ltac:(lia)) as E.
  pose proof (Z.mod_pos_bound a b Hb) as Hr.
  destruct (Z.compare_spec (2 * (a mod b)) b) as [H|H|H]; [|nia|nia].
  destruct (Z.even (a / b)); nia.
Qed.

(** The rounded quotient is within the relative error [2 ^ -53] of the
    exact one. *)
Lemma round_error (n : Z) (d : positive) :
  0 < n ->
  Qle (Qabs (Float64.round n (Zpos d) - (n # d))) ((n # d) * (1 # 2 ^ 53)).
Proof.
  intros Hn. unfold Float64.round.
  pose proof (scale_significand_bits n (Zpos d) (Float64.exponent n (Zpos d))
                Hn ltac:(lia) (exponent_below n (Zpos d) Hn ltac:(lia)))
    as Hle.
  pose proof (scale_den_pos n (Zpos d) (52 - Float64.exponent n (Zpos d))
                ltac:(lia)) as Hpos.
  unfold Float64.scale in *.
  set (e := Float64.exponent n (Zpos d)) in *.
  destruct (0 <=? 52 - e) eqn:Hk; cbn [fst snd] in *; cbv zeta;
    rewrite Qred_correct.
  - apply Z.leb_le in Hk.
    pose proof (nearest_even_error (n * 2 ^ (52 - e)) (Zpos d) ltac:(lia))
      as Hm.
    assert (Hp : 0 < 2 ^ (52 - e)) by (apply Z.pow_pos_nonneg; lia).
    specialize (Hm ltac:(nia)).
    set (m := Float64.nearest_even (n * 2 ^ (52 - e)) (Zpos d)) in *.
    unfold Qle, Qabs, Qminus, Qplus, Qopp, Qmult. cbn [Qnum Qden].
    rewrite !Pos2Z.inj_mul, Z2Pos.id by lia.
    set (P := 2 ^ (52 - e)) in *.
    change (Z.pos (2 ^ 53)) with (2 * 2 ^ 52).
    set (T := 2 ^ 52) in *. assert (0 < T) by (subst T; reflexivity).
    replace (m * Z.pos d + - n * P) with (m * Z.pos d - n * P) by lia.
    nia.
  - apply Z.leb_gt in Hk.
    assert (Hp : 0 < 2 ^ (- (52 - e))) by (apply Z.pow_pos_nonneg; lia).
    pose proof (nearest_even_error n (Zpos d * 2 ^ (- (52 - e))) ltac:(nia)
                  ltac:(lia)) as Hm.
    set (m := Float64.nearest_even n (Zpos d * 2 ^ (- (52 - e)))) in *.
    replace (e - 52) with (- (52 - e)) by lia.
    unfold Qle, Qabs, Qminus, Qplus, Qopp, Qmult. cbn [Qnum Qden].
    rewrite !Pos2Z.inj_mul.
    set (P := 2 ^ (- (52 - e))) in *.
    change (Z.pos (2 ^ 53)) with (2 * 2 ^ 52).
    set (T := 2 ^ 52) in *. assert (0 < T) by (subst T; reflexivity).
    replace (m * P * Z.pos d + - n * 1) with (m * (Z.pos d * P) - n) by lia.
    nia.
Qed.

Lemma div_rounds (n : Z) (d : positive) :
  0 <= n -> Float64.rounds (n # d) (Float64.div n (Zpos d)).
Proof.
  intros Hn. destruct (Z.eq_dec n 0) as [->|Hne].
  - rewrite div_zero by lia. exists 0%Q. split; [reflexivity|].
    unfold Qle, Qabs, Qminus, Qplus, Qopp, Qmult. simpl. lia.
  - rewrite div_pos by lia. eexists. split; [reflexivity|].
    apply round_error. lia.
Qed.

(** The values the division takes on the two quotients that separate the
    float from the exact rational: a third and a ninth. *)
Example div_third_and_ninth :
  Float64.div 48 144 = Float64.Finite (6004799503160661 # 2 ^ 54) /\
  Float64.div 1 9 = Float64.Finite (2001599834386887 # 2 ^ 54).
Proof. split; vm_compute; reflexivity. Qed.

Lemma sumZ_nonneg (l : list Z) :
  Forall (fun x => 0 <= x) l -> 0 <= _compute.sumZ l.
Proof.
  induction 1 as [|x l Hx _ IH]; simpl; lia.
Qed.

Lemma np_sum_square_nonneg (img : matrix) :
  0 <= _compute.np_sum (_compute.np_square img).
Proof.
  unfold _compute.np_sum, _compute.np_square.
  apply sumZ_nonneg, Forall_forall. intros x Hx.
  apply in_map_iff in Hx. destruct Hx as [row [<- Hrow]].
  apply in_map_iff in Hrow. destruct Hrow as [row0 [<- _]].
  apply sumZ_nonneg, Forall_forall. intros y Hy.
  apply in_map_iff in Hy. destruct Hy as [px [<- Hpx]].
  apply in_map_iff in Hpx. destruct Hpx as [px0 [<- _]].
  apply sumZ_nonneg, Forall_forall. intros z Hz.
  apply in_map_iff in Hz. destruct Hz as [v [<- _]]. nia.
Qed.

(** A score that passes the threshold test is a finite number. *)
Lemma mse_leb_within (A B : matrix) (similarity : Q) :
  Float64.leb (_compute._mse A B) similarity = true ->
  Float64.within (_compute._mse A B) similarity.
Proof.
  unfold _compute._mse, Float64.div.
  pose proof (np_sum_square_nonneg (_compute.np_sub A B)) as Hx.
  destruct (Z.of_nat (shape0 A * shape1 A) =? 0).
  - destruct (_ =? 0); [discriminate|].
    assert ((_compute.np_sum (_compute.np_square (_compute.np_sub A B)) <? 0)
            = false) as -> by (apply Z.ltb_ge; lia).
    discriminate.
  - destruct (_ =? 0); simpl; intros H; apply Qle_bool_iff in H; eauto.
    + exists 0%Q. auto.
    + eexists. split; [reflexivity | exact H].
Qed.

Lemma pixel_count_pos (h w c : nat) (A : matrix) :
  (0 < h)%nat -> (0 < w)%nat -> has_shape h w c A ->
  0 < Z.of_nat (shape0 A * shape1 A).
Proof.
  intros Hh Hw HA. rewrite (has_shape_shape1 h w c A HA Hh).
  unfold shape0. destruct HA as [-> _]. nia.
Qed.

Lemma mse_zero_iff (h w c : nat) (A B : matrix) :
  (0 < h)%nat -> (0 < w)%nat -> has_shape h w c A -> has_shape h w c B ->
  (Float64.is_zero (_compute._mse A B) <-> A = B) /\
  (Float64.leb (_compute._mse A B) 0 = true <-> A = B).
Proof.
  intros Hh Hw HA HB.
  pose proof (pixel_count_pos h w c A Hh Hw HA) as Hd.
  destruct (squares_zero_iff A B (has_shape_same_shape h w c A B HA HB))
    as [H0 Hz].
  unfold _compute._mse. split.
  - rewrite (quotient_eq_zero _ _ H0 Hd). exact Hz.
  - rewrite (quotient_le_zero _ _ H0 Hd). exact Hz.
Qed.

Lemma mse_by_index (S : nat) (A B : matrix) :
  has_shape S S 3 A -> has_shape S S 3 B ->
  _compute._mse A B =
  Float64.div (squared_differences S A B) (Z.of_nat (S * S)).
Proof.
  intros HA HB. unfold _compute._mse, squared_differences.
  rewrite (np_sum_by_index S 3 A B HA HB). do 2 f_equal.
  unfold shape0. replace (length A) with S by (symmetry; apply HA).
  destruct S as [|S]; [reflexivity|].
  now rewrite (has_shape_shape1 _ _ 3 A HA ltac:(lia)).
Qed.

(** C6: on two [S x S x 3] grids [_mse] returns the sum, over all pixels and
    channels, of the squared differences, divided by the pixel count [S * S]
    alone: the three channels do not enter the divisor.  The division is
    that of floats: the value returned is the float nearest to the exact
    quotient, hence within the relative error [2 ^ -53] of it, and nan when
    there is no pixel. *)
Theorem mse_divides_by_pixel_count (S : nat) (A B : matrix) :
  has_shape S S 3 A -> has_shape S S 3 B ->
  _compute._mse A B = spec_difference S A B /\
  ((0 < S)%nat ->
   Float64.rounds (exact_difference S A B) (_compute._mse A B)) /\
  (S = O -> _compute._mse A B = Float64.NaN).
Proof.
  intros HA HB. pose proof (mse_by_index S A B HA HB) as Heq.
  split; [exact Heq|]. split.
  - intros HS. rewrite Heq. unfold exact_difference.
    assert (Hd : Z.of_nat (S * S) = Z.pos (Pos.of_nat (S * S))).
    { rewrite <- positive_nat_Z, Nat2Pos.id by nia. reflexivity. }
    rewrite Hd. apply div_rounds.
    unfold squared_differences. rewrite <- (np_sum_by_index S 3 A B HA HB).
    apply np_sum_square_nonneg.
  - intros ->. rewrite Heq. reflexivity.
Qed.

(** A grid of [3 x 3] pixels against one that differs by 1 in one channel
    of one pixel: the sum is 1, the pixel count 9, and the score the float
    nearest to a ninth. *)
Lemma mse_divides_by_pixel_count_witness :
  _compute._mse (solid 3 [0; 0; 0]) one_off =
  Float64.Finite (2001599834386887 # 2 ^ 54) /\
  Float64.rounds (1 # 9)
    (_compute._mse (solid 3 [0; 0; 0]) one_off).
Proof.
  destruct (mse_divides_by_pixel_count 3 (solid 3 [0; 0; 0]) one_off)
    as (Heq & Hround & _).
  - split; [reflexivity | repeat constructor].
  - split; [reflexivity | repeat constructor].
  - split; [rewrite Heq; vm_compute; reflexivity | apply Hround; lia].
Defined.

(** The threshold test is on the float: the score of a sum of 48 over 144
    pixels is the float nearest to a third, which is below a third, and it
    passes the threshold [0.3333333333333333], the same float. *)
Example mse_third_passes_its_float :
  _compute._mse (solid 12 [0; 0; 0]) four_rows_off =
    Float64.Finite (6004799503160661 # 2 ^ 54) /\
  Qlt (6004799503160661 # 2 ^ 54) (1 # 3) /\
  _search.match_rotations (solid 12 [0; 0; 0]) four_rows_off
    (6004799503160661 # 2 ^ 54) <> None.
Proof.
  split; [vm_compute; reflexivity|]. split; [reflexivity|].
  vm_compute. discriminate.
Qed.

(** The divisor is the pixel count: one channel off by 3 on each of the four
    pixels of a [2 x 2] image scores 9, not 3. *)
Example mse_solid_2x2 :
  _compute._mse (solid 2 [3; 0; 0]) (solid 2 [0; 0; 0]) =
  Float64.Finite (9 # 1).
Proof. vm_compute. reflexivity. Qed.

(** ** Quarter turns *)

Lemma rotate_has_shape (S c : nat) (img : matrix) :
  has_shape S S c img -> has_shape S S c (_help._rotate_img img).
Proof.
  intros [Hlen Hrows]. unfold _help._rotate_img, _help.transpose01.
  assert (Hs1 : shape1 (map (@rev pixel) img) = S).
  { destruct img as [|row img]; simpl in *; [lia|].
    inversion Hrows as [|? ? [Hw _] _]. now rewrite length_rev. }
  rewrite Hs1. split.
  - now rewrite length_map, length_seq.
  - apply Forall_forall. intros col Hcol.
    apply in_map_iff in Hcol. destruct Hcol as [j [<- Hj]].
    apply in_seq in Hj. unfold _help.column. split.
    + now rewrite !length_map.
    + apply Forall_forall. intros px Hpx.
      apply in_map_iff in Hpx. destruct Hpx as [row [<- Hrow]].
      apply in_map_iff in Hrow. destruct Hrow as [row0 [<- Hrow0]].
      rewrite Forall_forall in Hrows.
      destruct (Hrows row0 Hrow0) as [Hw Hpxs].
      rewrite Forall_forall in Hpxs. apply Hpxs.
      apply in_rev. apply nth_In. rewrite length_rev. lia.
Qed.

Lemma rotated_has_shape (S c : nat) (img : matrix) (k : nat) :
  has_shape S S c img -> has_shape S S c (rotated k img).
Proof.
  intros H. induction k as [|k IH]; simpl; [exact H|].
  now apply rotate_has_shape.
Qed.

(** The loop from pass [r] on, entered with the candidate as the previous
    pass left it. *)
Lemma rotation_loop_spec (A B : matrix) (similarity : Q) :
  forall (fuel r : nat),
    (5 <= fuel + r)%nat ->
    match _search.rotation_loop fuel r A (rotated (pred r) B) similarity with
    | Some (k, B', s) =>
        (r <= k <= 3)%nat /\ B' = rotated k B /\ s = _compute._mse A B' /\
        accepted similarity A B k /\
        forall k', (r <= k' < k)%nat -> ~ accepted similarity A B k'
    | None => forall k', (r <= k' <= 3)%nat -> ~ accepted similarity A B k'
    end.
Proof.
  induction fuel as [|fuel IH]; intros r Hfuel; simpl.
  - intros k' Hk'. lia.
  - destruct (Nat.leb_spec r 3) as [Hr|Hr]; [|intros k' Hk'; lia].
    set (M := if (r =? 0)%nat then rotated (pred r) B
              else _help._rotate_img (rotated (pred r) B)).
    assert (HM : M = rotated r B).
    { subst M. destruct r as [|r]; reflexivity. }
    rewrite HM.
    destruct (Float64.leb (_compute._mse A (rotated r B)) similarity) eqn:Hle.
    + repeat split; auto; try lia.
    + assert (Hno : ~ accepted similarity A B r).
      { unfold accepted. congruence. }
      specialize (IH (S r) ltac:(lia)). simpl pred in IH.
      destruct (_search.rotation_loop fuel (S r) A (rotated r B) similarity)
        as [[[k B'] s]|].
      * destruct IH as (Hk & HB' & Hs & Hacc & Hleast).
        repeat split; auto; try lia.
        intros k' Hk'. destruct (Nat.eq_dec k' r) as [->|Hne]; auto.
        apply Hleast. lia.
      * intros k' Hk'. destruct (Nat.eq_dec k' r) as [->|Hne]; auto.
        apply IH. lia.
Qed.

(** More fuel than the four passes and the closing test changes nothing. *)
Lemma rotation_loop_fuel (A : matrix) (similarity : Q) :
  forall (fuel r : nat) (M : matrix),
    (5 <= fuel + r)%nat ->
    _search.rotation_loop (S fuel) r A M similarity =
    _search.rotation_loop fuel r A M similarity.
Proof.
  induction fuel as [|fuel IH]; intros r M Hfuel.
  - simpl. destruct (Nat.leb_spec r 3); [lia | reflexivity].
  - change (_search.rotation_loop (S (S fuel)) r A M similarity) with
      (if (r <=? 3)%nat then
         let M' := if (r =? 0)%nat then M else _help._rotate_img M in
         if Float64.leb (_compute._mse A M') similarity
         then Some (r, M', _compute._mse A M')
         else _search.rotation_loop (S fuel) (S r) A M' similarity
       else None).
    cbv zeta. rewrite IH by lia. reflexivity.
Qed.

Lemma match_rotations_spec (A B : matrix) (similarity : Q) :
  match _search.match_rotations A B similarity with
  | Some (k, B', s) =>
      (k <= 3)%nat /\ B' = rotated k B /\ s = _compute._mse A B' /\
      accepted similarity A B k /\
      forall k', (k' < k)%nat -> ~ accepted similarity A B k'
  | None => forall k', (k' <= 3)%nat -> ~ accepted similarity A B k'
  end.
Proof.
  pose proof (rotation_loop_spec A B similarity 5 0 ltac:(lia)) as H.
  simpl pred in H. change (rotated 0 B) with B in H.
  unfold _search.match_rotations.
  destruct (_search.rotation_loop 5 0 A B similarity) as [[[k B'] s]|].
  - destruct H as (Hk & HB' & Hs & Hacc & Hleast).
    repeat split; auto; try lia. intros k' Hk'. apply Hleast. lia.
  - intros k' Hk'. apply H. lia.
Qed.


(** C8: on grids of equal shape the metric is zero exactly when the two
    grids are elementwise identical; a grid is at difference 0 from itself;
    and under a threshold of 0 the match test accepts a candidate only in a
    turn that makes it identical to the anchor. *)
Theorem mse_zero_iff_identical (S c : nat) (A B : matrix) :
  (0 < S)%nat -> has_shape S S c A -> has_shape S S c B ->
  (Float64.is_zero (_compute._mse A B) <-> A = B) /\
  Float64.is_zero (_compute._mse A A) /\
  (forall k B' s,
      _search.match_rotations A B 0%Q = Some (k, B', s) ->
      B' = rotated k B /\ A = B').
Proof.
  intros HS HA HB. split; [|split].
  - apply (mse_zero_iff S S c A B HS HS HA HB).
  - apply (mse_zero_iff S S c A A HS HS HA HA). reflexivity.
  - intros k B' s Heq.
    pose proof (match_rotations_spec A B 0%Q) as Hspec.
    rewrite Heq in Hspec. destruct Hspec as (_ & -> & _ & Hacc & _).
    split; [reflexivity|].
    apply (mse_zero_iff S S c A (rotated k B) HS HS HA
             (rotated_has_shape S c B k HB)).
    exact Hacc.
Qed.

Lemma mse_zero_iff_identical_witness :
  (Float64.is_zero (_compute._mse (solid 2 [1; 2; 3]) (solid 2 [1; 2; 3])) <->
   solid 2 [1; 2; 3] = solid 2 [1; 2; 3]) /\
  Float64.is_zero (_compute._mse (solid 2 [1; 2; 3]) (solid 2 [1; 2; 3])) /\
  (forall k B' s,
      _search.match_rotations (solid 2 [1; 2; 3]) (solid 2 [1; 2; 3]) 0%Q =
      Some (k, B', s) ->
      B' = rotated k (solid 2 [1; 2; 3]) /\ solid 2 [1; 2; 3] = B').
Proof.
  apply (mse_zero_iff_identical 2 3);
    [lia | split; [reflexivity | repeat constructor] ..].
Defined.

(** ** The quality ranking *)

Lemma ascii_compare_refl (a : ascii) : Ascii.compare a a = Eq.
Proof. unfold Ascii.compare. apply N.compare_refl. Qed.

Lemma string_leb_refl (s : string) : String.leb s s = true.
Proof.
  unfold String.leb. induction s as [|a s IH]; simpl; [reflexivity|].
  rewrite ascii_compare_refl. exact IH.
Qed.

Lemma string_leb_trans (s1 s2 s3 : string) :
  String.leb s1 s2 = true -> String.leb s2 s3 = true ->
  String.leb s1 s3 = true.
Proof.
  unfold String.leb. revert s2 s3.
  induction s1 as [|a s1 IH]; intros [|b s2] [|c s3]; simpl; try easy.
  unfold Ascii.compare.
  destruct (N.compare_spec (N_of_ascii a) (N_of_ascii b)) as [Hab|Hab|Hab];
    destruct (N.compare_spec (N_of_ascii b) (N_of_ascii c)) as [Hbc|Hbc|Hbc];
    destruct (N.compare_spec (N_of_ascii a) (N_of_ascii c)) as [Hac|Hac|Hac];
    try easy; try lia.
  apply IH.
Qed.

Lemma tuple_leb_total (a b : Z * string) :
  _help.tuple_leb a b = true \/ _help.tuple_leb b a = true.
Proof.
  unfold _help.tuple_leb.
  destruct (Z.ltb_spec (fst a) (fst b)); auto.
  destruct (Z.ltb_spec (fst b) (fst a)); auto.
  replace (fst b =? fst a) with true by (symmetry; apply Z.eqb_eq; lia).
  replace (fst a =? fst b) with true by (symmetry; apply Z.eqb_eq; lia).
  apply String.leb_total.
Qed.

Lemma tuple_leb_trans (a b c : Z * string) :
  _help.tuple_leb a b = true -> _help.tuple_leb b c = true ->
  _help.tuple_leb a c = true.
Proof.
  unfold _help.tuple_leb.
  destruct (Z.ltb_spec (fst a) (fst b)), (Z.ltb_spec (fst b) (fst c)),
    (Z.ltb_spec (fst a) (fst c)); try easy; try lia;
    destruct (Z.eqb_spec (fst a) (fst b)), (Z.eqb_spec (fst b) (fst c)),
      (Z.eqb_spec (fst a) (fst c)); try easy; try lia.
  apply string_leb_trans.
Qed.

Lemma tuple_leb_antisym (a b : Z * string) :
  _help.tuple_leb a b = true -> _help.tuple_leb b a = true -> a = b.
Proof.
  unfold _help.tuple_leb. destruct a as [sa fa], b as [sb fb]. simpl.
  destruct (Z.ltb_spec sa sb), (Z.ltb_spec sb sa); try lia;
    destruct (Z.eqb_spec sa sb), (Z.eqb_spec sb sa); try easy; try lia.
  intros H1 H2. f_equal; [assumption|]. now apply String.leb_antisym.
Qed.

Lemma insert_desc_perm (x : Z * string) (l : list (Z * string)) :
  Permutation (x :: l) (_help.insert_desc x l).
Proof.
  induction l as [|y l IH]; simpl; [reflexivity|].
  destruct (_help.tuple_leb y x); [reflexivity|].
  rewrite perm_swap. now apply perm_skip.
Qed.

Lemma insert_desc_sorted (x : Z * string) (l : list (Z * string)) :
  StronglySorted desc l -> StronglySorted desc (_help.insert_desc x l).
Proof.
  induction l as [|y l IH]; intros Hs; simpl.
  - repeat constructor.
  - apply StronglySorted_inv in Hs. destruct Hs as [Hl Hy].
    destruct (_help.tuple_leb y x) eqn:Hyx.
    + constructor; [constructor; assumption|].
      constructor; [exact Hyx|].
      rewrite Forall_forall in *. intros z Hz. unfold desc in *.
      eapply tuple_leb_trans; [apply Hy, Hz | exact Hyx].
    + constructor; [apply IH, Hl|].
      rewrite Forall_forall in *. intros z Hz.
      apply (Permutation_in _ (Permutation_sym (insert_desc_perm x l))) in Hz.
      destruct Hz as [<-|Hz]; [|now apply Hy].
      unfold desc. destruct (tuple_leb_total x y); congruence.
Qed.

Lemma sorted_reverse_perm (l : list (Z * string)) :
  Permutation l (_help.sorted_reverse l).
Proof.
  induction l as [|x l IH]; simpl; [reflexivity|].
  rewrite <- insert_desc_perm. now apply perm_skip.
Qed.

Lemma sorted_reverse_sorted (l : list (Z * string)) :
  StronglySorted desc (_help.sorted_reverse l).
Proof.
  induction l as [|x l IH]; simpl; [constructor|].
  now apply insert_desc_sorted.
Qed.

(** Two descending arrangements of the same tuples are the same list. *)
Lemma desc_sorted_unique (l l' : list (Z * string)) :
  StronglySorted desc l -> StronglySorted desc l' -> Permutation l l' ->
  l = l'.
Proof.
  revert l'. induction l as [|x l IH]; intros l' Hl Hl' Hp.
  - apply Permutation_nil in Hp. now subst.
  - destruct l' as [|y l'].
    + apply Permutation_sym, Permutation_nil in Hp. discriminate.
    + apply StronglySorted_inv in Hl. destruct Hl as [Hl Hx].
      apply StronglySorted_inv in Hl'. destruct Hl' as [Hl' Hy].
      rewrite Forall_forall in Hx, Hy.
      assert (Hxy : x = y).
      { assert (Hin : In x (y :: l'))
          by (apply (Permutation_in _ Hp); now left).
        assert (Hin' : In y (x :: l))
          by (apply (Permutation_in _ (Permutation_sym Hp)); now left).
        destruct Hin as [Heq|Hin]; [now symmetry|].
        destruct Hin' as [Heq|Hin']; [assumption|].
        apply tuple_leb_antisym; [apply (Hy x Hin) | apply (Hx y Hin')]. }
      subst y. f_equal. apply IH; auto.
      now apply Permutation_cons_inv in Hp.
Qed.

Lemma sorted_reverse_of_perm (l l' : list (Z * string)) :
  Permutation l l' -> _help.sorted_reverse l = _help.sorted_reverse l'.
Proof.
  intros Hp. apply desc_sorted_unique; try apply sorted_reverse_sorted.
  rewrite <- (sorted_reverse_perm l), <- (sorted_reverse_perm l').
  exact Hp.
Qed.

Lemma imgs_sizes_some (os : OS) (img_list : list string) :
  (forall f, In f img_list -> stat_size os f <> None) ->
  _help.imgs_sizes os img_list =
  Some (map (fun f => (size_of os f, f)) img_list).
Proof.
  induction img_list as [|f l IH]; intros Hall; simpl; [reflexivity|].
  rewrite IH by (intros g Hg; apply Hall; now right).
  unfold size_of. destruct (stat_size os f) eqn:Hf; [reflexivity|].
  exfalso. apply (Hall f); [now left | exact Hf].
Qed.

Lemma imgs_sizes_inv (os : OS) (img_list : list string)
  (l : list (Z * string)) :
  _help.imgs_sizes os img_list = Some l ->
  (forall f, In f img_list -> stat_size os f <> None) /\
  l = map (fun f => (size_of os f, f)) img_list.
Proof.
  revert l. induction img_list as [|f rest IH]; intros l H; simpl in *.
  - injection H as <-. split; [intros f []|reflexivity].
  - destruct (stat_size os f) eqn:Hf; [|discriminate].
    destruct (_help.imgs_sizes os rest) as [l0|]; [|discriminate].
    injection H as <-. destruct (IH l0 eq_refl) as [Hall ->]. split.
    + intros g [<-|Hg]; [congruence | now apply Hall].
    + cbn [map]. f_equal. unfold size_of. now rewrite Hf.
Qed.

Lemma imgs_sizes_none (os : OS) (img_list : list string) :
  _help.imgs_sizes os img_list = None ->
  exists f, In f img_list /\ stat_size os f = None.
Proof.
  induction img_list as [|f rest IH]; simpl; [discriminate|].
  destruct (stat_size os f) eqn:Hf; [|exists f; auto].
  destruct (_help.imgs_sizes os rest); [discriminate|].
  intros _. destruct (IH eq_refl) as [g [Hg Hnone]]. exists g; auto.
Qed.

Lemma check_img_quality_total (os : OS) (img_list : list string) :
  (forall f, In f img_list -> stat_size os f <> None) ->
  _help._check_img_quality os img_list =
  Some (map snd (_help.sorted_reverse
                   (map (fun f => (size_of os f, f)) img_list))).
Proof.
  intros Hall. unfold _help._check_img_quality.
  now rewrite (imgs_sizes_some os img_list Hall).
Qed.

Lemma check_img_quality_inv (os : OS) (img_list ranked : list string) :
  _help._check_img_quality os img_list = Some ranked ->
  (forall f, In f img_list -> stat_size os f <> None) /\
  ranked = map snd (_help.sorted_reverse
                      (map (fun f => (size_of os f, f)) img_list)).
Proof.
  unfold _help._check_img_quality. intros H.
  destruct (_help.imgs_sizes os img_list) as [l|] eqn:Hl; [|discriminate].
  injection H as <-. destruct (imgs_sizes_inv os img_list l Hl) as [Hall ->].
  auto.
Qed.

Lemma ranked_perm (os : OS) (img_list : list string) :
  Permutation img_list
    (map snd (_help.sorted_reverse
                (map (fun f => (size_of os f, f)) img_list))).
Proof.
  rewrite <- sorted_reverse_perm, map_map. simpl. now rewrite map_id.
Qed.

Lemma desc_sorted_ranks_first (os : OS) (l : list (Z * string)) :
  Forall (fun p => fst p = size_of os (snd p)) l ->
  StronglySorted desc l -> StronglySorted (ranks_first os) (map snd l).
Proof.
  intros Hsz Hs. induction Hs as [|x l Hs IH Hx]; simpl; constructor.
  - apply IH. now inversion Hsz.
  - apply Forall_forall. intros f Hf. apply in_map_iff in Hf.
    destruct Hf as [y [<- Hy]].
    rewrite Forall_forall in Hx, Hsz.
    specialize (Hx y Hy). unfold desc, _help.tuple_leb in Hx.
    rewrite (Hsz x (or_introl eq_refl)) in Hx.
    rewrite (Hsz y (or_intror Hy)) in Hx.
    unfold ranks_first.
    destruct (Z.ltb_spec (size_of os (snd y)) (size_of os (snd x)));
      [now left|].
    destruct (Z.eqb_spec (size_of os (snd y)) (size_of os (snd x)));
      [right; split; [lia|assumption] | discriminate].
Qed.

Lemma ranked_sorted (os : OS) (img_list : list string) :
  StronglySorted (ranks_first os)
    (map snd (_help.sorted_reverse
                (map (fun f => (size_of os f, f)) img_list))).
Proof.
  apply desc_sorted_ranks_first; [|apply sorted_reverse_sorted].
  apply Forall_forall. intros p Hp.
  apply (Permutation_in _ (Permutation_sym (sorted_reverse_perm _))) in Hp.
  apply in_map_iff in Hp. destruct Hp as [f [<- _]]. reflexivity.
Qed.

(** C10: the ranking sorts the files by the pair (byte size, location) in
    decreasing order, so files of equal byte size come in descending order
    of their location strings; it depends on nothing but these pairs: neither
    on the order in which the group lists its files nor on anything else the
    environment holds. *)
Theorem ranking_by_size_then_location (os : OS)
  (img_list ranked : list string) :
  _help._check_img_quality os img_list = Some ranked ->
  Permutation img_list ranked /\
  StronglySorted (ranks_first os) ranked /\
  (forall img_list', Permutation img_list img_list' ->
     _help._check_img_quality os img_list' = Some ranked) /\
  (forall os', (forall f, In f img_list -> stat_size os' f = stat_size os f) ->
     _help._check_img_quality os' img_list = Some ranked).
Proof.
  intros H. destruct (check_img_quality_inv os img_list ranked H) as [Hall ->].
  split; [apply ranked_perm|]. split; [apply ranked_sorted|]. split.
  - intros l' Hp. rewrite check_img_quality_total.
    + do 2 f_equal. apply sorted_reverse_of_perm.
      apply Permutation_map, Permutation_sym, Hp.
    + intros f Hf. apply Hall.
      apply (Permutation_in _ (Permutation_sym Hp)), Hf.
  - intros os' Hsame. rewrite check_img_quality_total.
    + do 3 f_equal. apply map_ext_in. intros f Hf.
      unfold size_of. now rewrite (Hsame f Hf).
    + intros f Hf. rewrite (Hsame f Hf). now apply Hall.
Qed.

Lemma ranking_by_size_then_location_witness :
  Permutation ["a.jpg"; "b.jpg"; "c.jpg"]%string
              ["c.jpg"; "a.jpg"; "b.jpg"]%string /\
  StronglySorted (ranks_first sizes_os) ["c.jpg"; "a.jpg"; "b.jpg"]%string /\
  (forall img_list',
     Permutation ["a.jpg"; "b.jpg"; "c.jpg"]%string img_list' ->
     _help._check_img_quality sizes_os img_list' =
     Some ["c.jpg"; "a.jpg"; "b.jpg"]%string) /\
  (forall os',
     (forall f, In f ["a.jpg"; "b.jpg"; "c.jpg"]%string ->
                stat_size os' f = stat_size sizes_os f) ->
     _help._check_img_quality os' ["a.jpg"; "b.jpg"; "c.jpg"]%string =
     Some ["c.jpg"; "a.jpg"; "b.jpg"]%string).
Proof.
  apply (ranking_by_size_then_location sizes_os). reflexivity.
Defined.

(** ** The removal list *)

Lemma lower_quality_from (os : OS) (result : Dict.t _search.group) :
  (forall entry f, In entry result ->
     In f (_search.match_group (snd entry)) -> stat_size os f <> None) ->
  forall acc,
  exists parts,
    foldM (_search.lower_step os) result acc = Some (acc ++ concat parts) /\
    Forall2 (fun entry part =>
      exists top,
        _help._check_img_quality os (_search.match_group (snd entry)) =
          Some (top :: part) /\
        S (length part) = length (_search.match_group (snd entry)) /\
        (forall f, In f (_search.match_group (snd entry)) ->
           size_of os f <= size_of os top) /\
        (NoDup (_search.match_group (snd entry)) -> ~ In top part))
      result parts.
Proof.
  induction result as [|entry result IH]; intros Hall acc.
  - exists []. simpl. rewrite app_nil_r. split; [reflexivity|constructor].
  - assert (Hstat : forall f, In f (_search.match_group (snd entry)) ->
                      stat_size os f <> None)
      by (intros f Hf; apply (Hall entry f); [now left | exact Hf]).
    pose proof (check_img_quality_total os _ Hstat) as Hq.
    pose proof (ranked_perm os (_search.match_group (snd entry))) as Hperm.
    pose proof (ranked_sorted os (_search.match_group (snd entry))) as Hsort.
    destruct (map snd (_help.sorted_reverse
                (map (fun f => (size_of os f, f))
                   (_search.match_group (snd entry))))) as [|top part].
    + apply Permutation_sym, Permutation_nil in Hperm. discriminate.
    + destruct (IH (fun e f He => Hall e f (or_intror He)) (acc ++ part))
        as [parts [Hfold Hparts]].
      exists (part :: parts). split.
      * simpl. unfold _search.lower_step at 1. rewrite Hq. simpl tl.
        rewrite Hfold. now rewrite <- app_assoc.
      * constructor; [|exact Hparts]. exists top.
        split; [exact Hq|]. split; [|split].
        -- apply Permutation_length in Hperm. simpl in *. lia.
        -- intros f Hf. apply (Permutation_in _ Hperm) in Hf.
           apply StronglySorted_inv in Hsort. destruct Hsort as [_ Htop].
           destruct Hf as [<-|Hf]; [lia|].
           rewrite Forall_forall in Htop. specialize (Htop f Hf).
           unfold ranks_first in Htop. lia.
        -- intros Hnd. apply (Permutation_NoDup Hperm) in Hnd.
           now inversion Hnd.
Qed.

(** What the pass does for every match group, of [k] file locations: it
    contributes the [k - 1] locations ranked after the first in the
    descending order of byte size; the top-ranked location has the largest
    byte size of the group, and it is not among the [k - 1] when the
    locations of the group are pairwise distinct strings. *)
Lemma lower_quality_all_but_top (os : OS) (result : Dict.t _search.group) :
  (forall entry f, In entry result ->
     In f (_search.match_group (snd entry)) -> stat_size os f <> None) ->
  exists parts,
    _search._lower_quality os result = Some (concat parts) /\
    Forall2 (fun entry part =>
      exists top,
        _help._check_img_quality os (_search.match_group (snd entry)) =
          Some (top :: part) /\
        S (length part) = length (_search.match_group (snd entry)) /\
        (forall f, In f (_search.match_group (snd entry)) ->
           size_of os f <= size_of os top) /\
        (NoDup (_search.match_group (snd entry)) -> ~ In top part))
      result parts.
Proof.
  intros Hall. exact (lower_quality_from os result Hall []).
Qed.

Lemma lower_quality_all_but_top_witness :
  exists parts,
    _search._lower_quality sizes_os [(uuid4_value 1, abc_group)] =
      Some (concat parts) /\
    Forall2 (fun entry part =>
      exists top,
        _help._check_img_quality sizes_os (_search.match_group (snd entry)) =
          Some (top :: part) /\
        S (length part) = length (_search.match_group (snd entry)) /\
        (forall f, In f (_search.match_group (snd entry)) ->
           size_of sizes_os f <= size_of sizes_os top) /\
        (NoDup (_search.match_group (snd entry)) -> ~ In top part))
      [(uuid4_value 1, abc_group)] parts.
Proof.
  apply (lower_quality_all_but_top sizes_os [(uuid4_value 1, abc_group)]).
  intros entry f [<-|[]] Hf. simpl in Hf.
  destruct Hf as [<-|[<-|[<-|[]]]]; discriminate.
Defined.

(** C7: the top-ranked location of a group can be on the removal list.  The
    check of the directory list compares the strings it is given and lets
    the one directory [a] through under the two names [a] and [./a]; the
    scan then registers the one picture [a/x.jpg] twice, the search groups
    it with itself, the ranking of the group is [a/x.jpg] twice, and the
    removal list is [a/x.jpg]: the top-ranked location of the group, and the
    only copy of the picture. *)
Lemma lower_quality_lists_top_location :
  _validate._directory_unique ["a"; "./a"]%string = Some tt /\
  dif._run alias_os ["a"; "./a"]%string true (200 # 1) 10 true alias_uuids =
  Some ([(uuid4_value 2,
          {| _search.location := "a/x.jpg";
             _search.matches :=
               [(uuid4_value 4,
                 {| _search.m_location := "a/x.jpg";
                    _search.m_mse :=
                      _compute._mse (solid 10 [9; 9; 9])
                                    (solid 10 [9; 9; 9]) |})] |})],
        ["a/x.jpg"]%string, 2%nat, 1%nat, []) /\
  _help._check_img_quality alias_os ["a/x.jpg"; "a/x.jpg"]%string =
  Some ["a/x.jpg"; "a/x.jpg"]%string /\
  In "a/x.jpg"%string ["a/x.jpg"]%string.
Proof.
  split; [reflexivity|].
  split; [vm_compute; reflexivity|].
  split; [vm_compute; reflexivity|].
  now left.
Qed.

(** ** Dictionaries *)

Section DictFacts.
Context {V : Type}.
Implicit Types (d : Dict.t V) (k : Z) (v : V).

Lemma mem_keys k d : Dict.mem k d = true <-> In k (Dict.keys d).
Proof.
  induction d as [|[k' v'] d IH]; simpl; [easy|].
  destruct (Z.eqb_spec k k') as [->|Hne]; [tauto|].
  rewrite IH. split; [auto | intros [H|H]; congruence].
Qed.

Lemma mem_get k d : Dict.mem k d = true <-> Dict.get k d <> None.
Proof.
  induction d as [|[k' v'] d IH]; simpl; [easy|].
  destruct (Z.eqb k k'); [easy | exact IH].
Qed.

Lemma get_In k v d : Dict.get k d = Some v -> In (k, v) d.
Proof.
  induction d as [|[k' v'] d IH]; simpl; [discriminate|].
  destruct (Z.eqb_spec k k') as [->|Hne]; [|auto].
  intros H; injection H as ->. now left.
Qed.

Lemma In_get k v d : NoDup (Dict.keys d) -> In (k, v) d -> Dict.get k d = Some v.
Proof.
  induction d as [|[k' v'] d IH]; simpl; intros Hnd Hin; [easy|].
  inversion Hnd as [|? ? Hk' Hnd']; subst.
  destruct Hin as [Heq|Hin].
  - injection Heq as -> ->. now rewrite Z.eqb_refl.
  - destruct (Z.eqb_spec k k') as [->|Hne]; [|auto].
    exfalso. apply Hk'. unfold Dict.keys. apply in_map_iff.
    now exists (k', v).
Qed.

Lemma get_set_eq k v d : Dict.get k (Dict.set k v d) = Some v.
Proof.
  induction d as [|[k' v'] d IH]; simpl.
  - now rewrite Z.eqb_refl.
  - destruct (Z.eqb_spec k k') as [->|Hne]; simpl.
    + now rewrite Z.eqb_refl.
    + destruct (Z.eqb_spec k k'); [contradiction | exact IH].
Qed.

Lemma get_set_neq k k' v d :
  k' <> k -> Dict.get k' (Dict.set k v d) = Dict.get k' d.
Proof.
  intros Hne. induction d as [|[k0 v0] d IH]; simpl.
  - destruct (Z.eqb_spec k' k); [contradiction | reflexivity].
  - destruct (Z.eqb_spec k k0) as [->|Hk]; simpl.
    + destruct (Z.eqb_spec k' k0); [contradiction | reflexivity].
    + destruct (Z.eqb k' k0); [reflexivity | exact IH].
Qed.

Lemma mem_set k k' v d :
  Dict.mem k' (Dict.set k v d) = (Z.eqb k' k || Dict.mem k' d)%bool.
Proof.
  induction d as [|[k0 v0] d IH]; simpl.
  - now destruct (Z.eqb k' k).
  - destruct (Z.eqb_spec k k0) as [->|Hk]; simpl.
    + destruct (Z.eqb k' k0); reflexivity.
    + rewrite IH. destruct (Z.eqb k' k0), (Z.eqb k' k); reflexivity.
Qed.

Lemma keys_set k v d :
  Dict.keys (Dict.set k v d) =
  if Dict.mem k d then Dict.keys d else Dict.keys d ++ [k].
Proof.
  induction d as [|[k0 v0] d IH]; simpl; [reflexivity|].
  destruct (Z.eqb_spec k k0) as [->|Hk]; simpl; [reflexivity|].
  rewrite IH. now destruct (Dict.mem k d).
Qed.

Lemma length_set k v d :
  length (Dict.set k v d) =
  if Dict.mem k d then length d else S (length d).
Proof.
  induction d as [|[k0 v0] d IH]; simpl; [reflexivity|].
  destruct (Z.eqb_spec k k0) as [->|Hk]; simpl; [reflexivity|].
  rewrite IH. now destruct (Dict.mem k d).
Qed.

Lemma set_fresh k v d : Dict.mem k d = false -> Dict.set k v d = d ++ [(k, v)].
Proof.
  induction d as [|[k0 v0] d IH]; simpl; [reflexivity|].
  destruct (Z.eqb k k0); [discriminate|]. intros H. now rewrite IH.
Qed.

Lemma NoDup_keys_set k v d :
  NoDup (Dict.keys d) -> NoDup (Dict.keys (Dict.set k v d)).
Proof.
  intros Hnd. rewrite keys_set. destruct (Dict.mem k d) eqn:Hm; [exact Hnd|].
  apply NoDup_app; [assumption | repeat constructor; easy |].
  intros a Ha [<-|[]]. apply mem_keys in Ha. congruence.
Qed.

Lemma get_pop_neq k k' d :
  k' <> k -> Dict.get k' (Dict.pop k d) = Dict.get k' d.
Proof.
  intros Hne. induction d as [|[k0 v0] d IH]; simpl; [reflexivity|].
  destruct (Z.eqb_spec k k0) as [->|Hk]; simpl.
  - destruct (Z.eqb_spec k' k0); [contradiction | reflexivity].
  - destruct (Z.eqb k' k0); [reflexivity | exact IH].
Qed.

Lemma keys_pop_incl k d : incl (Dict.keys (Dict.pop k d)) (Dict.keys d).
Proof.
  induction d as [|[k0 v0] d IH]; simpl; [easy|].
  destruct (Z.eqb k k0); simpl.
  - apply incl_tl, incl_refl.
  - intros a [<-|Ha]; [now left | right; now apply IH].
Qed.

Lemma NoDup_keys_pop k d :
  NoDup (Dict.keys d) -> NoDup (Dict.keys (Dict.pop k d)).
Proof.
  induction d as [|[k0 v0] d IH]; simpl; intros Hnd; [constructor|].
  inversion Hnd as [|? ? Hk0 Hnd']; subst.
  destruct (Z.eqb k k0); simpl; [assumption|].
  constructor; [|auto]. intros Hin. apply Hk0. now apply (keys_pop_incl k d).
Qed.

Lemma get_pop_eq k d :
  NoDup (Dict.keys d) -> Dict.get k (Dict.pop k d) = None.
Proof.
  induction d as [|[k0 v0] d IH]; simpl; intros Hnd; [reflexivity|].
  inversion Hnd as [|? ? Hk0 Hnd']; subst.
  destruct (Z.eqb_spec k k0) as [->|Hk]; simpl.
  - destruct (Dict.get k0 d) eqn:Hg; [|reflexivity].
    exfalso. apply Hk0. apply mem_keys, mem_get. congruence.
  - destruct (Z.eqb_spec k k0); [contradiction | auto].
Qed.

End DictFacts.

Lemma list_mem_In (x : Z) (l : list Z) : list_mem x l = true <-> In x l.
Proof.
  unfold list_mem. rewrite existsb_exists. split.
  - intros [y [Hy Heq]]. apply Z.eqb_eq in Heq. now subst.
  - intros H. exists x. split; [assumption | apply Z.eqb_refl].
Qed.

(** ** Preprocessing *)

Lemma imgs_fold_invalid (os : OS) (px_size : Z) :
  forall (l : list (Z * string)) imgs0 inv0 imgs inv,
    fold_left (_compute.imgs_step os px_size) l (imgs0, inv0) = (imgs, inv) ->
    forall id,
      In id inv <->
      In id inv0 \/
      exists file, In (id, file) l /\ isdir os file = false /\
                   image_load os file px_size = None.
Proof.
  induction l as [|[id0 file0] l IH]; intros imgs0 inv0 imgs inv H id.
  - simpl in H. injection H as <- <-. split; [auto|].
    intros [H|[file [[] _]]]; exact H.
  - simpl in H.
    destruct (isdir os file0) eqn:Hdir.
    + rewrite (IH _ _ _ _ H id). split.
      * intros [Hi|[file [Hin Hf]]]; [now left|].
        right. exists file. split; [now right | exact Hf].
      * intros [Hi|[file [[Heq|Hin] Hf]]]; [now left | |].
        -- injection Heq as -> ->. destruct Hf. congruence.
        -- right. now exists file.
    + destruct (image_load os file0 px_size) as [img|] eqn:Hload.
      * rewrite (IH _ _ _ _ H id). split.
        -- intros [Hi|[file [Hin Hf]]]; [now left|].
           right. exists file. split; [now right | exact Hf].
        -- intros [Hi|[file [[Heq|Hin] Hf]]]; [now left | |].
           ++ injection Heq as -> ->. destruct Hf. congruence.
           ++ right. now exists file.
      * rewrite (IH _ _ _ _ H id). rewrite in_app_iff. simpl. split.
        -- intros [[Hi|[<-|[]]]|[file [Hin Hf]]].
           ++ now left.
           ++ right. exists file0. split; [now left | auto].
           ++ right. exists file. split; [now right | exact Hf].
        -- intros [Hi|[file [[Heq|Hin] Hf]]].
           ++ left. now left.
           ++ injection Heq as -> ->. left. right. now left.
           ++ right. now exists file.
Qed.

Lemma imgs_fold_valid (os : OS) (px_size : Z) :
  forall (l : list (Z * string)) imgs0 inv0 imgs inv,
    fold_left (_compute.imgs_step os px_size) l (imgs0, inv0) = (imgs, inv) ->
    forall id,
      Dict.mem id imgs = true <->
      Dict.mem id imgs0 = true \/
      exists file, In (id, file) l /\ isdir os file = false /\
                   image_load os file px_size <> None.
Proof.
  induction l as [|[id0 file0] l IH]; intros imgs0 inv0 imgs inv H id.
  - simpl in H. injection H as <- <-. split; [auto|].
    intros [H|[file [[] _]]]; exact H.
  - simpl in H.
    destruct (isdir os file0) eqn:Hdir.
    + rewrite (IH _ _ _ _ H id). split.
      * intros [Hi|[file [Hin Hf]]]; [now left|].
        right. exists file. split; [now right | exact Hf].
      * intros [Hi|[file [[Heq|Hin] Hf]]]; [now left | |].
        -- injection Heq as -> ->. destruct Hf. congruence.
        -- right. now exists file.
    + destruct (image_load os file0 px_size) as [img|] eqn:Hload.
      * rewrite (IH _ _ _ _ H id). rewrite mem_set. split.
        -- intros [Hi|[file [Hin Hf]]].
           ++ apply orb_true_iff in Hi. destruct Hi as [Hi|Hi]; [|now left].
              apply Z.eqb_eq in Hi. subst id0. right. exists file0.
              split; [now left|]. split; congruence.
           ++ right. exists file. split; [now right | exact Hf].
        -- intros [Hi|[file [[Heq|Hin] Hf]]].
           ++ left. rewrite Hi. apply orb_true_r.
           ++ injection Heq as -> ->. left. now rewrite Z.eqb_refl.
           ++ right. now exists file.
      * rewrite (IH _ _ _ _ H id). split.
        -- intros [Hi|[file [Hin Hf]]]; [now left|].
           right. exists file. split; [now right | exact Hf].
        -- intros [Hi|[file [[Heq|Hin] Hf]]]; [now left | |].
           ++ injection Heq as -> ->. destruct Hf. congruence.
           ++ right. now exists file.
Qed.

Lemma get_none_pops (id : Z) (invalid : list Z) :
  forall reg : registry,
    Dict.get id reg = None ->
    Dict.get id (fold_left (fun r i => Dict.pop i r) invalid reg) = None.
Proof.
  induction invalid as [|x invalid IH]; intros reg Hg; simpl; [exact Hg|].
  apply IH. destruct (Z.eq_dec id x) as [->|Hne].
  - clear IH. induction reg as [|[k v] reg IHr]; simpl in *; [reflexivity|].
    destruct (Z.eqb x k) eqn:Hxk; [discriminate|]. simpl.
    rewrite Hxk. auto.
  - now rewrite get_pop_neq.
Qed.

Lemma get_pops (id : Z) (invalid : list Z) :
  forall reg : registry,
    NoDup (Dict.keys reg) ->
    Dict.get id (fold_left (fun r i => Dict.pop i r) invalid reg) =
    if list_mem id invalid then None else Dict.get id reg.
Proof.
  induction invalid as [|x invalid IH]; intros reg Hnd; simpl; [reflexivity|].
  destruct (Z.eqb_spec id x) as [->|Hne]; simpl.
  - apply get_none_pops. now apply get_pop_eq.
  - rewrite IH by now apply NoDup_keys_pop.
    now rewrite get_pop_neq.
Qed.

(** C3 (as amended): an entry whose location is a directory is passed over:
    it yields no matrix, it is not recorded among the invalid files, and it
    stays in the registry; an entry that is no directory and fails to decode
    is recorded among the invalid files and removed from the registry. *)
Theorem directories_are_passed_over (os : OS) (id_by_location : registry)
  (px_size : Z) (id : Z) (file : string)
  (imgs_matrices : Dict.t matrix) (invalid_files : list Z) (reg' : registry) :
  NoDup (Dict.keys id_by_location) ->
  In (id, file) id_by_location ->
  _compute._imgs_matrices os id_by_location px_size =
    (imgs_matrices, invalid_files, reg') ->
  (isdir os file = true ->
     ~ In id invalid_files /\ Dict.get id imgs_matrices = None /\
     Dict.get id reg' = Some file) /\
  (isdir os file = false -> image_load os file px_size = None ->
     In id invalid_files /\ Dict.get id imgs_matrices = None /\
     Dict.get id reg' = None).
Proof.
  intros Hnd Hin Hrun. unfold _compute._imgs_matrices in Hrun.
  destruct (fold_left (_compute.imgs_step os px_size) id_by_location ([], []))
    as [imgs inv] eqn:Hfold.
  injection Hrun as <- <- <-.
  pose proof (imgs_fold_invalid os px_size _ _ _ _ _ Hfold id) as Hinv.
  pose proof (imgs_fold_valid os px_size _ _ _ _ _ Hfold id) as Hval.
  assert (Huniq : forall file', In (id, file') id_by_location -> file' = file).
  { intros file' Hin'. apply (In_get _ _ _ Hnd) in Hin'.
    apply (In_get _ _ _ Hnd) in Hin. congruence. }
  assert (Hnomem : forall b, Dict.mem id imgs = b -> b <> true ->
                             Dict.get id imgs = None).
  { intros b Hb Hne. destruct (Dict.get id imgs) eqn:Hg; [|reflexivity].
    exfalso. apply Hne. rewrite <- Hb. apply mem_get. congruence. }
  rewrite get_pops by assumption. split.
  - intros Hdir.
    assert (Hnot : ~ In id inv).
    { rewrite Hinv. intros [[]|[file' [Hin' [Hd _]]]].
      apply Huniq in Hin'. subst file'. congruence. }
    split; [exact Hnot|]. split.
    + apply (Hnomem _ eq_refl). rewrite Hval.
      intros [Hm|[file' [Hin' [Hd _]]]]; [discriminate|].
      apply Huniq in Hin'. subst file'. congruence.
    + destruct (list_mem id inv) eqn:Hm.
      * apply list_mem_In in Hm. contradiction.
      * now apply In_get.
  - intros Hdir Hload.
    assert (Hyes : In id inv).
    { rewrite Hinv. right. now exists file. }
    split; [exact Hyes|]. split.
    + apply (Hnomem _ eq_refl). rewrite Hval.
      intros [Hm|[file' [Hin' [_ Hl]]]]; [discriminate|].
      apply Huniq in Hin'. subst file'. congruence.
    + apply list_mem_In in Hyes. now rewrite Hyes.
Qed.

Lemma directories_are_passed_over_witness :
  (isdir mixed_os "pics/" = true ->
     ~ In (uuid4_value 1) [uuid4_value 3] /\
     Dict.get (uuid4_value 1) [(uuid4_value 2, solid 10 [9; 9; 9])] = None /\
     Dict.get (uuid4_value 1)
       [(uuid4_value 1, "pics/"%string); (uuid4_value 2, "pics/a.jpg"%string)]
     = Some "pics/"%string) /\
  (isdir mixed_os "pics/" = false ->
   image_load mixed_os "pics/" 10 = None ->
     In (uuid4_value 1) [uuid4_value 3] /\
     Dict.get (uuid4_value 1) [(uuid4_value 2, solid 10 [9; 9; 9])] = None /\
     Dict.get (uuid4_value 1)
       [(uuid4_value 1, "pics/"%string); (uuid4_value 2, "pics/a.jpg"%string)]
     = None).
Proof.
  apply (directories_are_passed_over mixed_os mixed_registry 10
           (uuid4_value 1) "pics/").
  - solve_nodup.
  - now left.
  - vm_compute. reflexivity.
Defined.

(** C3, as first stated, fails: the directory entry is neither counted as
    invalid nor removed from the registry, unlike the unreadable file next
    to it. *)
Lemma directory_entry_not_invalid :
  isdir mixed_os "pics/" = true /\
  _compute._imgs_matrices mixed_os mixed_registry 10 =
    ([(uuid4_value 2, solid 10 [9; 9; 9])],
     [uuid4_value 3],
     [(uuid4_value 1, "pics/"%string); (uuid4_value 2, "pics/a.jpg"%string)])
  /\ ~ In (uuid4_value 1) [uuid4_value 3]
  /\ In (uuid4_value 1, "pics/"%string)
        [(uuid4_value 1, "pics/"%string);
         (uuid4_value 2, "pics/a.jpg"%string)].
Proof.
  split; [reflexivity|]. split; [vm_compute; reflexivity|].
  split; [vm_compute; intuition discriminate | now left].
Qed.

(** ** The registry *)

Lemma fresh_id_not_in (img_ids uuids rest : list Z) (img_id : Z) :
  _compute.fresh_id img_ids uuids = Some (img_id, rest) -> ~ In img_id img_ids.
Proof.
  induction uuids as [|u uuids IH]; simpl; [discriminate|].
  destruct (list_mem u img_ids) eqn:Hm; [exact IH|].
  intros H; injection H as <- <-. rewrite <- list_mem_In. congruence.
Qed.

Lemma draw_ids_distinct (n : nat) :
  forall img_ids uuids ids rest,
    _compute.draw_ids n img_ids uuids = Some (ids, rest) ->
    NoDup img_ids ->
    NoDup ids /\ length ids = (length img_ids + n)%nat.
Proof.
  induction n as [|n IH]; intros img_ids uuids ids rest H Hnd; simpl in H.
  - injection H as <- <-. split; [assumption | lia].
  - destruct (_compute.fresh_id img_ids uuids) as [[u uuids']|] eqn:Hf;
      [|discriminate].
    apply fresh_id_not_in in Hf.
    destruct (IH _ _ _ _ H) as [Hids Hlen].
    + apply NoDup_app; [assumption | repeat constructor; easy |].
      intros a Ha [<-|[]]. contradiction.
    + split; [assumption|]. rewrite Hlen, length_app. simpl. lia.
Qed.

Lemma update_fresh {V : Type} (e : list (Z * V)) :
  forall d : Dict.t V,
    NoDup (Dict.keys e) ->
    (forall k, In k (Dict.keys e) -> ~ In k (Dict.keys d)) ->
    Dict.update d e = d ++ e.
Proof.
  unfold Dict.update.
  induction e as [|[k v] e IH]; intros d Hnd Hdisj; simpl.
  - now rewrite app_nil_r.
  - inversion Hnd as [|? ? Hk Hnd']; subst.
    rewrite set_fresh.
    + rewrite IH; [now rewrite <- app_assoc | assumption |].
      intros k' Hk'. unfold Dict.keys. rewrite map_app, in_app_iff. simpl.
      intros [Hin|[<-|[]]]; [|contradiction].
      apply (Hdisj k'); [now right | exact Hin].
    + destruct (Dict.mem k d) eqn:Hm; [|reflexivity].
      apply mem_keys in Hm. exfalso. apply (Hdisj k); [now left | exact Hm].
Qed.

(** Within one batch the ids are pairwise distinct, one per location, in the
    order of the listing. *)
Lemma batch_ids_distinct (directory_files : list string) (uuids rest : list Z)
  (reg : registry) :
  _compute._id_by_location directory_files None uuids = Some (reg, rest) ->
  NoDup (Dict.keys reg) /\ map snd reg = directory_files.
Proof.
  unfold _compute._id_by_location. intros H.
  destruct (_compute.draw_ids (length directory_files) [] uuids)
    as [[ids uuids']|] eqn:Hd; [|discriminate].
  injection H as <- <-.
  destruct (draw_ids_distinct _ _ _ _ _ Hd (NoDup_nil Z)) as [Hnd Hlen].
  simpl in Hlen. unfold Dict.of_pairs.
  assert (Hkeys : Dict.keys (combine ids directory_files) = ids).
  { unfold Dict.keys. clear Hd Hnd. revert directory_files Hlen.
    induction ids as [|i ids IH]; intros [|f fs] Hlen; simpl in *;
      try discriminate; [reflexivity|].
    f_equal. apply IH. lia. }
  rewrite update_fresh; [| now rewrite Hkeys | intros k _ []].
  simpl. split; [now rewrite Hkeys|].
  clear Hd Hnd Hkeys. revert directory_files Hlen.
  induction ids as [|i ids IH]; intros [|f fs] Hlen; simpl in *;
    try discriminate; [reflexivity|].
  f_equal. apply IH. lia.
Qed.

Lemma NoDup_app_disjoint {A : Type} (l l' : list A) (x : A) :
  NoDup (l ++ l') -> In x l -> In x l' -> False.
Proof.
  induction l as [|y l IH]; simpl; intros Hnd Hl Hl'; [easy|].
  inversion Hnd as [|? ? Hy Hnd']; subst.
  destruct Hl as [->|Hl]; [|auto].
  apply Hy, in_app_iff. now right.
Qed.

Lemma draw_ids_no_repeat (n : nat) :
  forall img_ids uuids ids rest,
    NoDup (img_ids ++ uuids) ->
    _compute.draw_ids n img_ids uuids = Some (ids, rest) ->
    exists fresh, ids = img_ids ++ fresh /\ uuids = fresh ++ rest /\
                  length fresh = n.
Proof.
  induction n as [|n IH]; intros img_ids uuids ids rest Hnd H; simpl in H.
  - injection H as <- <-. exists []. now rewrite app_nil_r.
  - destruct uuids as [|u uuids]; simpl in H; [discriminate|].
    assert (Hu : list_mem u img_ids = false).
    { destruct (list_mem u img_ids) eqn:Hm; [|reflexivity].
      apply list_mem_In in Hm. apply NoDup_remove_2 in Hnd.
      exfalso. apply Hnd, in_app_iff. now left. }
    rewrite Hu in H.
    destruct (IH (img_ids ++ [u]) uuids ids rest) as [fresh [-> [-> Hlen]]].
    + now rewrite <- app_assoc.
    + exact H.
    + exists (u :: fresh). rewrite <- app_assoc. simpl. auto.
Qed.

Lemma keys_combine (ids : list Z) (files : list string) :
  length ids = length files -> Dict.keys (combine ids files) = ids.
Proof.
  unfold Dict.keys. revert files.
  induction ids as [|i ids IH]; intros [|f fs] Hlen; simpl in *;
    try discriminate; [reflexivity|].
  f_equal. apply IH. lia.
Qed.

(** With a generator that never repeats a value, a call appends one entry
    per location under the next values of the generator. *)
Lemma id_by_location_no_repeat (directory_files : list string)
  (id_by_location : option registry) (uuids rest : list Z) (reg : registry) :
  let reg0 := match id_by_location with Some r => r | None => [] end in
  NoDup (Dict.keys reg0 ++ uuids) ->
  _compute._id_by_location directory_files id_by_location uuids
    = Some (reg, rest) ->
  exists ids, uuids = ids ++ rest /\
              length ids = length directory_files /\
              reg = reg0 ++ combine ids directory_files.
Proof.
  intros reg0 Hnd H. unfold _compute._id_by_location in H.
  destruct (_compute.draw_ids (length directory_files) [] uuids)
    as [[ids uuids']|] eqn:Hd; [|discriminate].
  destruct (draw_ids_no_repeat (length directory_files) [] uuids ids uuids')
    as [fresh [-> [-> Hlen]]];
    [exact (NoDup_app_remove_l _ _ Hnd) | exact Hd |].
  simpl in H. exists fresh.
  assert (Hkeys : Dict.keys (combine fresh directory_files) = fresh)
    by now apply keys_combine.
  assert (Hfresh : NoDup fresh).
  { apply NoDup_app_remove_l in Hnd. now apply NoDup_app_remove_r in Hnd. }
  assert (Hpairs : Dict.of_pairs (combine fresh directory_files) =
                   combine fresh directory_files).
  { unfold Dict.of_pairs. rewrite update_fresh; [reflexivity | |].
    - now rewrite Hkeys.
    - intros k _ []. }
  rewrite Hpairs in H.
  destruct id_by_location as [r|]; injection H as <- <-.
  - split; [reflexivity|]. split; [assumption|].
    apply update_fresh; [now rewrite Hkeys|].
    rewrite Hkeys. intros k Hk Hr. subst reg0.
    apply (NoDup_app_disjoint _ _ k Hnd Hr), in_app_iff. now left.
  - auto.
Qed.

Lemma later_dirs_no_repeat (os : OS) (recursive : bool)
  (directory : list string) :
  forall directory_files (reg : registry) uuids reg' rest,
    NoDup (Dict.keys reg ++ uuids) ->
    dif.later_dirs os recursive directory directory_files reg uuids
      = Some (reg', rest) ->
    exists used, uuids = used ++ rest /\ Dict.keys reg' = Dict.keys reg ++ used.
Proof.
  induction directory as [|dir directory IH];
    intros directory_files reg uuids reg' rest Hnd H; simpl in H.
  - injection H as <- <-. exists []. now rewrite app_nil_r.
  - destruct (dif.string_mem dir directory_files);
      [exact (IH _ _ _ _ _ Hnd H)|].
    destruct (_compute._id_by_location (list_all_files os dir recursive)
                (Some reg) uuids) as [[reg1 uuids1]|] eqn:Hcall; [|discriminate].
    destruct (id_by_location_no_repeat _ (Some reg) _ _ _ Hnd Hcall)
      as [ids [-> [Hlen ->]]].
    assert (Hkeys : Dict.keys (reg ++ combine ids
                                 (list_all_files os dir recursive)) =
                    Dict.keys reg ++ ids).
    { unfold Dict.keys. rewrite map_app. f_equal. now apply keys_combine. }
    assert (Hnd1 : NoDup (Dict.keys (reg ++ combine ids
                                       (list_all_files os dir recursive))
                          ++ uuids1))
      by (rewrite Hkeys, <- app_assoc; exact Hnd).
    destruct (IH _ _ _ _ _ Hnd1 H) as [used [-> Hk]].
    exists (ids ++ used). rewrite Hk, Hkeys, <- !app_assoc. auto.
Qed.

(** With a generator that never repeats a value the keys of the registry a
    scan returns are the values the generator returned, in order. *)
Lemma scan_no_repeat (os : OS) (recursive : bool) (directory : list string)
  (uuids rest : list Z) (reg : registry) :
  NoDup uuids ->
  dif.scan os recursive directory uuids = Some (reg, rest) ->
  NoDup (Dict.keys reg) /\ uuids = Dict.keys reg ++ rest.
Proof.
  intros Hnd H. unfold dif.scan in H.
  destruct directory as [|dir directory]; [discriminate|].
  destruct (_compute._id_by_location (list_all_files os dir recursive)
              None uuids) as [[reg1 uuids1]|] eqn:Hcall; [|discriminate].
  destruct (id_by_location_no_repeat _ None _ _ _ Hnd Hcall)
    as [ids [-> [Hlen Hreg]]].
  simpl in Hreg. subst reg1.
  assert (Hkeys : Dict.keys (combine ids (list_all_files os dir recursive))
                  = ids) by now apply keys_combine.
  assert (Hnd1 : NoDup (Dict.keys (combine ids
                                     (list_all_files os dir recursive))
                        ++ uuids1))
    by (rewrite Hkeys; exact Hnd).
  destruct (later_dirs_no_repeat os recursive directory _ _ _ _ _ Hnd1 H)
    as [used [-> Hk]].
  rewrite Hk, Hkeys. split; [|now rewrite app_assoc].
  rewrite app_assoc in Hnd. now apply NoDup_app_remove_r in Hnd.
Qed.

(** C9 fails on the code: a later batch checks its fresh ids against the ids
    of its own batch only.  When the generator returns in the second batch
    the value it gave to [a/x.jpg] in the first, the entry of [a/x.jpg] is
    overwritten by [b/y.jpg]: four locations, three entries. *)
Theorem later_batch_overwrites_entry :
  dif.scan two_dirs_os true ["a"; "b"]%string repeating_uuids =
  Some ([(uuid4_value 1, "a/"%string); (uuid4_value 2, "b/y.jpg"%string);
         (uuid4_value 3, "b/"%string)], []).
Proof. vm_compute. reflexivity. Qed.

(** ** Loops that may raise *)

Lemma foldM_enumerate_from {A S : Type} (f : S -> nat * A -> option S)
  (P : nat -> S -> Prop) (l : list A) :
  (forall i x s s', nth_error l i = Some x -> P i s ->
                    f s (i, x) = Some s' -> P (Datatypes.S i) s') ->
  forall (suf pre : list A) (s s' : S),
    l = pre ++ suf -> P (length pre) s ->
    foldM f (combine (seq (length pre) (length suf)) suf) s = Some s' ->
    P (length l) s'.
Proof.
  intros Hstep. induction suf as [|x suf IH]; intros pre s s' Hl HP Hfold.
  - simpl in Hfold. injection Hfold as <-. subst l.
    now rewrite app_nil_r.
  - simpl in Hfold. destruct (f s (length pre, x)) as [s1|] eqn:Hf;
      [|discriminate].
    apply (IH (pre ++ [x]) s1 s').
    + subst l. now rewrite <- app_assoc.
    + rewrite length_app. simpl. rewrite Nat.add_1_r.
      apply (Hstep (length pre) x s s1); auto.
      subst l. rewrite nth_error_app2 by lia. now rewrite Nat.sub_diag.
    + rewrite length_app. simpl. rewrite Nat.add_1_r. exact Hfold.
Qed.

(** An invariant of the loop body, indexed by the position in the
    enumeration, holds when the loop ends. *)
Lemma foldM_enumerate_inv {A S : Type} (f : S -> nat * A -> option S)
  (P : nat -> S -> Prop) (l : list A) (s0 s : S) :
  P O s0 ->
  (forall i x s s', nth_error l i = Some x -> P i s ->
                    f s (i, x) = Some s' -> P (Datatypes.S i) s') ->
  foldM f (enumerate l) s0 = Some s ->
  P (length l) s.
Proof.
  intros H0 Hstep Hfold.
  exact (foldM_enumerate_from f P l Hstep l [] s0 s eq_refl H0 Hfold).
Qed.

(** A loop whose body never raises under the invariant does not raise. *)
Lemma foldM_enumerate_total {A S : Type} (f : S -> nat * A -> option S)
  (P : nat -> S -> Prop) (l : list A) (s0 : S) :
  P O s0 ->
  (forall i x s, nth_error l i = Some x -> P i s ->
                 exists s', f s (i, x) = Some s' /\ P (Datatypes.S i) s') ->
  exists s, foldM f (enumerate l) s0 = Some s /\ P (length l) s.
Proof.
  intros H0 Hstep. unfold enumerate.
  assert (Hgen : forall (suf pre : list A) (s : S),
             l = pre ++ suf -> P (length pre) s ->
             exists s',
               foldM f (combine (seq (length pre) (length suf)) suf) s
                 = Some s' /\ P (length l) s').
  { induction suf as [|x suf IH]; intros pre s Hl HP.
    - exists s. simpl. split; [reflexivity|]. subst l.
      now rewrite app_nil_r.
    - simpl.
      destruct (Hstep (length pre) x s) as [s1 [Hf HP1]]; auto.
      { subst l. rewrite nth_error_app2 by lia. now rewrite Nat.sub_diag. }
      rewrite Hf.
      destruct (IH (pre ++ [x]) s1) as [s' [Hfold HP']].
      + subst l. now rewrite <- app_assoc.
      + rewrite length_app. simpl. now rewrite Nat.add_1_r.
      + exists s'. split; [|exact HP'].
        rewrite length_app in Hfold. simpl in Hfold.
        now rewrite Nat.add_1_r in Hfold. }
  exact (Hgen l [] s0 eq_refl H0).
Qed.

(** ** One accepted match *)

Lemma attach_eq (id_A id_B : Z) (info : _search.match_info)
  (result : Dict.t _search.group) :
  _search.attach id_A id_B info result =
  (map (attach_entry id_A id_B info) result,
   existsb (fun e => Dict.mem id_A (_search.matches (snd e))) result).
Proof.
  induction result as [|[key g] result IH]; simpl; [reflexivity|].
  rewrite IH. unfold attach_entry. simpl.
  destruct (Dict.mem id_A (_search.matches g)); reflexivity.
Qed.

Lemma is_member_existsb (id_A : Z) (result : Dict.t _search.group) :
  existsb (fun e => Dict.mem id_A (_search.matches (snd e))) result = true
  <-> is_member id_A result.
Proof.
  rewrite existsb_exists. split.
  - intros [[K g] [Hin Hm]]. exists K, g. auto.
  - intros [K [g [Hin Hm]]]. exists (K, g). auto.
Qed.

Lemma attach_nothing (id_A id_B : Z) (info : _search.match_info)
  (result : Dict.t _search.group) :
  ~ is_member id_A result ->
  map (attach_entry id_A id_B info) result = result.
Proof.
  intros Hno. rewrite <- (map_id result) at 2. apply map_ext_in.
  intros [K g] Hin. unfold attach_entry. simpl.
  destruct (Dict.mem id_A (_search.matches g)) eqn:Hm; [|reflexivity].
  exfalso. apply Hno. exists K, g. auto.
Qed.

Lemma keys_attach (id_A id_B : Z) (info : _search.match_info)
  (result : Dict.t _search.group) :
  Dict.keys (map (attach_entry id_A id_B info) result) = Dict.keys result.
Proof.
  unfold Dict.keys. rewrite map_map. apply map_ext.
  intros [K g]. unfold attach_entry. simpl.
  now destruct (Dict.mem id_A (_search.matches g)).
Qed.

Lemma keys_add_to_group (id_A id_B : Z) (info : _search.match_info)
  (result : Dict.t _search.group) :
  Dict.keys (_search.add_to_group id_A id_B info result) = Dict.keys result.
Proof.
  induction result as [|[K g] result IH]; simpl; [reflexivity|].
  destruct (Z.eqb id_A K); simpl; [reflexivity | now rewrite IH].
Qed.

Lemma add_to_group_In (id_A id_B : Z) (info : _search.match_info)
  (result : Dict.t _search.group) (K : Z) (g' : _search.group) :
  NoDup (Dict.keys result) ->
  (In (K, g') (_search.add_to_group id_A id_B info result) <->
   exists g, In (K, g) result /\
             g' = if Z.eqb K id_A then _search.set_match id_B info g else g).
Proof.
  induction result as [|[K0 g0] result IH]; intros Hnd; simpl.
  - split; [easy | intros [g [[] _]]].
  - inversion Hnd as [|? ? HK0 Hnd']; subst.
    destruct (Z.eqb_spec id_A K0) as [->|Hne]; simpl.
    + split.
      * intros [Heq|Hin].
        -- injection Heq as <- <-. exists g0. rewrite Z.eqb_refl. auto.
        -- exists g'. split; [now right|].
           destruct (Z.eqb_spec K K0) as [->|]; [|reflexivity].
           exfalso. apply HK0. unfold Dict.keys. apply in_map_iff.
           now exists (K0, g').
      * intros [g [[Heq|Hin] ->]].
        -- injection Heq as <- <-. rewrite Z.eqb_refl. now left.
        -- right. destruct (Z.eqb_spec K K0) as [->|]; [|assumption].
           exfalso. apply HK0. unfold Dict.keys. apply in_map_iff.
           now exists (K0, g).
    + rewrite (IH Hnd'). split.
      * intros [Heq|[g [Hin ->]]].
        -- injection Heq as <- <-. exists g0. split; [now left|].
           destruct (Z.eqb_spec K0 id_A); [congruence | reflexivity].
        -- exists g. auto.
      * intros [g [[Heq|Hin] ->]].
        -- injection Heq as <- <-. left.
           destruct (Z.eqb_spec K0 id_A); [congruence | reflexivity].
        -- right. exists g. auto.
Qed.

(** The three ways an accepted match changes the state. *)
Lemma on_match_cases (os : OS) (reg : registry) (fast : bool)
  (id_A id_B : Z) (mse : Float64.t) (st st' : _search.state) :
  _search.on_match os reg fast id_A id_B mse st = Some st' ->
  exists file_B,
    Dict.get id_B reg = Some file_B /\
    _search.exclude_from_search st' =
      (if fast then _search.exclude_from_search st ++ [id_B]
       else _search.exclude_from_search st) /\
    let info := {| _search.m_location := path_str os file_B;
                   _search.m_mse := mse |} in
    let r := _search.result st in
    let r' := _search.result st' in
    (is_member id_A r /\ r' = map (attach_entry id_A id_B info) r) \/
    (~ is_member id_A r /\ Dict.mem id_A r = true /\
     r' = _search.add_to_group id_A id_B info r) \/
    (~ is_member id_A r /\ Dict.mem id_A r = false /\
     exists file_A, Dict.get id_A reg = Some file_A /\
                    r' = r ++ [(id_A, new_group os file_A id_B info)]).
Proof.
  unfold _search.on_match. intros H.
  destruct (Dict.get id_B reg) as [file_B|]; [|discriminate].
  exists file_B. split; [reflexivity|].
  rewrite attach_eq in H.
  destruct (existsb (fun e => Dict.mem id_A (_search.matches (snd e)))
              (_search.result st)) eqn:Hcheck.
  - injection H as <-. simpl. split; [reflexivity|]. left.
    split; [now apply is_member_existsb | reflexivity].
  - assert (Hno : ~ is_member id_A (_search.result st)).
    { rewrite <- is_member_existsb. congruence. }
    rewrite (attach_nothing _ _ _ _ Hno) in H.
    destruct (Dict.mem id_A (_search.result st)) eqn:Hkey.
    + injection H as <-. simpl. split; [reflexivity|]. right. left. auto.
    + destruct (Dict.get id_A reg) as [file_A|]; [|discriminate].
      injection H as <-. simpl. split; [reflexivity|]. right. right.
      repeat split; auto. exists file_A. split; [reflexivity|].
      now apply set_fresh.
Qed.

Lemma on_match_total (os : OS) (reg : registry) (fast : bool)
  (id_A id_B : Z) (mse : Float64.t) (st : _search.state) :
  Dict.get id_A reg <> None -> Dict.get id_B reg <> None ->
  exists st', _search.on_match os reg fast id_A id_B mse st = Some st'.
Proof.
  intros HA HB. unfold _search.on_match.
  destruct (Dict.get id_B reg) as [file_B|]; [|contradiction].
  destruct (_search.attach id_A id_B _ (_search.result st)) as [r1 check].
  destruct check; [eauto|].
  destruct (Dict.mem id_A r1); [eauto|].
  destruct (Dict.get id_A reg) as [file_A|]; [eauto | contradiction].
Qed.

Lemma mem_set_match (b id_B : Z) (info : _search.match_info)
  (g : _search.group) :
  Dict.mem b (_search.matches (_search.set_match id_B info g)) = true <->
  b = id_B \/ Dict.mem b (_search.matches g) = true.
Proof.
  unfold _search.set_match. simpl. rewrite mem_set, orb_true_iff, Z.eqb_eq.
  reflexivity.
Qed.

Lemma mem_key_In (K : Z) (result : Dict.t _search.group) :
  Dict.mem K result = true -> exists g, In (K, g) result.
Proof.
  intros H. apply mem_get in H.
  destruct (Dict.get K result) as [g|] eqn:Hg; [|contradiction].
  exists g. now apply get_In.
Qed.

(** What an accepted match does to the keys and to the membership. *)
Lemma on_match_effect (os : OS) (reg : registry) (fast : bool)
  (id_A id_B : Z) (mse : Float64.t) (st st' : _search.state) :
  NoDup (Dict.keys (_search.result st)) ->
  _search.on_match os reg fast id_A id_B mse st = Some st' ->
  NoDup (Dict.keys (_search.result st')) /\
  (forall K, In K (Dict.keys (_search.result st')) <->
             In K (Dict.keys (_search.result st)) \/
             (K = id_A /\ ~ is_member id_A (_search.result st))) /\
  (forall b K, in_group b K (_search.result st') <->
               in_group b K (_search.result st) \/
               (b = id_B /\ target id_A K (_search.result st))).
Proof.
  intros Hnd H.
  destruct (on_match_cases _ _ _ _ _ _ _ _ H) as [file_B [_ [_ Hcases]]].
  cbv zeta in Hcases.
  set (info := {| _search.m_location := path_str os file_B;
                  _search.m_mse := mse |}) in *.
  destruct Hcases as [[Hmem ->]|[[Hno [Hkey ->]]|[Hno [Hkey [file_A [_ ->]]]]]].
  - (* the anchor is a member of some groups *)
    rewrite keys_attach. split; [assumption|]. split; [tauto|].
    intros b K. unfold target. split.
    + intros [g' [Hin Hb]]. apply in_map_iff in Hin.
      destruct Hin as [[K0 g0] [Heq Hin]]. unfold attach_entry in Heq.
      simpl in Heq.
      destruct (Dict.mem id_A (_search.matches g0)) eqn:HA;
        injection Heq as <- <-.
      * apply mem_set_match in Hb. destruct Hb as [->|Hb].
        -- right. split; [reflexivity|]. left. now exists g0.
        -- left. now exists g0.
      * left. now exists g0.
    + intros [[g [Hin Hb]]|[-> [[g [Hin HA]]|[_ Hno]]]]; [| |contradiction].
      * exists (snd (attach_entry id_A id_B info (K, g))). split.
        -- apply in_map_iff. exists (K, g). split; [|assumption].
           unfold attach_entry. simpl.
           now destruct (Dict.mem id_A (_search.matches g)).
        -- unfold attach_entry. simpl.
           destruct (Dict.mem id_A (_search.matches g)); simpl; [|assumption].
           rewrite mem_set, Hb. apply orb_true_r.
      * exists (_search.set_match id_B info g). split.
        -- apply in_map_iff. exists (K, g). split; [|assumption].
           unfold attach_entry. simpl. now rewrite HA.
        -- apply mem_set_match. now left.
  - (* the anchor is the key of a group *)
    rewrite keys_add_to_group. split; [assumption|]. split.
    { intros K. split; [auto|].
      intros [HK|[-> _]]; [assumption | now apply mem_keys]. }
    intros b K. unfold target. split.
    + intros [g' [Hin Hb]]. apply (add_to_group_In _ _ _ _ _ _ Hnd) in Hin.
      destruct Hin as [g [Hin ->]].
      destruct (Z.eqb_spec K id_A) as [->|Hne]; [|left; now exists g].
      apply mem_set_match in Hb. destruct Hb as [->|Hb]; [|left; now exists g].
      right. auto.
    + intros [[g [Hin Hb]]|[-> [[g [Hin HA]]|[-> _]]]].
      * exists (if Z.eqb K id_A then _search.set_match id_B info g else g).
        split; [apply (add_to_group_In _ _ _ _ _ _ Hnd); now exists g|].
        destruct (Z.eqb K id_A); [|assumption].
        apply mem_set_match. now right.
      * exfalso. apply Hno. exists K, g. auto.
      * destruct (mem_key_In _ _ Hkey) as [g Hin].
        exists (_search.set_match id_B info g). split.
        -- apply (add_to_group_In _ _ _ _ _ _ Hnd). exists g.
           now rewrite Z.eqb_refl.
        -- apply mem_set_match. now left.
  - (* a new group *)
    assert (HnotA : ~ In id_A (Dict.keys (_search.result st))).
    { rewrite <- mem_keys. congruence. }
    unfold Dict.keys. rewrite map_app. simpl. split; [|split].
    + apply NoDup_app; [assumption | repeat constructor; easy |].
      intros a Ha [<-|[]]. contradiction.
    + intros K. rewrite in_app_iff. simpl. split.
      * intros [HK|[<-|[]]]; [now left | right; auto].
      * intros [HK|[-> _]]; [now left | right; now left].
    + intros b K. unfold target. split.
      * intros [g' [Hin Hb]]. apply in_app_iff in Hin.
        destruct Hin as [Hin|[Heq|[]]]; [left; now exists g'|].
        injection Heq as <- <-. simpl in Hb.
        destruct (Z.eqb_spec b id_B) as [Heq|Hne]; [|discriminate].
        right. auto.
      * intros [[g [Hin Hb]]|[-> [[g [Hin HA]]|[-> _]]]].
        -- exists g. split; [apply in_app_iff; now left | assumption].
        -- exfalso. apply Hno. exists K, g. auto.
        -- exists (new_group os file_A id_B info). split.
           ++ apply in_app_iff. right. now left.
           ++ simpl. now rewrite Z.eqb_refl.
Qed.

(** ** The search loops *)

Lemma nth_error_key (imgs : Dict.t matrix) (i : nat) (id : Z) (m : matrix) :
  nth_error imgs i = Some (id, m) -> In id (Dict.keys imgs).
Proof.
  intros H. apply nth_error_In in H. unfold Dict.keys.
  apply in_map_iff. now exists (id, m).
Qed.

Lemma inner_step_cases (os : OS) (reg : registry) (similarity : Q)
  (fast : bool) (a : nat) (id_A : Z) (matrix_A : matrix)
  (st st' : _search.state) (j : nat) (id_B : Z) (matrix_B : matrix) :
  _search.inner_step os reg similarity fast a id_A matrix_A st
    (j, (id_B, matrix_B)) = Some st' ->
  (st' = st /\
   (~ (a < j)%nat \/
    _search.match_rotations matrix_A matrix_B similarity = None)) \/
  ((a < j)%nat /\
   exists k B' s,
     _search.match_rotations matrix_A matrix_B similarity = Some (k, B', s) /\
     _search.on_match os reg fast id_A id_B s st = Some st').
Proof.
  unfold _search.inner_step. intros H.
  destruct (Nat.ltb_spec a j) as [Hlt|Hge].
  - destruct (_search.match_rotations matrix_A matrix_B similarity)
      as [[[k B'] s]|] eqn:Hm.
    + right. split; [assumption|]. now exists k, B', s.
    + injection H as <-. left. auto.
  - injection H as <-. left. split; [reflexivity|]. left. lia.
Qed.

Lemma target_exists (id_A : Z) (result : Dict.t _search.group) :
  exists K, target id_A K result.
Proof.
  unfold target.
  destruct (existsb (fun e => Dict.mem id_A (_search.matches (snd e))) result)
    eqn:He.
  - apply is_member_existsb in He. destruct He as [K HK]. exists K. now left.
  - exists id_A. right. split; [reflexivity|].
    rewrite <- is_member_existsb. congruence.
Qed.

Lemma inner_step_sound (os : OS) (reg : registry) (similarity : Q)
  (fast : bool) (imgs : Dict.t matrix) (a : nat) (id_A : Z)
  (matrix_A : matrix) (j : nat) (entry_B : Z * matrix)
  (st st' : _search.state) :
  nth_error imgs a = Some (id_A, matrix_A) ->
  nth_error imgs j = Some entry_B ->
  sound similarity imgs st ->
  _search.inner_step os reg similarity fast a id_A matrix_A st (j, entry_B)
    = Some st' ->
  sound similarity imgs st'.
Proof.
  intros Ha Hj [Hnd Hs] Hstep. destruct entry_B as [id_B matrix_B].
  apply inner_step_cases in Hstep.
  destruct Hstep as [[-> _]|[Hlt [k [B' [s [Hm Hon]]]]]]; [now split|].
  destruct (on_match_effect _ _ _ _ _ _ _ _ Hnd Hon) as [Hnd' [_ Hgrp]].
  split; [assumption|]. intros b [K HK]. apply Hgrp in HK.
  destruct HK as [HK|[-> _]]; [apply Hs; now exists K|].
  exists a, j. split; [assumption|]. split.
  - exists id_A, matrix_A, id_B, matrix_B. repeat split; auto. congruence.
  - unfold id_at. now rewrite Hj.
Qed.

Lemma outer_step_sound (os : OS) (reg : registry) (similarity : Q)
  (fast : bool) (imgs : Dict.t matrix) (a : nat) (entry_A : Z * matrix)
  (st st' : _search.state) :
  nth_error imgs a = Some entry_A ->
  sound similarity imgs st ->
  _search.outer_step os reg similarity fast imgs st (a, entry_A) = Some st' ->
  sound similarity imgs st'.
Proof.
  intros Ha Hs Hstep. destruct entry_A as [id_A matrix_A].
  unfold _search.outer_step in Hstep.
  destruct (list_mem id_A (_search.exclude_from_search st)).
  - now injection Hstep as <-.
  - refine (foldM_enumerate_inv _ (fun _ s => sound similarity imgs s)
              imgs st st' Hs _ Hstep).
    intros j x s s' Hj Hsound Hin.
    exact (inner_step_sound _ _ _ _ _ _ _ _ _ _ _ _ Ha Hj Hsound Hin).
Qed.

Lemma search_loop_sound (os : OS) (reg : registry) (similarity : Q)
  (fast : bool) (imgs : Dict.t matrix) (st : _search.state) :
  _search.search_loop os reg similarity fast imgs = Some st ->
  sound similarity imgs st.
Proof.
  intros H.
  refine (foldM_enumerate_inv _ (fun _ s => sound similarity imgs s)
            imgs _ st _ _ H).
  - split; [constructor|]. intros b [K [g [[] _]]].
  - intros a x s s' Ha Hs Hstep.
    exact (outer_step_sound _ _ _ _ _ _ _ _ _ Ha Hs Hstep).
Qed.

Lemma search_loop_total (os : OS) (reg : registry) (similarity : Q)
  (fast : bool) (imgs : Dict.t matrix) :
  covers reg imgs ->
  exists st, _search.search_loop os reg similarity fast imgs = Some st.
Proof.
  intros Hcov.
  destruct (foldM_enumerate_total
              (_search.outer_step os reg similarity fast imgs)
              (fun _ _ => True) imgs
              {| _search.result := []; _search.exclude_from_search := [] |} I)
    as [st [Hst _]]; [|now exists st].
  intros a [id_A matrix_A] s Ha _. unfold _search.outer_step.
  destruct (list_mem id_A (_search.exclude_from_search s)); [eauto|].
  destruct (foldM_enumerate_total
              (_search.inner_step os reg similarity fast a id_A matrix_A)
              (fun _ _ => True) imgs s I) as [s' [Hs' _]]; [|eauto].
  intros j [id_B matrix_B] s0 Hj _. unfold _search.inner_step.
  destruct (a <? j)%nat; [|eauto].
  destruct (_search.match_rotations matrix_A matrix_B similarity)
    as [[[k B'] mse]|]; [|eauto].
  destruct (on_match_total os reg fast id_A id_B mse s0) as [s1 Hs1].
  - apply Hcov. exact (nth_error_key _ _ _ _ Ha).
  - apply Hcov. exact (nth_error_key _ _ _ _ Hj).
  - eauto.
Qed.

Lemma inner_step_complete (os : OS) (reg : registry) (similarity : Q)
  (imgs : Dict.t matrix) (a : nat) (id_A : Z) (matrix_A : matrix) (j : nat)
  (entry_B : Z * matrix) (st st' : _search.state) :
  nth_error imgs a = Some (id_A, matrix_A) ->
  nth_error imgs j = Some entry_B ->
  complete similarity imgs a j st ->
  _search.inner_step os reg similarity false a id_A matrix_A st (j, entry_B)
    = Some st' ->
  complete similarity imgs a (S j) st'.
Proof.
  intros Ha Hj (Hex & Hnd & Hc) Hstep. destruct entry_B as [id_B matrix_B].
  apply inner_step_cases in Hstep.
  destruct Hstep as [[-> Hskip]|[Hlt [k [B' [s [Hm Hon]]]]]].
  - split; [assumption|]. split; [assumption|].
    intros i' j' Hpos Hij Hhit b Hb.
    destruct (Nat.eq_dec j' j) as [->|Hne];
      [destruct (Nat.eq_dec i' a) as [->|Hne']|].
    + exfalso. destruct Hhit as (x & mx & y & my & Hx & Hy & Hxy).
      rewrite Ha in Hx. rewrite Hj in Hy.
      injection Hx as <- <-. injection Hy as <- <-.
      destruct Hskip as [Hskip|Hskip]; [lia | contradiction].
    + apply (Hc i' j); auto. lia.
    + apply (Hc i' j'); auto. lia.
  - destruct (on_match_cases _ _ _ _ _ _ _ _ Hon) as [_ [_ [Hex' _]]].
    destruct (on_match_effect _ _ _ _ _ _ _ _ Hnd Hon) as [Hnd' [_ Hgrp]].
    split; [congruence|]. split; [assumption|].
    intros i' j' Hpos Hij Hhit b Hb.
    destruct (Nat.eq_dec j' j) as [->|Hne];
      [destruct (Nat.eq_dec i' a) as [->|Hne']|].
    + unfold id_at in Hb. rewrite Hj in Hb. injection Hb as <-.
      destruct (target_exists id_A (_search.result st)) as [K HK].
      exists K. apply Hgrp. right. auto.
    + destruct (Hc i' j ltac:(lia) Hij Hhit b Hb) as [K HK].
      exists K. apply Hgrp. now left.
    + destruct (Hc i' j' ltac:(lia) Hij Hhit b Hb) as [K HK].
      exists K. apply Hgrp. now left.
Qed.

Lemma hit_bound (similarity : Q) (imgs : Dict.t matrix) (i j : nat) :
  hit similarity imgs i j -> (i < length imgs /\ j < length imgs)%nat.
Proof.
  intros (x & mx & y & my & Hx & Hy & _). split; apply nth_error_Some; congruence.
Qed.

Lemma outer_step_complete (os : OS) (reg : registry) (similarity : Q)
  (imgs : Dict.t matrix) (a : nat) (entry_A : Z * matrix)
  (st st' : _search.state) :
  nth_error imgs a = Some entry_A ->
  complete similarity imgs a 0 st ->
  _search.outer_step os reg similarity false imgs st (a, entry_A) = Some st' ->
  complete similarity imgs (S a) 0 st'.
Proof.
  intros Ha Hc Hstep. destruct entry_A as [id_A matrix_A].
  unfold _search.outer_step in Hstep.
  assert (Hex : _search.exclude_from_search st = []) by apply Hc.
  rewrite Hex in Hstep. simpl in Hstep.
  assert (Hend : complete similarity imgs a (length imgs) st').
  { refine (foldM_enumerate_inv _ (fun j s => complete similarity imgs a j s)
              imgs st st' Hc _ Hstep).
    intros j x s s' Hj Hs Hin.
    exact (inner_step_complete _ _ _ _ _ _ _ _ _ _ _ Ha Hj Hs Hin). }
  destruct Hend as (Hex' & Hnd' & Hc'). split; [assumption|].
  split; [assumption|]. intros i' j' Hpos Hij Hhit b Hb.
  apply (Hc' i' j'); auto.
  destruct (hit_bound _ _ _ _ Hhit) as [_ Hj']. lia.
Qed.

Lemma search_loop_full_end (os : OS) (reg : registry) (similarity : Q)
  (imgs : Dict.t matrix) (st : _search.state) :
  _search.search_loop os reg similarity false imgs = Some st ->
  complete similarity imgs (length imgs) 0 st.
Proof.
  intros H.
  refine (foldM_enumerate_inv _ (fun a s => complete similarity imgs a 0 s)
            imgs _ st _ _ H).
  - split; [reflexivity|]. split; [constructor|].
    intros i' j' Hpos. lia.
  - intros a x s s' Ha Hs Hstep.
    exact (outer_step_complete _ _ _ _ _ _ _ _ Ha Hs Hstep).
Qed.

Lemma search_loop_complete (os : OS) (reg : registry) (similarity : Q)
  (imgs : Dict.t matrix) (st : _search.state) :
  _search.search_loop os reg similarity false imgs = Some st ->
  forall i j b, (i < j)%nat -> hit similarity imgs i j ->
                id_at imgs j = Some b -> is_member b (_search.result st).
Proof.
  intros H i j b Hij Hhit Hb.
  destruct (search_loop_full_end _ _ _ _ _ H) as (_ & _ & Hc).
  apply (Hc i j); auto.
  destruct (hit_bound _ _ _ _ Hhit) as [Hi _]. lia.
Qed.

(** C4, as first stated, fails: on the seven pictures the run with fast
    search counts 7 matches and the run without it 6.  With fast search the
    third and the fourth picture each head a group of the last three;
    without it all six are members of the one group of the first. *)
Lemma fast_count_exceeds_full_count :
  option_map (fun r => (membership (fst (fst (fst r))), snd r))
    (_search._matches plain_os seven_pictures (locations 7) (100 # 1) true) =
  Some ([(uuid4_value 1, [uuid4_value 2]);
         (uuid4_value 3, [uuid4_value 5; uuid4_value 6; uuid4_value 7]);
         (uuid4_value 4, [uuid4_value 5; uuid4_value 6; uuid4_value 7])],
        7%nat) /\
  option_map (fun r => (membership (fst (fst (fst r))), snd r))
    (_search._matches plain_os seven_pictures (locations 7) (100 # 1) false) =
  Some ([(uuid4_value 1,
          [uuid4_value 2; uuid4_value 3; uuid4_value 4;
           uuid4_value 5; uuid4_value 6; uuid4_value 7])],
        6%nat) /\
  ~ (7 <= 6)%nat.
Proof.
  split; [vm_compute; reflexivity|].
  split; [vm_compute; reflexivity | lia].
Qed.

(** ** Fast search *)

Lemma id_at_inj (imgs : Dict.t matrix) (i j : nat) (K : Z) :
  NoDup (Dict.keys imgs) ->
  id_at imgs i = Some K -> id_at imgs j = Some K -> i = j.
Proof.
  intros Hnd Hi Hj. unfold id_at in *.
  rewrite <- nth_error_map in Hi, Hj.
  apply (proj1 (NoDup_nth_error (Dict.keys imgs)) Hnd).
  - apply nth_error_Some. unfold Dict.keys. congruence.
  - unfold Dict.keys. congruence.
Qed.

Lemma in_group_key (b K : Z) (result : Dict.t _search.group) :
  in_group b K result -> In K (Dict.keys result).
Proof.
  intros [g [Hin _]]. unfold Dict.keys. apply in_map_iff. now exists (K, g).
Qed.

Lemma inner_step_pruning (os : OS) (reg : registry) (similarity : Q)
  (imgs : Dict.t matrix) (a : nat) (id_A : Z) (matrix_A : matrix) (j : nat)
  (entry_B : Z * matrix) (st st' : _search.state) :
  NoDup (Dict.keys imgs) ->
  nth_error imgs a = Some (id_A, matrix_A) ->
  nth_error imgs j = Some entry_B ->
  pruning similarity imgs a id_A j st ->
  _search.inner_step os reg similarity true a id_A matrix_A st (j, entry_B)
    = Some st' ->
  pruning similarity imgs a id_A (S j) st'.
Proof.
  intros Hids Ha Hj Hinv Hstep. destruct entry_B as [id_B matrix_B].
  destruct Hinv as (Hnd & P1 & P2 & P3 & P4 & P5 & P6 & P7).
  assert (HidA : id_at imgs a = Some id_A) by (unfold id_at; now rewrite Ha).
  assert (HidB : id_at imgs j = Some id_B) by (unfold id_at; now rewrite Hj).
  apply inner_step_cases in Hstep.
  destruct Hstep as [[-> Hskip]|[Hlt [k [B' [s [Hm Hon]]]]]].
  - repeat split; auto.
    intros i b Hi Hhit Hb.
    destruct (Nat.eq_dec i j) as [->|Hne]; [|apply (P6 i b); auto; lia].
    exfalso. destruct Hhit as (x & mx & y & my & Hx & Hy & Hxy).
    rewrite Ha in Hx. rewrite Hj in Hy.
    injection Hx as <- <-. injection Hy as <- <-.
    destruct Hskip as [Hskip|Hskip]; [lia | contradiction].
  - assert (Hhit : hit similarity imgs a j).
    { exists id_A, matrix_A, id_B, matrix_B. repeat split; auto. congruence. }
    assert (HnoA : ~ is_member id_A (_search.result st))
      by (intros HmA; apply P7, P1, HmA).
    destruct (on_match_cases _ _ _ _ _ _ _ _ Hon) as [_ [_ [Hex' _]]].
    destruct (on_match_effect _ _ _ _ _ _ _ _ Hnd Hon) as [Hnd' [Hkeys Hgrp]].
    assert (Hgrp' : forall b K, in_group b K (_search.result st') <->
              in_group b K (_search.result st) \/ (b = id_B /\ K = id_A)).
    { intros b K. rewrite Hgrp. unfold target. split.
      - intros [H|[Hb [H|[HK _]]]]; auto.
        exfalso. apply HnoA. now exists K.
      - intros [H|[Hb HK]]; auto. }
    assert (HB_not_key : forall K, In K (Dict.keys (_search.result st')) ->
              K <> id_B).
    { intros K HK ->. apply Hkeys in HK.
      destruct HK as [HK|[HK _]].
      - destruct (P2 _ HK) as [k0 [Hk0 Hid0]].
        pose proof (id_at_inj imgs k0 j id_B Hids Hid0 HidB). lia.
      - subst id_B. pose proof (id_at_inj imgs a j id_A Hids HidA HidB). lia. }
    unfold pruning. cbv zeta. rewrite Hex'.
    split; [assumption|]. split; [|split; [|split; [|split; [|split; [|split]]]]].
    + intros b [K HK]. apply Hgrp' in HK. apply in_app_iff.
      destruct HK as [HK|[-> _]]; [left; apply P1; now exists K|].
      right. now left.
    + intros K HK. apply Hkeys in HK. destruct HK as [HK|[-> _]]; auto.
      exists a. auto.
    + intros b K HK. apply Hgrp' in HK.
      destruct HK as [HK|[-> ->]]; [now apply P3|].
      exists a, j. auto.
    + intros K k0 i b HK Hid0 Hk0 Hki Hh Hb. apply in_app_iff. left.
      apply Hkeys in HK. destruct HK as [HK|[-> _]].
      * exact (P4 K k0 i b HK Hid0 Hk0 Hki Hh Hb).
      * pose proof (id_at_inj imgs k0 a id_A Hids Hid0 HidA). lia.
    + intros K HK Hin. apply in_app_iff in Hin.
      destruct Hin as [Hin|[Heq|[]]].
      * apply Hkeys in HK. destruct HK as [HK|[-> _]]; [|contradiction].
        exact (P5 K HK Hin).
      * symmetry in Heq. exact (HB_not_key K HK Heq).
    + intros i b Hi Hh Hb. apply in_app_iff.
      destruct (Nat.eq_dec i j) as [->|Hne].
      * right. left. congruence.
      * left. apply (P6 i b); auto. lia.
    + intros Hin. apply in_app_iff in Hin.
      destruct Hin as [Hin|[Heq|[]]]; [contradiction|].
      subst id_B. pose proof (id_at_inj imgs a j id_A Hids HidA HidB). lia.
Qed.

Lemma outer_step_pruned (os : OS) (reg : registry) (similarity : Q)
  (imgs : Dict.t matrix) (a : nat) (entry_A : Z * matrix)
  (st st' : _search.state) :
  NoDup (Dict.keys imgs) ->
  nth_error imgs a = Some entry_A ->
  pruned similarity imgs a st ->
  _search.outer_step os reg similarity true imgs st (a, entry_A) = Some st' ->
  pruned similarity imgs (S a) st'.
Proof.
  intros Hids Ha Hinv Hstep. destruct entry_A as [id_A matrix_A].
  assert (HidA : id_at imgs a = Some id_A) by (unfold id_at; now rewrite Ha).
  destruct Hinv as (Hnd & P1 & P2 & P3 & P4 & P5).
  unfold _search.outer_step in Hstep.
  destruct (list_mem id_A (_search.exclude_from_search st)) eqn:Hex.
  - injection Hstep as <-. apply list_mem_In in Hex.
    repeat split; auto.
    + intros K HK. destruct (P2 K HK) as [k [Hk Hid]]. exists k. split; [lia|auto].
    + intros K k i b HK Hid Hk Hki Hh Hb.
      destruct (Nat.eq_dec k a) as [->|Hne].
      * exfalso. apply (P5 K HK). congruence.
      * apply (P4 K k i b); auto. lia.
  - assert (Hstart : pruning similarity imgs a id_A 0 st).
    { repeat split; auto.
      - intros K HK. destruct (P2 K HK) as [k [Hk Hid]]. exists k.
        split; [lia|auto].
      - intros i b Hi. lia.
      - rewrite <- list_mem_In. congruence. }
    assert (Hend : pruning similarity imgs a id_A (length imgs) st').
    { refine (foldM_enumerate_inv _
                (fun j s => pruning similarity imgs a id_A j s)
                imgs st st' Hstart _ Hstep).
      intros j x s s' Hj Hs Hin.
      exact (inner_step_pruning _ _ _ _ _ _ _ _ _ _ _ Hids Ha Hj Hs Hin). }
    destruct Hend as (Hnd' & Q1 & Q2 & Q3 & Q4 & Q5 & Q6 & Q7).
    repeat split; auto.
    + intros K HK. destruct (Q2 K HK) as [k [Hk Hid]]. exists k.
      split; [lia|auto].
    + intros K k i b HK Hid Hk Hki Hh Hb.
      destruct (Nat.eq_dec k a) as [->|Hne].
      * apply (Q6 i b); auto.
        destruct (hit_bound _ _ _ _ Hh) as [_ Hi]. lia.
      * apply (Q4 K k i b); auto. lia.
Qed.

Lemma search_loop_pruned (os : OS) (reg : registry) (similarity : Q)
  (imgs : Dict.t matrix) (st : _search.state) :
  NoDup (Dict.keys imgs) ->
  _search.search_loop os reg similarity true imgs = Some st ->
  pruned similarity imgs (length imgs) st.
Proof.
  intros Hids H.
  refine (foldM_enumerate_inv _ (fun a s => pruned similarity imgs a s)
            imgs _ st _ _ H).
  - repeat split; simpl; try constructor; try easy.
    + intros b [K [g [[] _]]].
    + intros b K [g [[] _]].
  - intros a x s s' Ha Hs Hstep.
    exact (outer_step_pruned _ _ _ _ _ _ _ _ Hids Ha Hs Hstep).
Qed.

(** ** Fast search against the full search *)

Lemma share_group_mono (K b : Z) (r r' : Dict.t _search.group) :
  (forall x G, in_group x G r -> in_group x G r') ->
  share_group K b r -> share_group K b r'.
Proof.
  intros Hmono [K' [Hb HK]]. exists K'. split; [now apply Hmono|].
  destruct HK as [HK|HK]; [now left | right; now apply Hmono].
Qed.

Lemma inner_step_complete_pairs (os : OS) (reg : registry) (similarity : Q)
  (imgs : Dict.t matrix) (a : nat) (id_A : Z) (matrix_A : matrix) (j : nat)
  (entry_B : Z * matrix) (st st' : _search.state) :
  nth_error imgs a = Some (id_A, matrix_A) ->
  nth_error imgs j = Some entry_B ->
  complete_pairs similarity imgs a j st ->
  _search.inner_step os reg similarity false a id_A matrix_A st (j, entry_B)
    = Some st' ->
  complete_pairs similarity imgs a (S j) st'.
Proof.
  intros Ha Hj (Hex & Hnd & Hc) Hstep. destruct entry_B as [id_B matrix_B].
  apply inner_step_cases in Hstep.
  destruct Hstep as [[-> Hskip]|[Hlt [k [B' [s [Hm Hon]]]]]].
  - split; [assumption|]. split; [assumption|].
    intros i' j' Hpos Hij Hhit K b HK Hb.
    destruct (Nat.eq_dec j' j) as [->|Hne];
      [destruct (Nat.eq_dec i' a) as [->|Hne']|].
    + exfalso. destruct Hhit as (x & mx & y & my & Hx & Hy & Hxy).
      rewrite Ha in Hx. rewrite Hj in Hy.
      injection Hx as <- <-. injection Hy as <- <-.
      destruct Hskip as [Hskip|Hskip]; [lia | contradiction].
    + apply (Hc i' j); auto. lia.
    + apply (Hc i' j'); auto. lia.
  - destruct (on_match_cases _ _ _ _ _ _ _ _ Hon) as [_ [_ [Hex' _]]].
    destruct (on_match_effect _ _ _ _ _ _ _ _ Hnd Hon) as [Hnd' [_ Hgrp]].
    assert (Hmono : forall x G, in_group x G (_search.result st) ->
                                in_group x G (_search.result st')).
    { intros x G HxG. apply Hgrp. now left. }
    split; [congruence|]. split; [assumption|].
    intros i' j' Hpos Hij Hhit K b HK Hb.
    destruct (Nat.eq_dec j' j) as [->|Hne];
      [destruct (Nat.eq_dec i' a) as [->|Hne']|].
    + unfold id_at in HK, Hb. rewrite Ha in HK. rewrite Hj in Hb.
      injection HK as <-. injection Hb as <-.
      destruct (target_exists id_A (_search.result st)) as [K' HK'].
      exists K'. split; [apply Hgrp; right; auto|].
      destruct HK' as [Hin|[-> _]]; [right; now apply Hmono | now left].
    + apply (share_group_mono _ _ _ _ Hmono).
      apply (Hc i' j); auto. lia.
    + apply (share_group_mono _ _ _ _ Hmono).
      apply (Hc i' j'); auto. lia.
Qed.

Lemma outer_step_complete_pairs (os : OS) (reg : registry) (similarity : Q)
  (imgs : Dict.t matrix) (a : nat) (entry_A : Z * matrix)
  (st st' : _search.state) :
  nth_error imgs a = Some entry_A ->
  complete_pairs similarity imgs a 0 st ->
  _search.outer_step os reg similarity false imgs st (a, entry_A) = Some st' ->
  complete_pairs similarity imgs (S a) 0 st'.
Proof.
  intros Ha Hc Hstep. destruct entry_A as [id_A matrix_A].
  unfold _search.outer_step in Hstep.
  assert (Hex : _search.exclude_from_search st = []) by apply Hc.
  rewrite Hex in Hstep. simpl in Hstep.
  assert (Hend : complete_pairs similarity imgs a (length imgs) st').
  { refine (foldM_enumerate_inv _
              (fun j s => complete_pairs similarity imgs a j s)
              imgs st st' Hc _ Hstep).
    intros j x s s' Hj Hs Hin.
    exact (inner_step_complete_pairs _ _ _ _ _ _ _ _ _ _ _ Ha Hj Hs Hin). }
  destruct Hend as (Hex' & Hnd' & Hc'). split; [assumption|].
  split; [assumption|]. intros i' j' Hpos Hij Hhit K b HK Hb.
  apply (Hc' i' j'); auto.
  destruct (hit_bound _ _ _ _ Hhit) as [_ Hj']. lia.
Qed.

(** Without fast search the two entries of every pair that passes the match
    test end up in one group. *)
Lemma search_loop_complete_pairs (os : OS) (reg : registry) (similarity : Q)
  (imgs : Dict.t matrix) (st : _search.state) :
  _search.search_loop os reg similarity false imgs = Some st ->
  forall i j K b, (i < j)%nat -> hit similarity imgs i j ->
    id_at imgs i = Some K -> id_at imgs j = Some b ->
    share_group K b (_search.result st).
Proof.
  intros H.
  assert (Hend : complete_pairs similarity imgs (length imgs) 0 st).
  { refine (foldM_enumerate_inv _
              (fun a s => complete_pairs similarity imgs a 0 s)
              imgs _ st _ _ H).
    - split; [reflexivity|]. split; [constructor|].
      intros i' j' Hpos. lia.
    - intros a x s s' Ha Hs Hstep.
      exact (outer_step_complete_pairs _ _ _ _ _ _ _ _ Ha Hs Hstep). }
  intros i j K b Hij Hhit HK Hb. destruct Hend as (_ & _ & Hc).
  apply (Hc i j); auto.
  destruct (hit_bound _ _ _ _ Hhit) as [Hi _]. lia.
Qed.

(** C4 (as amended): on the same grids, registry and threshold, both runs
    return; every id that the run with fast search reports as a matched
    member of a group is a matched member of a group of the run without it;
    and every pair the run with fast search groups, a member [b] under its
    representative [K], shares a group in the run without it: a group there
    holds [b] and has [K] as its representative or as another member.
    (Only the count [match_count], which counts an id once for every group
    that holds it, is not ordered between the two runs.) *)
Theorem fast_pairs_share_full_group (os : OS) (imgs : Dict.t matrix)
  (reg : registry) (similarity : Q) :
  covers reg imgs ->
  exists fast_result fast_excluded fast_count full_result full_count,
    _search._matches os imgs reg similarity true =
      Some (fast_result, fast_excluded, length imgs, fast_count) /\
    _search._matches os imgs reg similarity false =
      Some (full_result, [], length imgs, full_count) /\
    (forall b, is_member b fast_result -> is_member b full_result) /\
    (NoDup (Dict.keys imgs) ->
     forall b K, in_group b K fast_result -> share_group K b full_result).
Proof.
  intros Hcov. unfold _search._matches.
  destruct (search_loop_total os reg similarity true imgs Hcov) as [sf Hf].
  destruct (search_loop_total os reg similarity false imgs Hcov) as [ss Hs].
  rewrite Hf, Hs.
  exists (_search.result sf), (_search.exclude_from_search sf),
    (_search.count_matches (_search.result sf)),
    (_search.result ss), (_search.count_matches (_search.result ss)).
  split; [reflexivity|]. split; [|split].
  - destruct (search_loop_full_end _ _ _ _ _ Hs) as (Hex & _).
    now rewrite Hex.
  - intros b Hb.
    destruct (search_loop_sound _ _ _ _ _ _ Hf) as [_ Hsound].
    destruct (Hsound b Hb) as (i & j & Hij & Hhit & Hj).
    exact (search_loop_complete _ _ _ _ _ Hs i j b Hij Hhit Hj).
  - intros Hids b K HbK.
    destruct (search_loop_pruned _ _ _ _ _ Hids Hf) as (_ & _ & _ & P3 & _).
    destruct (P3 b K HbK) as (k & i & Hki & Hk & Hi & Hhit).
    exact (search_loop_complete_pairs _ _ _ _ _ Hs k i K b Hki Hhit Hk Hi).
Qed.

(** On the seven pictures the fast search groups the fifth under the third;
    in the full search the two are members of the group of the first. *)
Lemma fast_pairs_share_full_group_witness :
  in_group (uuid4_value 5) (uuid4_value 3) (run_result seven_fast_run) /\
  share_group (uuid4_value 3) (uuid4_value 5) (run_result seven_full_run) /\
  forall b K, in_group b K (run_result seven_fast_run) ->
              share_group K b (run_result seven_full_run).
Proof.
  destruct (fast_pairs_share_full_group plain_os seven_pictures
              (locations 7) (100 # 1))
    as (rf & ef & cf & rs & cs & Hf & Hs & _ & Hpair); [solve_covers|].
  specialize (Hpair ltac:(solve_nodup)).
  fold seven_fast_run in Hf. fold seven_full_run in Hs.
  assert (Hrf : run_result seven_fast_run = rf)
    by (unfold run_result; now rewrite Hf).
  assert (Hrs : run_result seven_full_run = rs)
    by (unfold run_result; now rewrite Hs).
  rewrite Hrs.
  assert (Hin : in_group (uuid4_value 5) (uuid4_value 3)
                  (run_result seven_fast_run)).
  { exists (snd (nth 1 (run_result seven_fast_run) (first_group []))).
    split; vm_compute; [right; left; reflexivity | reflexivity]. }
  split; [exact Hin|]. rewrite Hrf in *. split; [now apply Hpair|].
  exact Hpair.
Defined.

(** C1 (as amended): with fast search no matched member is the
    representative of a group, and when the match test is transitive along
    the enumeration every id is a matched member of at most one group. *)
Theorem fast_search_member_of_one_group (os : OS) (imgs : Dict.t matrix)
  (reg : registry) (similarity : Q) (result : Dict.t _search.group)
  (excluded : list Z) (total_count match_count : nat) :
  NoDup (Dict.keys imgs) ->
  _search._matches os imgs reg similarity true =
    Some (result, excluded, total_count, match_count) ->
  NoDup (Dict.keys result) /\
  (forall b, is_member b result -> ~ In b (Dict.keys result)) /\
  (transitive_hits similarity imgs ->
   forall b K1 K2, in_group b K1 result -> in_group b K2 result -> K1 = K2).
Proof.
  intros Hids Hrun. unfold _search._matches in Hrun.
  destruct (_search.search_loop os reg similarity true imgs) as [st|] eqn:Hst;
    [|discriminate].
  injection Hrun as <- <- <- <-.
  destruct (search_loop_pruned _ _ _ _ _ Hids Hst)
    as (Hnd & P1 & P2 & P3 & P4 & P5).
  split; [assumption|]. split.
  - intros b Hb HK. exact (P5 b HK (P1 b Hb)).
  - intros Htrans.
    assert (Hlt : forall b K1 K2 k1 k2 i,
               in_group b K1 (_search.result st) ->
               in_group b K2 (_search.result st) ->
               id_at imgs k1 = Some K1 -> id_at imgs k2 = Some K2 ->
               hit similarity imgs k1 i -> hit similarity imgs k2 i ->
               (k1 < k2 < i)%nat -> False).
    { intros b K1 K2 k1 k2 i H1 H2 Hk1 Hk2 Hh1 Hh2 Hord.
      pose proof (Htrans k1 k2 i Hord Hh1 Hh2) as Hh.
      apply (P5 K2 (in_group_key _ _ _ H2)).
      apply (P4 K1 k1 k2 K2 (in_group_key _ _ _ H1) Hk1); auto; try lia.
      destruct (hit_bound _ _ _ _ Hh) as [Hb1 _]. exact Hb1. }
    intros b K1 K2 H1 H2.
    destruct (P3 b K1 H1) as (k1 & i1 & Hki1 & Hk1 & Hi1 & Hh1).
    destruct (P3 b K2 H2) as (k2 & i2 & Hki2 & Hk2 & Hi2 & Hh2).
    pose proof (id_at_inj imgs i1 i2 b Hids Hi1 Hi2). subst i2.
    destruct (Nat.lt_trichotomy k1 k2) as [Hlt12|[Heq|Hgt]].
    + exfalso. apply (Hlt b K1 K2 k1 k2 i1); auto.
    + subst k2. congruence.
    + exfalso. apply (Hlt b K2 K1 k2 k1 i1); auto.
Qed.

Lemma same_pictures_transitive : transitive_hits (200 # 1) same_pictures.
Proof.
  intros i j k Hord Hik Hjk.
  destruct (hit_bound _ _ _ _ Hik) as [_ Hk]. simpl in Hk.
  assert (i = 0 /\ j = 1)%nat as [-> ->] by lia.
  exists (uuid4_value 1), (solid 10 [5; 5; 5]),
    (uuid4_value 2), (solid 10 [5; 5; 5]).
  repeat split; try reflexivity. vm_compute. discriminate.
Qed.

Lemma fast_search_member_of_one_group_witness :
  NoDup (Dict.keys same_result) /\
  (forall b, is_member b same_result -> ~ In b (Dict.keys same_result)) /\
  (forall b K1 K2,
     in_group b K1 same_result -> in_group b K2 same_result -> K1 = K2).
Proof.
  destruct (fast_search_member_of_one_group plain_os same_pictures
              (locations 3) (200 # 1) same_result
              [uuid4_value 2; uuid4_value 3] 3 2)
    as (H1 & H2 & H3).
  - solve_nodup.
  - vm_compute. reflexivity.
  - split; [exact H1|]. split; [exact H2|].
    exact (H3 same_pictures_transitive).
Defined.

(** C1, as first stated, fails: with fast search the third of the three
    pictures is a member of the group of the first and of the group of the
    second, which do not match each other. *)
Lemma fast_search_member_of_two_groups :
  option_map (fun r => membership (fst (fst (fst r))))
    (_search._matches plain_os three_pictures (locations 3) (1 # 1) true) =
  Some [(uuid4_value 1, [uuid4_value 3]); (uuid4_value 2, [uuid4_value 3])]
  /\ uuid4_value 1 <> uuid4_value 2.
Proof.
  split; [vm_compute; reflexivity | vm_compute; discriminate].
Qed.

(** ** The grouping step *)

Lemma same_key_same_group (K : Z) (g1 g2 : _search.group)
  (result : Dict.t _search.group) :
  NoDup (Dict.keys result) -> In (K, g1) result -> In (K, g2) result ->
  g1 = g2.
Proof.
  intros Hnd H1 H2. apply (In_get _ _ _ Hnd) in H1.
  apply (In_get _ _ _ Hnd) in H2. congruence.
Qed.

(** What the body of [if mse <= similarity:] does to the groups. *)
Lemma on_match_attaches (os : OS) (reg : registry) (fast : bool)
  (id_A id_B : Z) (mse : Float64.t) (st st' : _search.state) :
  NoDup (Dict.keys (_search.result st)) ->
  _search.on_match os reg fast id_A id_B mse st = Some st' ->
  exists file_B,
    Dict.get id_B reg = Some file_B /\
    (forall K g', In (K, g') (_search.result st') ->
       target id_A K (_search.result st) ->
       Dict.get id_B (_search.matches g') =
       Some {| _search.m_location := path_str os file_B;
               _search.m_mse := mse |}) /\
    (exists K g', In (K, g') (_search.result st') /\
                  target id_A K (_search.result st)) /\
    (forall K g', In (K, g') (_search.result st') ->
       ~ target id_A K (_search.result st) ->
       In (K, g') (_search.result st)) /\
    (forall K g' g b, In (K, g') (_search.result st') ->
       In (K, g) (_search.result st) -> b <> id_B ->
       Dict.get b (_search.matches g') = Dict.get b (_search.matches g)) /\
    (forall K, In K (Dict.keys (_search.result st')) <->
       In K (Dict.keys (_search.result st)) \/
       (K = id_A /\ ~ is_member id_A (_search.result st))).
Proof.
  intros Hnd Hon.
  destruct (on_match_effect _ _ _ _ _ _ _ _ Hnd Hon) as [Hnd' [Hkeys Hgrp]].
  destruct (on_match_cases _ _ _ _ _ _ _ _ Hon) as [file_B [HB [_ Hcases]]].
  cbv zeta in Hcases. exists file_B. split; [exact HB|].
  set (info := {| _search.m_location := path_str os file_B;
                  _search.m_mse := mse |}) in *.
  assert (Hsome : exists K g', In (K, g') (_search.result st') /\
                               target id_A K (_search.result st)).
  { destruct (target_exists id_A (_search.result st)) as [K HK].
    destruct (proj2 (Hgrp id_B K) (or_intror (conj eq_refl HK)))
      as [g' [Hin _]].
    now exists K, g'. }
  destruct Hcases as [[Hmem Hr]|[[Hno [Hkey Hr]]|[Hno [Hkey [file_A [_ Hr]]]]]];
    rewrite Hr in *.
  - (* written into the groups that hold the anchor *)
    assert (Hin_inv : forall K g', In (K, g')
                (map (attach_entry id_A id_B info) (_search.result st)) ->
              exists g, In (K, g) (_search.result st) /\
                g' = if Dict.mem id_A (_search.matches g)
                     then _search.set_match id_B info g else g).
    { intros K g' Hin. apply in_map_iff in Hin.
      destruct Hin as [[K0 g0] [Heq Hin]]. unfold attach_entry in Heq.
      simpl in Heq. exists g0.
      destruct (Dict.mem id_A (_search.matches g0)); injection Heq as <- <-;
        auto. }
    split; [|split; [exact Hsome|split; [|split; [|exact Hkeys]]]].
    + intros K g' Hin [[g [Hg HA]]|[_ Hno]]; [|contradiction].
      destruct (Hin_inv K g' Hin) as [g0 [Hg0 ->]].
      rewrite (same_key_same_group K g0 g _ Hnd Hg0 Hg), HA.
      apply get_set_eq.
    + intros K g' Hin Hnt. destruct (Hin_inv K g' Hin) as [g0 [Hg0 ->]].
      destruct (Dict.mem id_A (_search.matches g0)) eqn:HA; [|assumption].
      exfalso. apply Hnt. left. now exists g0.
    + intros K g' g b Hin Hg Hb. destruct (Hin_inv K g' Hin) as [g0 [Hg0 ->]].
      rewrite (same_key_same_group K g0 g _ Hnd Hg0 Hg).
      destruct (Dict.mem id_A (_search.matches g)); [|reflexivity].
      simpl. now apply get_set_neq.
  - (* written into the group the anchor heads *)
    assert (Htarget : forall K, target id_A K (_search.result st) <->
                                K = id_A).
    { intros K. unfold target. split; [|auto].
      intros [HK|[HK _]]; [|assumption]. exfalso. apply Hno. now exists K. }
    split; [|split; [exact Hsome|split; [|split; [|exact Hkeys]]]].
    + intros K g' Hin HK. apply Htarget in HK. subst K.
      apply (add_to_group_In _ _ _ _ _ _ Hnd) in Hin.
      destruct Hin as [g [Hg ->]]. rewrite Z.eqb_refl. apply get_set_eq.
    + intros K g' Hin Hnt. apply (add_to_group_In _ _ _ _ _ _ Hnd) in Hin.
      destruct Hin as [g [Hg ->]].
      destruct (Z.eqb_spec K id_A) as [->|]; [|assumption].
      exfalso. apply Hnt. now apply Htarget.
    + intros K g' g b Hin Hg Hb. apply (add_to_group_In _ _ _ _ _ _ Hnd) in Hin.
      destruct Hin as [g0 [Hg0 ->]].
      rewrite (same_key_same_group K g0 g _ Hnd Hg0 Hg).
      destruct (Z.eqb K id_A); [|reflexivity].
      simpl. now apply get_set_neq.
  - (* written into a new group *)
    assert (Htarget : forall K, target id_A K (_search.result st) <->
                                K = id_A).
    { intros K. unfold target. split; [|auto].
      intros [HK|[HK _]]; [|assumption]. exfalso. apply Hno. now exists K. }
    assert (HnotA : forall g, ~ In (id_A, g) (_search.result st)).
    { intros g Hg. apply (In_get _ _ _ Hnd) in Hg.
      assert (Dict.mem id_A (_search.result st) = true)
        by (apply mem_get; congruence).
      congruence. }
    split; [|split; [exact Hsome|split; [|split; [|exact Hkeys]]]].
    + intros K g' Hin HK. apply Htarget in HK. subst K.
      apply in_app_iff in Hin. destruct Hin as [Hin|[Heq|[]]].
      * exfalso. exact (HnotA g' Hin).
      * injection Heq as <-. simpl. now rewrite Z.eqb_refl.
    + intros K g' Hin Hnt. apply in_app_iff in Hin.
      destruct Hin as [Hin|[Heq|[]]]; [assumption|].
      injection Heq as <- <-. exfalso. apply Hnt. now apply Htarget.
    + intros K g' g b Hin Hg Hb. apply in_app_iff in Hin.
      destruct Hin as [Hin|[Heq|[]]].
      * now rewrite (same_key_same_group K g' g _ Hnd Hin Hg).
      * injection Heq as <- <-. exfalso. exact (HnotA g Hg).
Qed.

(** C2 (as amended): an accepted match of [(A, B)] writes B, with the score
    of this match, into every group whose match set holds A, or, when no
    group holds A, into the group keyed by A, which is created if absent;
    an entry that B already had in such a group is replaced; nothing else
    changes. *)
Theorem accepted_match_attaches (os : OS) (reg : registry) (fast : bool)
  (id_A id_B : Z) (mse : Float64.t) (st st' : _search.state) :
  NoDup (Dict.keys (_search.result st)) ->
  _search.on_match os reg fast id_A id_B mse st = Some st' ->
  exists file_B,
    Dict.get id_B reg = Some file_B /\
    (forall K g', In (K, g') (_search.result st') ->
       target id_A K (_search.result st) ->
       Dict.get id_B (_search.matches g') =
       Some {| _search.m_location := path_str os file_B;
               _search.m_mse := mse |}) /\
    (exists K g', In (K, g') (_search.result st') /\
                  target id_A K (_search.result st)) /\
    (forall K g', In (K, g') (_search.result st') ->
       ~ target id_A K (_search.result st) ->
       In (K, g') (_search.result st)) /\
    (forall K g' g b, In (K, g') (_search.result st') ->
       In (K, g) (_search.result st) -> b <> id_B ->
       Dict.get b (_search.matches g') = Dict.get b (_search.matches g)) /\
    (forall K, In K (Dict.keys (_search.result st')) <->
       In K (Dict.keys (_search.result st)) \/
       (K = id_A /\ ~ is_member id_A (_search.result st))).
Proof. apply on_match_attaches. Qed.

Lemma accepted_match_attaches_witness :
  exists K g', In (K, g') (_search.result first_match_state) /\
               target (uuid4_value 1) K (_search.result empty_state).
Proof.
  destruct (accepted_match_attaches plain_os (locations 3) false
              (uuid4_value 1) (uuid4_value 2) (Float64.Finite (1 # 1))
              empty_state first_match_state)
    as [file_B (_ & _ & H & _)].
  - constructor.
  - vm_compute. reflexivity.
  - exact H.
Defined.

(** C2, as first stated, fails twice without fast search.  On the pictures
    in a row the third is recorded in the group of the first at score 4 and,
    when the second (a member of that group) matches it at score 1, the
    entry is overwritten.  On the four pictures the third is a member of the
    groups of the first and of the second; its match with the fourth, which
    neither the first nor the second matches, attaches the fourth to both
    groups. *)
Lemma accepted_match_overwrites_and_fans_out :
  option_map (fun st => scores (_search.result st)) row_after_first_anchor =
    Some [(uuid4_value 1, [(uuid4_value 2, Float64.Finite (1 # 1));
                           (uuid4_value 3, Float64.Finite (4 # 1))])]
  /\
  option_map (fun r => scores (fst (fst (fst r))))
    (_search._matches plain_os row_pictures (locations 3) (4 # 1) false) =
    Some [(uuid4_value 1, [(uuid4_value 2, Float64.Finite (1 # 1));
                           (uuid4_value 3, Float64.Finite (1 # 1))])]
  /\
  _search.match_rotations (solid 10 [0; 0; 0]) (solid 10 [2; 2; 0]) (4 # 1)
    = None /\
  _search.match_rotations (solid 10 [4; 0; 0]) (solid 10 [2; 2; 0]) (4 # 1)
    = None /\
  option_map (fun r => membership (fst (fst (fst r))))
    (_search._matches plain_os four_pictures (locations 4) (4 # 1) false) =
    Some [(uuid4_value 1, [uuid4_value 3; uuid4_value 4]);
          (uuid4_value 2, [uuid4_value 3; uuid4_value 4])].
Proof.
  repeat split; vm_compute; reflexivity.
Qed.

(* ================================================================= *)
(** * Further properties of the code *)

(** ** The metric and the quarter turn *)

Lemma pixel_squares_swap (p q : pixel) :
  map (fun x => x ^ 2) (_compute.zip_with Z.sub p q) =
  map (fun x => x ^ 2) (_compute.zip_with Z.sub q p).
Proof.
  revert q. induction p as [|a p IH]; intros [|b q];
    cbn [map _compute.zip_with]; try reflexivity.
  f_equal; [rewrite !Z.pow_2_r; lia | apply IH].
Qed.

Lemma row_squares_swap (r r' : list pixel) :
  map (map (fun x => x ^ 2)) (_compute.zip_with (_compute.zip_with Z.sub) r r')
  = map (map (fun x => x ^ 2))
      (_compute.zip_with (_compute.zip_with Z.sub) r' r).
Proof.
  revert r'. induction r as [|p r IH]; intros [|q r']; simpl; try reflexivity.
  f_equal; [apply pixel_squares_swap | apply IH].
Qed.

Lemma squares_swap (A B : matrix) :
  _compute.np_square (_compute.np_sub A B) =
  _compute.np_square (_compute.np_sub B A).
Proof.
  unfold _compute.np_square, _compute.np_sub. revert B.
  induction A as [|r A IH]; intros [|r' B]; simpl; try reflexivity.
  f_equal; [apply row_squares_swap | apply IH].
Qed.

Lemma mse_swap (h w c : nat) (A B : matrix) :
  has_shape h w c A -> has_shape h w c B ->
  _compute._mse A B = _compute._mse B A.
Proof.
  intros HA HB. unfold _compute._mse. rewrite (squares_swap A B).
  f_equal. f_equal. unfold shape0.
  destruct HA as [HlA HrA], HB as [HlB HrB]. rewrite HlA, HlB. f_equal.
  destruct A as [|rA A], B as [|rB B]; simpl in *; try reflexivity;
    try (subst h; discriminate).
  inversion HrA as [|? ? [HwA _] _]. inversion HrB as [|? ? [HwB _] _].
  congruence.
Qed.

(** X1: the metric is symmetric: on two grids of one shape [_mse A B] and
    [_mse B A] are the same number. *)
Theorem mse_symmetric (h w c : nat) (A B : matrix) :
  has_shape h w c A -> has_shape h w c B ->
  _compute._mse A B = _compute._mse B A.
Proof. exact (mse_swap h w c A B). Qed.

Lemma mse_symmetric_witness :
  _compute._mse (solid 2 [3; 0; 0]) (solid 2 [0; 1; 0]) =
  _compute._mse (solid 2 [0; 1; 0]) (solid 2 [3; 0; 0]).
Proof.
  apply (mse_symmetric 2 2 3); split; [reflexivity | repeat constructor ..].
Defined.

Lemma nth_map_seq {A : Type} (f : nat -> A) (d : A) (n i : nat) :
  (i < n)%nat -> nth i (map f (seq 0 n)) d = f i.
Proof.
  intros Hi. rewrite (nth_indep _ d (f O)) by now rewrite length_map, length_seq.
  rewrite map_nth, seq_nth by assumption. reflexivity.
Qed.

Lemma nth_map_default {A B : Type} (f : A -> B) (l : list A) (dA : A) (dB : B)
  (i : nat) :
  (i < length l)%nat -> nth i (map f l) dB = f (nth i l dA).
Proof.
  intros Hi. rewrite (nth_indep _ dB (f dA)) by now rewrite length_map.
  apply map_nth.
Qed.

Lemma shape1_map_rev (S c : nat) (img : matrix) :
  has_shape S S c img -> shape1 (map (@rev pixel) img) = S.
Proof.
  intros [Hlen Hrows]. destruct img as [|row img]; simpl in *; [lia|].
  inversion Hrows as [|? ? [Hw _] _]. now rewrite length_rev.
Qed.

(** The pixel at [(i, j)] of the turned grid is the pixel at [(j, S-1-i)]. *)
Lemma rotate_pixel (S c : nat) (img : matrix) (i j : nat) :
  has_shape S S c img -> (i < S)%nat -> (j < S)%nat ->
  nth j (nth i (_help._rotate_img img) []) [] =
  nth (S - 1 - i) (nth j img []) [].
Proof.
  intros Hs Hi Hj. unfold _help._rotate_img, _help.transpose01.
  rewrite (shape1_map_rev S c img Hs).
  rewrite nth_map_seq by assumption. unfold _help.column.
  assert (Hlen : length img = S) by apply Hs.
  unfold matrix, pixel in *.
  rewrite (nth_map_default (A:=list (list Z)) (B:=list Z) _ _ [] [])
    by (rewrite length_map; lia).
  rewrite (nth_map_default (A:=list (list Z)) (B:=list (list Z)) _ _ [] [])
    by lia.
  destruct (has_shape_row S S c img j Hs Hj) as [Hw _].
  unfold matrix, pixel in *.
  rewrite rev_nth by lia. f_equal. lia.
Qed.

Lemma matrix_ext (S c : nat) (A B : matrix) :
  has_shape S S c A -> has_shape S S c B ->
  (forall i j, (i < S)%nat -> (j < S)%nat ->
     nth j (nth i A []) [] = nth j (nth i B []) []) ->
  A = B.
Proof.
  intros HA HB Hpx.
  assert (HlA : length A = S) by apply HA.
  assert (HlB : length B = S) by apply HB.
  apply (nth_ext A B [] []); [now transitivity S|].
  intros i Hi. rewrite HlA in Hi.
  destruct (has_shape_row S S c A i HA Hi) as [HwA _].
  destruct (has_shape_row S S c B i HB Hi) as [HwB _].
  specialize (Hpx i). unfold matrix, pixel in *.
  apply (nth_ext _ _ [] []); [lia|].
  intros j Hj. apply Hpx; lia.
Qed.

Lemma rotated_four (S c : nat) (img : matrix) :
  has_shape S S c img -> rotated 4 img = img.
Proof.
  intros Hs.
  pose proof (rotated_has_shape S c img 1 Hs) as H1.
  pose proof (rotated_has_shape S c img 2 Hs) as H2.
  pose proof (rotated_has_shape S c img 3 Hs) as H3.
  pose proof (rotated_has_shape S c img 4 Hs) as H4.
  apply (matrix_ext S c _ _ H4 Hs). intros i j Hi Hj.
  change (rotated 4 img) with (_help._rotate_img (rotated 3 img)).
  rewrite (rotate_pixel S c _ i j H3 Hi Hj).
  change (rotated 3 img) with (_help._rotate_img (rotated 2 img)).
  rewrite (rotate_pixel S c _ j (S - 1 - i) H2 Hj ltac:(lia)).
  change (rotated 2 img) with (_help._rotate_img (rotated 1 img)).
  rewrite (rotate_pixel S c _ (S - 1 - i) (S - 1 - j) H1 ltac:(lia) ltac:(lia)).
  change (rotated 1 img) with (_help._rotate_img img).
  rewrite (rotate_pixel S c _ (S - 1 - j) (S - 1 - (S - 1 - i)) Hs
             ltac:(lia) ltac:(lia)).
  replace (S - 1 - (S - 1 - i))%nat with i by lia.
  replace (S - 1 - (S - 1 - j))%nat with j by lia.
  reflexivity.
Qed.

(** X2: a quarter turn keeps the shape of a square grid, and four quarter
    turns give the grid back: the four passes of the match test are the four
    orientations of the candidate. *)
Theorem four_turns_identity (S c : nat) (img : matrix) :
  has_shape S S c img ->
  has_shape S S c (_help._rotate_img img) /\ rotated 4 img = img.
Proof.
  intros Hs. split; [now apply rotate_has_shape | now apply (rotated_four S c)].
Qed.

Lemma four_turns_identity_witness :
  has_shape 2 2 1 (_help._rotate_img [[[1]; [2]]; [[3]; [4]]]) /\
  rotated 4 [[[1]; [2]]; [[3]; [4]]] = [[[1]; [2]]; [[3]; [4]]].
Proof.
  apply (four_turns_identity 2 1). split; [reflexivity | repeat constructor].
Defined.

(** ** Edge cases of the search *)

(** X3: with no image or a single image the search compares nothing: it
    returns no group, an empty exclusion list and a match count of 0,
    whatever the registry holds. *)
Theorem search_of_at_most_one_image (os : OS) (imgs : Dict.t matrix)
  (reg : registry) (similarity : Q) (fast : bool) :
  (length imgs <= 1)%nat ->
  _search._matches os imgs reg similarity fast =
  Some ([], [], length imgs, O).
Proof.
  intros Hlen. destruct imgs as [|[id matrix_A] [|e imgs]];
    [reflexivity | reflexivity | simpl in Hlen; lia].
Qed.

Lemma search_of_at_most_one_image_witness :
  _search._matches plain_os [(uuid4_value 1, solid 10 [5; 5; 5])] []
    (200 # 1) true =
  Some ([], [], 1%nat, O).
Proof.
  apply (search_of_at_most_one_image plain_os
           [(uuid4_value 1, solid 10 [5; 5; 5])] [] (200 # 1) true).
  simpl. lia.
Defined.

(** X4: without fast search an id is a matched member of some group exactly
    when some entry enumerated before its own passes the match test against
    it. *)
Theorem full_search_members (os : OS) (imgs : Dict.t matrix) (reg : registry)
  (similarity : Q) (result : Dict.t _search.group) (excluded : list Z)
  (total_count match_count : nat) :
  _search._matches os imgs reg similarity false =
    Some (result, excluded, total_count, match_count) ->
  forall b,
    is_member b result <->
    exists i j, (i < j)%nat /\ hit similarity imgs i j /\
                id_at imgs j = Some b.
Proof.
  unfold _search._matches. intros Hrun.
  destruct (_search.search_loop os reg similarity false imgs) as [st|] eqn:Hst;
    [|discriminate].
  injection Hrun as <- <- <- <-. intros b. split.
  - apply (search_loop_sound _ _ _ _ _ _ Hst).
  - intros (i & j & Hij & Hhit & Hb).
    exact (search_loop_complete _ _ _ _ _ Hst i j b Hij Hhit Hb).
Qed.

Lemma full_search_members_witness :
  is_member (uuid4_value 4) (run_result four_full_run) <->
  exists i j, (i < j)%nat /\ hit (4 # 1) four_pictures i j /\
              id_at four_pictures j = Some (uuid4_value 4).
Proof.
  apply (full_search_members plain_os four_pictures (locations 4) (4 # 1)
           (run_result four_full_run) (run_excluded four_full_run)
           (run_total four_full_run) (run_count four_full_run)).
  vm_compute. reflexivity.
Defined.

(** ** Invariants of the search *)

(** A property of the state that every pass of the inner loop keeps holds of
    the state the search ends in. *)
Lemma search_loop_inv (os : OS) (reg : registry) (similarity : Q)
  (fast : bool) (imgs : Dict.t matrix) (P : _search.state -> Prop) :
  P {| _search.result := []; _search.exclude_from_search := [] |} ->
  (forall a id_A matrix_A j entry_B st st',
     nth_error imgs a = Some (id_A, matrix_A) ->
     nth_error imgs j = Some entry_B ->
     P st ->
     _search.inner_step os reg similarity fast a id_A matrix_A st (j, entry_B)
       = Some st' ->
     P st') ->
  forall st, _search.search_loop os reg similarity fast imgs = Some st -> P st.
Proof.
  intros H0 Hstep st Hrun.
  refine (foldM_enumerate_inv _ (fun _ s => P s) imgs _ st H0 _ Hrun).
  intros a [id_A matrix_A] s s' Ha Hs Hout.
  unfold _search.outer_step in Hout.
  destruct (list_mem id_A (_search.exclude_from_search s));
    [now injection Hout as <-|].
  refine (foldM_enumerate_inv _ (fun _ s0 => P s0) imgs s s' Hs _ Hout).
  intros j x s0 s0' Hj Hs0 Hin.
  exact (Hstep a id_A matrix_A j x s0 s0' Ha Hj Hs0 Hin).
Qed.

Lemma inner_step_ordered (os : OS) (reg : registry) (similarity : Q)
  (fast : bool) (imgs : Dict.t matrix) (a : nat) (id_A : Z)
  (matrix_A : matrix) (j : nat) (entry_B : Z * matrix)
  (st st' : _search.state) :
  NoDup (Dict.keys imgs) ->
  nth_error imgs a = Some (id_A, matrix_A) ->
  nth_error imgs j = Some entry_B ->
  ordered imgs st ->
  _search.inner_step os reg similarity fast a id_A matrix_A st (j, entry_B)
    = Some st' ->
  ordered imgs st'.
Proof.
  intros Hids Ha Hj [Hnd Hord] Hstep. destruct entry_B as [id_B matrix_B].
  assert (HidA : id_at imgs a = Some id_A) by (unfold id_at; now rewrite Ha).
  assert (HidB : id_at imgs j = Some id_B) by (unfold id_at; now rewrite Hj).
  apply inner_step_cases in Hstep.
  destruct Hstep as [[-> _]|[Hlt [k [B' [s [Hm Hon]]]]]]; [now split|].
  destruct (on_match_effect _ _ _ _ _ _ _ _ Hnd Hon) as [Hnd' [_ Hgrp]].
  split; [assumption|]. intros b K HK. apply Hgrp in HK.
  destruct HK as [HK|[-> [HK|[-> _]]]].
  - now apply Hord.
  - destruct (Hord id_A K HK) as (k0 & i0 & Hki & Hk0 & Hi0).
    pose proof (id_at_inj imgs i0 a id_A Hids Hi0 HidA). subst i0.
    exists k0, j. repeat split; auto. lia.
  - exists a, j. auto.
Qed.

(** X5: in either mode every matched member of a group is enumerated after
    the representative of the group; in particular no image is a member of
    the group it represents. *)
Theorem members_follow_representative (os : OS) (imgs : Dict.t matrix)
  (reg : registry) (similarity : Q) (fast : bool)
  (result : Dict.t _search.group) (excluded : list Z)
  (total_count match_count : nat) :
  NoDup (Dict.keys imgs) ->
  _search._matches os imgs reg similarity fast =
    Some (result, excluded, total_count, match_count) ->
  (forall b K, in_group b K result ->
     exists k i, (k < i)%nat /\ id_at imgs k = Some K /\
                 id_at imgs i = Some b) /\
  (forall K, ~ in_group K K result).
Proof.
  intros Hids Hrun. unfold _search._matches in Hrun.
  destruct (_search.search_loop os reg similarity fast imgs) as [st|] eqn:Hst;
    [|discriminate].
  injection Hrun as <- <- <- <-.
  assert (Hord : ordered imgs st).
  { apply (search_loop_inv os reg similarity fast imgs (ordered imgs));
      [| |exact Hst].
    - split; [constructor|]. intros b K [g [[] _]].
    - intros a id_A matrix_A j entry_B s s' Ha Hj Hs Hin.
      exact (inner_step_ordered _ _ _ _ _ _ _ _ _ _ _ _ Hids Ha Hj Hs Hin). }
  destruct Hord as [_ Hord]. split; [exact Hord|].
  intros K HK. destruct (Hord K K HK) as (k & i & Hki & Hk & Hi).
  pose proof (id_at_inj imgs k i K Hids Hk Hi). lia.
Qed.

Lemma members_follow_representative_witness :
  (forall b K,
     in_group b K
       (run_result (_search._matches plain_os four_pictures (locations 4)
                      (4 # 1) false)) ->
     exists k i, (k < i)%nat /\ id_at four_pictures k = Some K /\
                 id_at four_pictures i = Some b) /\
  (forall K,
     ~ in_group K K
         (run_result (_search._matches plain_os four_pictures (locations 4)
                        (4 # 1) false))).
Proof.
  apply (members_follow_representative plain_os four_pictures (locations 4)
           (4 # 1) false
           (run_result (_search._matches plain_os four_pictures (locations 4)
                          (4 # 1) false))
           (run_excluded (_search._matches plain_os four_pictures
                            (locations 4) (4 # 1) false))
           (run_total (_search._matches plain_os four_pictures (locations 4)
                         (4 # 1) false))
           (run_count (_search._matches plain_os four_pictures (locations 4)
                         (4 # 1) false))).
  - solve_nodup.
  - vm_compute. reflexivity.
Defined.

Lemma In_set {V : Type} (k k' : Z) (v v' : V) (d : Dict.t V) :
  In (k', v') (Dict.set k v d) -> (k', v') = (k, v) \/ In (k', v') d.
Proof.
  induction d as [|[k0 v0] d IH]; simpl.
  - intros [H|[]]. left. now symmetry.
  - destruct (Z.eqb_spec k k0) as [->|Hne]; simpl.
    + intros [H|H]; [left; now symmetry | right; now right].
    + intros [H|H]; [right; now left|].
      destruct (IH H) as [Heq|Hin]; [now left | right; now right].
Qed.

Lemma on_match_recorded (os : OS) (reg : registry) (similarity : Q)
  (imgs : Dict.t matrix) (fast : bool) (id_A id_B : Z) (mse : Float64.t)
  (st st' : _search.state) :
  recorded os reg similarity imgs st ->
  (forall file_B, Dict.get id_B reg = Some file_B ->
     well_recorded os reg similarity imgs id_B
       {| _search.m_location := path_str os file_B; _search.m_mse := mse |}) ->
  _search.on_match os reg fast id_A id_B mse st = Some st' ->
  recorded os reg similarity imgs st'.
Proof.
  intros [Hnd Hrec] Hinfo Hon.
  destruct (on_match_effect _ _ _ _ _ _ _ _ Hnd Hon) as [Hnd' _].
  destruct (on_match_cases _ _ _ _ _ _ _ _ Hon) as [file_B [HB [_ Hcases]]].
  cbv zeta in Hcases. specialize (Hinfo file_B HB).
  set (info := {| _search.m_location := path_str os file_B;
                  _search.m_mse := mse |}) in *.
  assert (Hset : forall g b i, In (b, i)
                   (_search.matches (_search.set_match id_B info g)) ->
                 (forall b0 i0, In (b0, i0) (_search.matches g) ->
                    well_recorded os reg similarity imgs b0 i0) ->
                 well_recorded os reg similarity imgs b i).
  { intros g b i Hin Hg. simpl in Hin. apply In_set in Hin.
    destruct Hin as [Heq|Hin]; [injection Heq as -> ->; exact Hinfo|].
    now apply Hg. }
  split; [assumption|]. intros K g' Hin.
  destruct Hcases as [[_ Hr]|[[_ [_ Hr]]|[_ [_ [file_A [HA Hr]]]]]];
    rewrite Hr in Hin.
  - apply in_map_iff in Hin. destruct Hin as [[K0 g0] [Heq Hin]].
    unfold attach_entry in Heq. simpl in Heq.
    destruct (Hrec K0 g0 Hin) as [Hloc Hm].
    destruct (Dict.mem id_A (_search.matches g0)); injection Heq as <- <-.
    + split; [exact Hloc|]. intros b i Hbi. exact (Hset g0 b i Hbi Hm).
    + split; assumption.
  - apply (add_to_group_In _ _ _ _ _ _ Hnd) in Hin.
    destruct Hin as [g0 [Hin ->]]. destruct (Hrec K g0 Hin) as [Hloc Hm].
    destruct (Z.eqb K id_A).
    + split; [exact Hloc|]. intros b i Hbi. exact (Hset g0 b i Hbi Hm).
    + split; assumption.
  - apply in_app_iff in Hin. destruct Hin as [Hin|[Heq|[]]].
    + now apply Hrec.
    + injection Heq as <- <-. split.
      * exists file_A. auto.
      * intros b i [Hbi|[]]. injection Hbi as <- <-. exact Hinfo.
Qed.

Lemma inner_step_recorded (os : OS) (reg : registry) (similarity : Q)
  (fast : bool) (imgs : Dict.t matrix) (a : nat) (id_A : Z)
  (matrix_A : matrix) (j : nat) (entry_B : Z * matrix)
  (st st' : _search.state) :
  nth_error imgs a = Some (id_A, matrix_A) ->
  nth_error imgs j = Some entry_B ->
  recorded os reg similarity imgs st ->
  _search.inner_step os reg similarity fast a id_A matrix_A st (j, entry_B)
    = Some st' ->
  recorded os reg similarity imgs st'.
Proof.
  intros Ha Hj Hrec Hstep. destruct entry_B as [id_B matrix_B].
  apply inner_step_cases in Hstep.
  destruct Hstep as [[-> _]|[Hlt [k [B' [s [Hm Hon]]]]]]; [assumption|].
  refine (on_match_recorded _ _ _ _ _ _ _ _ _ _ Hrec _ Hon).
  intros file_B HB.
  pose proof (match_rotations_spec matrix_A matrix_B similarity) as Hspec.
  rewrite Hm in Hspec. destruct Hspec as (Hk & -> & -> & Hacc & _).
  split; [exists file_B; auto|].
  exists a, j, k, id_A, matrix_A, matrix_B. simpl. repeat split; auto.
Qed.

Lemma search_loop_recorded (os : OS) (reg : registry) (similarity : Q)
  (fast : bool) (imgs : Dict.t matrix) (st : _search.state) :
  _search.search_loop os reg similarity fast imgs = Some st ->
  recorded os reg similarity imgs st.
Proof.
  apply (search_loop_inv os reg similarity fast imgs
           (recorded os reg similarity imgs)).
  - split; [constructor|]. intros K g [].
  - intros a id_A matrix_A j entry_B s s' Ha Hj Hs Hin.
    exact (inner_step_recorded _ _ _ _ _ _ _ _ _ _ _ _ Ha Hj Hs Hin).
Qed.

(** X6: every score in the result is within the threshold, and it is the
    score of the member, in one of its four turns, against an image
    enumerated before it. *)
Theorem recorded_scores_within_threshold (os : OS) (imgs : Dict.t matrix)
  (reg : registry) (similarity : Q) (fast : bool)
  (result : Dict.t _search.group) (excluded : list Z)
  (total_count match_count : nat) :
  _search._matches os imgs reg similarity fast =
    Some (result, excluded, total_count, match_count) ->
  forall K g b info,
    In (K, g) result -> In (b, info) (_search.matches g) ->
    Float64.within (_search.m_mse info) similarity /\
    exists i j k id_A matrix_A matrix_B,
      (i < j)%nat /\ (k <= 3)%nat /\
      nth_error imgs i = Some (id_A, matrix_A) /\
      nth_error imgs j = Some (b, matrix_B) /\
      _search.m_mse info = _compute._mse matrix_A (rotated k matrix_B).
Proof.
  unfold _search._matches. intros Hrun.
  destruct (_search.search_loop os reg similarity fast imgs) as [st|] eqn:Hst;
    [|discriminate].
  injection Hrun as <- <- <- <-. intros K g b info HK Hb.
  destruct (search_loop_recorded _ _ _ _ _ _ Hst) as [_ Hrec].
  destruct (Hrec K g HK) as [_ Hm].
  destruct (Hm b info Hb)
    as [_ (i & j & k & id_A & mA & mB & Hij & Hk & Hi & Hj & Hmse & Hle)].
  split; [|exists i, j, k, id_A, mA, mB; auto].
  rewrite Hmse in Hle |- *. now apply mse_leb_within.
Qed.

(** X7: the locations in the result are those of the registry: a group
    carries the location of its representative and every match entry the
    location of its member, each as [str(Path(...))] of the registry
    entry. *)
Theorem recorded_locations_from_registry (os : OS) (imgs : Dict.t matrix)
  (reg : registry) (similarity : Q) (fast : bool)
  (result : Dict.t _search.group) (excluded : list Z)
  (total_count match_count : nat) :
  _search._matches os imgs reg similarity fast =
    Some (result, excluded, total_count, match_count) ->
  forall K g, In (K, g) result ->
    (exists file, Dict.get K reg = Some file /\
                  _search.location g = path_str os file) /\
    forall b info, In (b, info) (_search.matches g) ->
      exists file, Dict.get b reg = Some file /\
                   _search.m_location info = path_str os file.
Proof.
  unfold _search._matches. intros Hrun.
  destruct (_search.search_loop os reg similarity fast imgs) as [st|] eqn:Hst;
    [|discriminate].
  injection Hrun as <- <- <- <-. intros K g HK.
  destruct (search_loop_recorded _ _ _ _ _ _ Hst) as [_ Hrec].
  destruct (Hrec K g HK) as [Hloc Hm]. split; [exact Hloc|].
  intros b info Hb. now destruct (Hm b info Hb) as [Hfile _].
Qed.

Lemma inner_step_excluded (os : OS) (reg : registry) (similarity : Q)
  (a : nat) (id_A : Z) (matrix_A : matrix) (j : nat) (entry_B : Z * matrix)
  (st st' : _search.state) :
  excluded_are_members st ->
  _search.inner_step os reg similarity true a id_A matrix_A st (j, entry_B)
    = Some st' ->
  excluded_are_members st'.
Proof.
  intros [Hnd Hex] Hstep. destruct entry_B as [id_B matrix_B].
  apply inner_step_cases in Hstep.
  destruct Hstep as [[-> _]|[Hlt [k [B' [s [Hm Hon]]]]]]; [now split|].
  destruct (on_match_cases _ _ _ _ _ _ _ _ Hon) as [_ [_ [Hex' _]]].
  destruct (on_match_effect _ _ _ _ _ _ _ _ Hnd Hon) as [Hnd' [_ Hgrp]].
  split; [assumption|]. intros b. rewrite Hex', in_app_iff. simpl. split.
  - intros [Hb|[<-|[]]].
    + apply Hex in Hb. destruct Hb as [K HK]. exists K. apply Hgrp. now left.
    + destruct (target_exists id_A (_search.result st)) as [K HK].
      exists K. apply Hgrp. right. auto.
  - intros [K HK]. apply Hgrp in HK. destruct HK as [HK|[-> _]].
    + left. apply Hex. now exists K.
    + right. now left.
Qed.

(** X8: with fast search the exclusion list returned by the search holds
    exactly the ids that are matched members of some group. *)
Theorem fast_search_excludes_members (os : OS) (imgs : Dict.t matrix)
  (reg : registry) (similarity : Q) (result : Dict.t _search.group)
  (excluded : list Z) (total_count match_count : nat) :
  _search._matches os imgs reg similarity true =
    Some (result, excluded, total_count, match_count) ->
  forall b, In b excluded <-> is_member b result.
Proof.
  unfold _search._matches. intros Hrun.
  destruct (_search.search_loop os reg similarity true imgs) as [st|] eqn:Hst;
    [|discriminate].
  injection Hrun as <- <- <- <-.
  apply (search_loop_inv os reg similarity true imgs excluded_are_members);
    [| |exact Hst].
  - split; [constructor|]. intros b. split; [intros [] | intros [K [g [[] _]]]].
  - intros a id_A matrix_A j entry_B s s' _ _ Hs Hin.
    exact (inner_step_excluded _ _ _ _ _ _ _ _ _ _ Hs Hin).
Qed.

Lemma recorded_scores_within_threshold_witness :
  Float64.within
    (_search.m_mse
       (snd (first_entry (snd (first_group (run_result four_full_run))))))
    (4 # 1) /\
  exists i j k id_A matrix_A matrix_B,
    (i < j)%nat /\ (k <= 3)%nat /\
    nth_error four_pictures i = Some (id_A, matrix_A) /\
    nth_error four_pictures j =
      Some (fst (first_entry (snd (first_group (run_result four_full_run)))),
            matrix_B) /\
    _search.m_mse
      (snd (first_entry (snd (first_group (run_result four_full_run))))) =
    _compute._mse matrix_A (rotated k matrix_B).
Proof.
  apply (recorded_scores_within_threshold plain_os four_pictures (locations 4)
           (4 # 1) false (run_result four_full_run)
           (run_excluded four_full_run) (run_total four_full_run)
           (run_count four_full_run) eq_refl
           (fst (first_group (run_result four_full_run)))
           (snd (first_group (run_result four_full_run)))).
  - vm_compute. left. reflexivity.
  - vm_compute. left. reflexivity.
Defined.

Lemma recorded_locations_from_registry_witness :
  (exists file,
     Dict.get (fst (first_group (run_result seven_fast_run))) (locations 7)
       = Some file /\
     _search.location (snd (first_group (run_result seven_fast_run)))
       = path_str plain_os file) /\
  forall b info,
    In (b, info)
       (_search.matches (snd (first_group (run_result seven_fast_run)))) ->
    exists file, Dict.get b (locations 7) = Some file /\
                 _search.m_location info = path_str plain_os file.
Proof.
  apply (recorded_locations_from_registry plain_os seven_pictures
           (locations 7) (100 # 1) true (run_result seven_fast_run)
           (run_excluded seven_fast_run) (run_total seven_fast_run)
           (run_count seven_fast_run) eq_refl).
  vm_compute. left. reflexivity.
Defined.

Lemma fast_search_excludes_members_witness :
  In (uuid4_value 5) (run_excluded seven_fast_run) <->
  is_member (uuid4_value 5) (run_result seven_fast_run).
Proof.
  apply (fast_search_excludes_members plain_os seven_pictures (locations 7)
           (100 # 1) (run_result seven_fast_run)
           (run_excluded seven_fast_run) (run_total seven_fast_run)
           (run_count seven_fast_run)).
  vm_compute. reflexivity.
Defined.

(** ** The removal list and the match count *)

Lemma count_matches_from (result : Dict.t _search.group) (n : nat) :
  fold_left (fun match_count e =>
               (match_count + length (_search.matches (snd e)))%nat)
            result n =
  (n + list_sum (map (fun e => length (_search.matches (snd e))) result))%nat.
Proof.
  revert n. induction result as [|e result IH]; intros n; simpl; [lia|].
  rewrite IH. lia.
Qed.

Lemma lower_quality_length (os : OS) (result : Dict.t _search.group) :
  forall acc removal,
    foldM (_search.lower_step os) result acc = Some removal ->
    length removal =
    (length acc +
     list_sum (map (fun e => length (_search.matches (snd e))) result))%nat.
Proof.
  induction result as [|e result IH]; intros acc removal H; simpl in H.
  - injection H as <-. simpl. lia.
  - unfold _search.lower_step at 1 in H.
    destruct (_help._check_img_quality os (_search.match_group (snd e)))
      as [ranked|] eqn:Hq; [|discriminate].
    rewrite (IH _ _ H), length_app. simpl.
    destruct (check_img_quality_inv _ _ _ Hq) as [_ ->].
    pose proof (Permutation_length
                  (ranked_perm os (_search.match_group (snd e)))) as Hlen.
    destruct (map snd _) as [|top part]; simpl in *.
    + discriminate.
    + rewrite length_map in Hlen. lia.
Qed.

(** X9: when the removal list is built, it has as many entries as the search
    counted matches: one per member of every group. *)
Theorem removal_list_one_per_match (os : OS) (result : Dict.t _search.group)
  (removal : list string) :
  _search._lower_quality os result = Some removal ->
  length removal = _search.count_matches result.
Proof.
  intros H. unfold _search._lower_quality in H.
  rewrite (lower_quality_length os result [] removal H).
  unfold _search.count_matches. now rewrite count_matches_from.
Qed.

Lemma removal_list_one_per_match_witness :
  length ["a.jpg"; "b.jpg"]%string =
  _search.count_matches [(uuid4_value 1, abc_group)].
Proof.
  apply (removal_list_one_per_match sizes_os [(uuid4_value 1, abc_group)]).
  vm_compute. reflexivity.
Defined.

Lemma lower_quality_none (os : OS) (result : Dict.t _search.group) :
  forall acc,
    foldM (_search.lower_step os) result acc = None <->
    exists entry f, In entry result /\
                    In f (_search.match_group (snd entry)) /\
                    stat_size os f = None.
Proof.
  induction result as [|e result IH]; intros acc; simpl.
  - split; [discriminate | intros (entry & f & [] & _)].
  - unfold _search.lower_step at 1.
    destruct (_help._check_img_quality os (_search.match_group (snd e)))
      as [ranked|] eqn:Hq.
    + rewrite IH. destruct (check_img_quality_inv _ _ _ Hq) as [Hall _]. split.
      * intros (entry & f & Hin & Hf & Hnone). exists entry, f. auto.
      * intros (entry & f & [<-|Hin] & Hf & Hnone).
        -- exfalso. exact (Hall f Hf Hnone).
        -- exists entry, f. auto.
    + split; [intros _|reflexivity].
      unfold _help._check_img_quality in Hq.
      destruct (_help.imgs_sizes os (_search.match_group (snd e))) eqn:Hs;
        [discriminate|].
      destruct (imgs_sizes_none _ _ Hs) as [f [Hf Hnone]].
      exists e, f. auto.
Qed.

(** X10: the removal list cannot be built exactly when [os.stat] raises on
    the location of a representative or of a member of some group. *)
Theorem lower_quality_raises_iff_stat_raises (os : OS)
  (result : Dict.t _search.group) :
  _search._lower_quality os result = None <->
  exists entry f, In entry result /\
                  In f (_search.match_group (snd entry)) /\
                  stat_size os f = None.
Proof. apply lower_quality_none. Qed.

(** ** Preprocessing and the run *)

Lemma imgs_fold_lengths (os : OS) (px_size : Z) :
  forall (l : registry) imgs0 inv0 imgs inv,
    NoDup (Dict.keys l) ->
    (forall k, In k (Dict.keys l) -> Dict.mem k imgs0 = false) ->
    fold_left (_compute.imgs_step os px_size) l (imgs0, inv0) = (imgs, inv) ->
    (length imgs + length inv + length (directory_entries os l) =
     length imgs0 + length inv0 + length l)%nat.
Proof.
  induction l as [|[id file] l IH]; intros imgs0 inv0 imgs inv Hnd Hfresh H.
  - simpl in H. injection H as <- <-. simpl. lia.
  - simpl in Hnd. inversion Hnd as [|? ? Hid Hnd']; subst.
    assert (Hrest : forall k, In k (Dict.keys l) -> Dict.mem k imgs0 = false)
      by (intros k Hk; apply Hfresh; now right).
    simpl in H. unfold directory_entries. simpl.
    destruct (isdir os file) eqn:Hdir.
    + pose proof (IH _ _ _ _ Hnd' Hrest H) as Hlen.
      unfold directory_entries in Hlen. simpl. lia.
    + destruct (image_load os file px_size) as [img|].
      * assert (Hrest' : forall k, In k (Dict.keys l) ->
                           Dict.mem k (Dict.set id img imgs0) = false).
        { intros k Hk. rewrite mem_set, (Hrest k Hk).
          destruct (Z.eqb_spec k id) as [->|]; [contradiction|reflexivity]. }
        pose proof (IH _ _ _ _ Hnd' Hrest' H) as Hlen.
        rewrite length_set, (Hfresh id (or_introl eq_refl)) in Hlen.
        unfold directory_entries in Hlen. lia.
      * pose proof (IH _ _ _ _ Hnd' Hrest H) as Hlen.
        rewrite length_app in Hlen. unfold directory_entries in Hlen.
        simpl in Hlen. lia.
Qed.

Lemma valid_ids_checked (os : OS) (reg : registry) (px_size : Z)
  (imgs : Dict.t matrix) (invalid : list Z) (reg' : registry) :
  NoDup (Dict.keys reg) ->
  _compute._imgs_matrices os reg px_size = (imgs, invalid, reg') ->
  forall id, In id (Dict.keys imgs) ->
    ~ In id invalid /\ exists file, Dict.get id reg' = Some file.
Proof.
  intros Hnd Hrun id Hv. unfold _compute._imgs_matrices in Hrun.
  destruct (fold_left (_compute.imgs_step os px_size) reg ([], []))
    as [imgs0 inv0] eqn:Hfold.
  injection Hrun as <- <- <-.
  apply mem_keys in Hv.
  apply (imgs_fold_valid os px_size _ _ _ _ _ Hfold id) in Hv.
  destruct Hv as [Hv|[file [Hin [_ Hload]]]]; [discriminate|].
  assert (Hnot : ~ In id inv0).
  { intros Hi.
    apply (imgs_fold_invalid os px_size _ _ _ _ _ Hfold id) in Hi.
    destruct Hi as [[]|[file' [Hin' [_ Hnone]]]].
    apply (In_get _ _ _ Hnd) in Hin. apply (In_get _ _ _ Hnd) in Hin'.
    congruence. }
  split; [exact Hnot|]. exists file. rewrite get_pops by assumption.
  destruct (list_mem id inv0) eqn:Hm.
  - apply list_mem_In in Hm. contradiction.
  - now apply In_get.
Qed.

(** X11: preprocessing sorts every registry entry into exactly one of three
    kinds: the images with a matrix, the invalid files, and the directories
    it passes over; no id is both valid and invalid. *)
Theorem preprocessing_partitions_registry (os : OS) (reg : registry)
  (px_size : Z) (imgs : Dict.t matrix) (invalid : list Z) (reg' : registry) :
  NoDup (Dict.keys reg) ->
  _compute._imgs_matrices os reg px_size = (imgs, invalid, reg') ->
  (length imgs + length invalid + length (directory_entries os reg) =
   length reg)%nat /\
  (forall id, In id (Dict.keys imgs) -> ~ In id invalid).
Proof.
  intros Hnd Hrun. split.
  - unfold _compute._imgs_matrices in Hrun.
    destruct (fold_left (_compute.imgs_step os px_size) reg ([], []))
      as [imgs0 inv0] eqn:Hfold.
    injection Hrun as <- <- <-.
    pose proof (imgs_fold_lengths os px_size reg [] [] imgs0 inv0 Hnd
                  (fun _ _ => eq_refl) Hfold) as Hlen.
    simpl in Hlen. exact Hlen.
  - intros id Hv.
    now destruct (valid_ids_checked os reg px_size imgs invalid reg'
                    Hnd Hrun id Hv).
Qed.

Lemma preprocessing_partitions_registry_witness :
  Nat.add (Nat.add (length [(uuid4_value 2, solid 10 [9; 9; 9])])
                   (length [uuid4_value 3]))
          (length (directory_entries mixed_os mixed_registry)) =
  length mixed_registry /\
  (forall id, In id (Dict.keys [(uuid4_value 2, solid 10 [9; 9; 9])]) ->
              ~ In id [uuid4_value 3]).
Proof.
  apply (preprocessing_partitions_registry mixed_os mixed_registry 10
           [(uuid4_value 2, solid 10 [9; 9; 9])] [uuid4_value 3]
           [(uuid4_value 1, "pics/"%string);
            (uuid4_value 2, "pics/a.jpg"%string)]).
  - solve_nodup.
  - vm_compute. reflexivity.
Defined.

Lemma preprocessing_covers (os : OS) (reg : registry) (px_size : Z)
  (imgs : Dict.t matrix) (invalid : list Z) (reg' : registry) :
  NoDup (Dict.keys reg) ->
  _compute._imgs_matrices os reg px_size = (imgs, invalid, reg') ->
  covers reg' imgs.
Proof.
  intros Hnd Hrun id Hid.
  destruct (valid_ids_checked os reg px_size imgs invalid reg' Hnd Hrun id Hid)
    as [_ [file Hfile]].
  congruence.
Qed.

Lemma NoDup_keys_update {V : Type} (e : list (Z * V)) :
  forall d : Dict.t V, NoDup (Dict.keys d) -> NoDup (Dict.keys (Dict.update d e)).
Proof.
  unfold Dict.update. induction e as [|[k v] e IH]; intros d Hnd; simpl;
    [assumption|].
  apply IH. now apply NoDup_keys_set.
Qed.

Lemma id_by_location_nodup (directory_files : list string)
  (id_by_location : option registry) (uuids rest : list Z) (reg : registry) :
  (forall r, id_by_location = Some r -> NoDup (Dict.keys r)) ->
  _compute._id_by_location directory_files id_by_location uuids
    = Some (reg, rest) ->
  NoDup (Dict.keys reg).
Proof.
  intros Hnd H. unfold _compute._id_by_location in H.
  destruct (_compute.draw_ids (length directory_files) [] uuids)
    as [[ids uuids']|]; [|discriminate].
  destruct id_by_location as [r|]; injection H as <- <-.
  - apply NoDup_keys_update. now apply Hnd.
  - unfold Dict.of_pairs. apply NoDup_keys_update. constructor.
Qed.

Lemma later_dirs_nodup (os : OS) (recursive : bool) (directory : list string) :
  forall directory_files (reg : registry) uuids reg' rest,
    NoDup (Dict.keys reg) ->
    dif.later_dirs os recursive directory directory_files reg uuids
      = Some (reg', rest) ->
    NoDup (Dict.keys reg').
Proof.
  induction directory as [|dir directory IH];
    intros directory_files reg uuids reg' rest Hnd H; simpl in H.
  - now injection H as <- <-.
  - destruct (dif.string_mem dir directory_files);
      [exact (IH _ _ _ _ _ Hnd H)|].
    destruct (_compute._id_by_location (list_all_files os dir recursive)
                (Some reg) uuids) as [[reg1 uuids1]|] eqn:Hcall; [|discriminate].
    refine (IH _ _ _ _ _ _ H).
    refine (id_by_location_nodup _ _ _ _ _ _ Hcall).
    intros r Hr. now injection Hr as <-.
Qed.

(** The registry a scan builds has pairwise distinct keys, whatever the
    generator returns. *)
Lemma scan_nodup (os : OS) (recursive : bool) (directory : list string)
  (uuids rest : list Z) (reg : registry) :
  dif.scan os recursive directory uuids = Some (reg, rest) ->
  NoDup (Dict.keys reg).
Proof.
  unfold dif.scan. intros H. destruct directory as [|dir directory];
    [discriminate|].
  destruct (_compute._id_by_location (list_all_files os dir recursive)
              None uuids) as [[reg1 uuids1]|] eqn:Hcall; [|discriminate].
  refine (later_dirs_nodup _ _ _ _ _ _ _ _ _ H).
  refine (id_by_location_nodup _ _ _ _ _ _ Hcall).
  intros r Hr. discriminate.
Qed.

(** X12: in a run the search never misses a registry key: after the scan and
    the preprocessing, every id with a matrix still has its location, and
    the search returns, with [total_count] the number of matrices. *)
Theorem search_after_preprocessing_returns (os : OS) (recursive : bool)
  (directory : list string) (uuids rest : list Z) (reg reg' : registry)
  (px_size : Z) (imgs : Dict.t matrix) (invalid : list Z)
  (similarity : Q) (fast : bool) :
  dif.scan os recursive directory uuids = Some (reg, rest) ->
  _compute._imgs_matrices os reg px_size = (imgs, invalid, reg') ->
  covers reg' imgs /\
  exists result excluded match_count,
    _search._matches os imgs reg' similarity fast =
    Some (result, excluded, length imgs, match_count).
Proof.
  intros Hscan Hpre.
  pose proof (preprocessing_covers os reg px_size imgs invalid reg'
                (scan_nodup _ _ _ _ _ _ Hscan) Hpre) as Hcov.
  split; [exact Hcov|]. unfold _search._matches.
  destruct (search_loop_total os reg' similarity fast imgs Hcov) as [st Hst].
  rewrite Hst. eauto.
Qed.

Lemma search_after_preprocessing_returns_witness :
  covers (snd alias_preprocessed) (fst (fst alias_preprocessed)) /\
  exists result excluded match_count,
    _search._matches alias_os (fst (fst alias_preprocessed))
      (snd alias_preprocessed) (200 # 1) true =
    Some (result, excluded, length (fst (fst alias_preprocessed)),
          match_count).
Proof.
  apply (search_after_preprocessing_returns alias_os true
           ["a"; "./a"]%string alias_uuids [] alias_registry
           (snd alias_preprocessed) 10 (fst (fst alias_preprocessed))
           (snd (fst alias_preprocessed)) (200 # 1) true).
  - vm_compute. reflexivity.
  - vm_compute. reflexivity.
Defined.

Lemma imgs_matrices_lengths (os : OS) (reg : registry) (px_size : Z)
  (imgs : Dict.t matrix) (invalid : list Z) (reg' : registry) :
  NoDup (Dict.keys reg) ->
  _compute._imgs_matrices os reg px_size = (imgs, invalid, reg') ->
  (length imgs + length invalid + length (directory_entries os reg) =
   length reg)%nat.
Proof.
  intros Hnd Hrun. unfold _compute._imgs_matrices in Hrun.
  destruct (fold_left (_compute.imgs_step os px_size) reg ([], []))
    as [imgs0 inv0] eqn:Hfold.
  injection Hrun as <- <- <-.
  pose proof (imgs_fold_lengths os px_size reg [] [] imgs0 inv0 Hnd
                (fun _ _ => eq_refl) Hfold) as Hlen.
  simpl in Hlen. exact Hlen.
Qed.

(** X13: the figures a run returns add up: the images searched, the invalid
    files and the directory entries are all the entries of the scanned
    registry, and the removal list has one entry per counted match. *)
Theorem run_figures_add_up (os : OS) (directory : list string)
  (recursive : bool) (similarity : Q) (px_size : Z) (fast : bool)
  (uuids : list Z) (result : Dict.t _search.group)
  (lower_quality : list string) (total_count match_count : nat)
  (invalid_files : list Z) :
  dif._run os directory recursive similarity px_size fast uuids =
    Some (result, lower_quality, total_count, match_count, invalid_files) ->
  exists reg rest,
    dif.scan os recursive directory uuids = Some (reg, rest) /\
    (total_count + length invalid_files + length (directory_entries os reg) =
     length reg)%nat /\
    match_count = _search.count_matches result /\
    length lower_quality = match_count.
Proof.
  unfold dif._run. intros H.
  destruct (dif.scan os recursive directory uuids) as [[reg rest]|] eqn:Hscan;
    [|discriminate].
  destruct (_compute._imgs_matrices os reg px_size) as [[imgs invalid] reg']
    eqn:Hpre.
  unfold _search._matches in H.
  destruct (_search.search_loop os reg' similarity fast imgs) as [st|];
    [|discriminate].
  destruct (_search._lower_quality os (_search.result st)) as [lower|] eqn:Hlq;
    [|discriminate].
  injection H as <- <- <- <- <-.
  exists reg, rest. split; [reflexivity|]. split; [|split].
  - exact (imgs_matrices_lengths os reg px_size imgs invalid reg'
             (scan_nodup _ _ _ _ _ _ Hscan) Hpre).
  - reflexivity.
  - unfold _search._lower_quality in Hlq.
    rewrite (lower_quality_length os _ [] lower Hlq).
    unfold _search.count_matches. now rewrite count_matches_from.
Qed.

Lemma run_figures_add_up_witness :
  exists reg rest,
    dif.scan alias_os true ["a"; "./a"]%string alias_uuids = Some (reg, rest)
    /\ Nat.add (Nat.add 2 (length (@nil Z)))
               (length (directory_entries alias_os reg)) = length reg
    /\ 1%nat = _search.count_matches (run5_result alias_run)
    /\ length ["a/x.jpg"%string] = 1%nat.
Proof.
  apply (run_figures_add_up alias_os ["a"; "./a"]%string true (200 # 1) 10
           true alias_uuids (run5_result alias_run) ["a/x.jpg"%string]
           2 1 []).
  vm_compute. reflexivity.
Defined.

(** X14: a run returns as soon as the scan does and [os.stat] raises on no
    file: neither the preprocessing nor the search raises. *)
Theorem run_returns (os : OS) (directory : list string) (recursive : bool)
  (similarity : Q) (px_size : Z) (fast : bool) (uuids rest : list Z)
  (reg : registry) :
  dif.scan os recursive directory uuids = Some (reg, rest) ->
  (forall f, stat_size os f <> None) ->
  exists out,
    dif._run os directory recursive similarity px_size fast uuids = Some out.
Proof.
  intros Hscan Hstat. unfold dif._run. rewrite Hscan.
  destruct (_compute._imgs_matrices os reg px_size) as [[imgs invalid] reg']
    eqn:Hpre.
  pose proof (preprocessing_covers os reg px_size imgs invalid reg'
                (scan_nodup _ _ _ _ _ _ Hscan) Hpre) as Hcov.
  unfold _search._matches.
  destruct (search_loop_total os reg' similarity fast imgs Hcov) as [st Hst].
  rewrite Hst.
  destruct (_search._lower_quality os (_search.result st)) as [lower|] eqn:Hlq;
    [eauto|].
  apply lower_quality_none in Hlq. destruct Hlq as (entry & f & _ & _ & Hnone).
  exfalso. exact (Hstat f Hnone).
Qed.

Lemma run_returns_witness :
  exists out,
    dif._run two_dirs_os ["a"; "b"]%string true (200 # 1) 10 true
      repeating_uuids = Some out.
Proof.
  apply (run_returns two_dirs_os ["a"; "b"]%string true (200 # 1) 10 true
           repeating_uuids []
           [(uuid4_value 1, "a/"%string); (uuid4_value 2, "b/y.jpg"%string);
            (uuid4_value 3, "b/"%string)]).
  - vm_compute. reflexivity.
  - intros f. discriminate.
Defined.

(** ** The registry, continued *)

Lemma get_update {V : Type} (e : list (Z * V)) :
  forall (d : Dict.t V) (k : Z),
    NoDup (Dict.keys e) ->
    Dict.get k (Dict.update d e) =
    match Dict.get k e with
    | Some v => Some v
    | None => Dict.get k d
    end.
Proof.
  unfold Dict.update. induction e as [|[k0 v0] e IH]; intros d k Hnd; simpl;
    [reflexivity|].
  inversion Hnd as [|? ? Hk0 Hnd']; subst. rewrite (IH _ _ Hnd').
  destruct (Z.eqb_spec k k0) as [->|Hne].
  - destruct (Dict.get k0 e) eqn:Hg.
    + exfalso. apply Hk0. apply mem_keys, mem_get. congruence.
    + apply get_set_eq.
  - destruct (Dict.get k e); [reflexivity|]. now apply get_set_neq.
Qed.

Lemma combine_nth_In {A B : Type} (l : list A) (l' : list B) (i : nat)
  (a : A) (b : B) :
  nth_error l i = Some a -> nth_error l' i = Some b -> In (a, b) (combine l l').
Proof.
  revert l' i. induction l as [|x l IH]; intros [|y l'] [|i] Ha Hb;
    simpl in *; try discriminate.
  - injection Ha as ->. injection Hb as ->. now left.
  - right. now apply (IH l' i).
Qed.

(** X15: after a call that returns, every location of the batch is found
    under the id it was given, the ids of the batch are pairwise distinct,
    and an id that the batch did not draw keeps the entry it had. *)
Theorem batch_lookup (directory_files : list string)
  (id_by_location : option registry) (uuids rest : list Z) (reg' : registry) :
  _compute._id_by_location directory_files id_by_location uuids
    = Some (reg', rest) ->
  exists img_ids,
    NoDup img_ids /\ length img_ids = length directory_files /\
    (forall i id file,
       nth_error img_ids i = Some id ->
       nth_error directory_files i = Some file ->
       Dict.get id reg' = Some file) /\
    (forall k, ~ In k img_ids ->
       Dict.get k reg' =
       match id_by_location with
       | Some reg => Dict.get k reg
       | None => None
       end).
Proof.
  unfold _compute._id_by_location. intros H.
  destruct (_compute.draw_ids (length directory_files) [] uuids)
    as [[ids uuids']|] eqn:Hd; [|discriminate].
  destruct (draw_ids_distinct _ _ _ _ _ Hd (NoDup_nil Z)) as [Hnd Hlen].
  simpl in Hlen.
  assert (Hkeys : Dict.keys (combine ids directory_files) = ids)
    by now apply keys_combine.
  assert (Hpairs : Dict.of_pairs (combine ids directory_files) =
                   combine ids directory_files).
  { unfold Dict.of_pairs. rewrite update_fresh; [reflexivity | |].
    - now rewrite Hkeys.
    - intros k _ []. }
  rewrite Hpairs in H.
  assert (Hin : forall i id file,
             nth_error ids i = Some id ->
             nth_error directory_files i = Some file ->
             Dict.get id (combine ids directory_files) = Some file).
  { intros i id file Hi Hf. apply In_get; [now rewrite Hkeys|].
    exact (combine_nth_In _ _ i id file Hi Hf). }
  assert (Hout : forall k, ~ In k ids ->
             Dict.get k (combine ids directory_files) = None).
  { intros k Hk. destruct (Dict.get k (combine ids directory_files)) eqn:Hg;
      [|reflexivity].
    exfalso. apply Hk. rewrite <- Hkeys. apply mem_keys, mem_get. congruence. }
  exists ids. split; [assumption|]. split; [assumption|].
  destruct id_by_location as [reg|]; injection H as <- <-.
  - split.
    + intros i id file Hi Hf.
      rewrite get_update by now rewrite Hkeys.
      now rewrite (Hin i id file Hi Hf).
    + intros k Hk. rewrite get_update by now rewrite Hkeys.
      now rewrite (Hout k Hk).
  - split; [exact Hin | exact Hout].
Qed.

Lemma batch_lookup_witness :
  exists img_ids,
    NoDup img_ids /\ length img_ids = length ["b/"; "b/y.jpg"]%string /\
    (forall i id file,
       nth_error img_ids i = Some id ->
       nth_error ["b/"; "b/y.jpg"]%string i = Some file ->
       Dict.get id [(uuid4_value 1, "a/"%string);
                    (uuid4_value 2, "b/y.jpg"%string);
                    (uuid4_value 3, "b/"%string)] = Some file) /\
    (forall k, ~ In k img_ids ->
       Dict.get k [(uuid4_value 1, "a/"%string);
                   (uuid4_value 2, "b/y.jpg"%string);
                   (uuid4_value 3, "b/"%string)] =
       Dict.get k [(uuid4_value 1, "a/"%string);
                   (uuid4_value 2, "a/x.jpg"%string)]).
Proof.
  apply (batch_lookup ["b/"; "b/y.jpg"]%string
           (Some [(uuid4_value 1, "a/"%string);
                  (uuid4_value 2, "a/x.jpg"%string)])
           [uuid4_value 3; uuid4_value 2] []).
  vm_compute. reflexivity.
Defined.

(** ** The scan registers every listed location *)

Lemma combine_app_same {A B : Type} (l1 l2 : list A) (l1' l2' : list B) :
  length l1 = length l1' ->
  combine (l1 ++ l2) (l1' ++ l2') = combine l1 l1' ++ combine l2 l2'.
Proof.
  revert l1'. induction l1 as [|x l1 IH]; intros [|y l1'] H; simpl in *;
    try discriminate; [reflexivity|].
  f_equal. apply IH. lia.
Qed.

Lemma firstn_add {A : Type} (n m : nat) (l : list A) :
  firstn (n + m) l = firstn n l ++ firstn m (skipn n l).
Proof.
  revert l. induction n as [|n IH]; intros l; [reflexivity|].
  destruct l as [|x l]; simpl; [now rewrite firstn_nil|].
  f_equal. apply IH.
Qed.

Lemma skipn_add {A : Type} (n m : nat) (l : list A) :
  skipn m (skipn n l) = skipn (n + m) l.
Proof.
  revert l. induction n as [|n IH]; intros l; [reflexivity|].
  destruct l as [|x l]; simpl; [now rewrite skipn_nil|]. apply IH.
Qed.

(** A generator that never repeats a value, and has values enough, hands
    its next [n] values to the batch. *)
Lemma draw_ids_supply (n : nat) :
  forall img_ids uuids,
    NoDup (img_ids ++ uuids) -> (n <= length uuids)%nat ->
    _compute.draw_ids n img_ids uuids =
    Some (img_ids ++ firstn n uuids, skipn n uuids).
Proof.
  induction n as [|n IH]; intros img_ids uuids Hnd Hlen; simpl.
  - now rewrite app_nil_r.
  - destruct uuids as [|u uuids]; simpl in *; [lia|].
    assert (Hu : list_mem u img_ids = false).
    { destruct (list_mem u img_ids) eqn:Hm; [|reflexivity].
      apply list_mem_In in Hm. apply NoDup_remove_2 in Hnd.
      exfalso. apply Hnd, in_app_iff. now left. }
    rewrite Hu, IH; [| now rewrite <- app_assoc | lia].
    now rewrite <- app_assoc.
Qed.

Lemma id_by_location_supply (directory_files : list string)
  (id_by_location : option registry) (uuids : list Z) :
  let reg0 := match id_by_location with Some r => r | None => [] end in
  let n := length directory_files in
  NoDup (Dict.keys reg0 ++ uuids) -> (n <= length uuids)%nat ->
  _compute._id_by_location directory_files id_by_location uuids =
  Some (reg0 ++ combine (firstn n uuids) directory_files, skipn n uuids).
Proof.
  intros reg0 n Hnd Hlen. subst n.
  assert (Hcall : exists reg,
    _compute._id_by_location directory_files id_by_location uuids =
    Some (reg, skipn (length directory_files) uuids)).
  { unfold _compute._id_by_location.
    rewrite (draw_ids_supply (length directory_files) [] uuids
               (NoDup_app_remove_l _ _ Hnd) Hlen).
    destruct id_by_location; eauto. }
  destruct Hcall as [reg Hcall]. rewrite Hcall.
  destruct (id_by_location_no_repeat _ _ _ _ _ Hnd Hcall)
    as [ids [Hu [Hids ->]]].
  assert (Hfirst : firstn (length directory_files) uuids = ids).
  { rewrite Hu at 1. rewrite <- Hids.
    rewrite firstn_app, Nat.sub_diag, firstn_all. simpl.
    now rewrite app_nil_r. }
  now rewrite Hfirst.
Qed.

Lemma later_dirs_supply (os : OS) (recursive : bool)
  (directory : list string) :
  forall directory_files (reg : registry) uuids,
    let files := later_listings os recursive directory directory_files in
    NoDup (Dict.keys reg ++ uuids) -> (length files <= length uuids)%nat ->
    dif.later_dirs os recursive directory directory_files reg uuids =
    Some (reg ++ combine (firstn (length files) uuids) files,
          skipn (length files) uuids).
Proof.
  induction directory as [|dir directory IH];
    intros directory_files reg uuids files Hnd Hlen; subst files; simpl in *.
  - now rewrite app_nil_r.
  - destruct (dif.string_mem dir directory_files); [now apply IH|].
    set (listing := list_all_files os dir recursive) in *.
    set (rest := later_listings os recursive directory listing) in *.
    rewrite length_app in *.
    rewrite (id_by_location_supply listing (Some reg) uuids Hnd ltac:(lia)).
    assert (Hfirst : length (firstn (length listing) uuids) = length listing)
      by (rewrite length_firstn; lia).
    rewrite IH.
    + fold rest. rewrite skipn_add, firstn_add, combine_app_same by assumption.
      now rewrite <- app_assoc.
    + unfold Dict.keys. rewrite map_app. fold (Dict.keys reg).
      fold (Dict.keys (combine (firstn (length listing) uuids) listing)).
      rewrite keys_combine by assumption.
      now rewrite <- app_assoc, firstn_skipn.
    + fold rest. rewrite length_skipn. lia.
Qed.

(** X16: with a generator that never repeats a value, and has a value for
    every listed location, the scan returns, and the registry it returns
    holds one entry per listed location, in the order of the listings,
    under the values of the generator in the order it returned them; the
    listings are that of the first directory and that of every later
    directory that is not an entry of the listing scanned before it. *)
Theorem scan_registers_every_location (os : OS) (recursive : bool)
  (directory : list string) (uuids : list Z) :
  directory <> [] ->
  NoDup uuids ->
  (length (scanned_files os recursive directory) <= length uuids)%nat ->
  dif.scan os recursive directory uuids =
  Some (combine (firstn (length (scanned_files os recursive directory)) uuids)
                (scanned_files os recursive directory),
        skipn (length (scanned_files os recursive directory)) uuids).
Proof.
  intros Hdir Hnd Hlen. destruct directory as [|dir directory];
    [contradiction|].
  unfold dif.scan, scanned_files in *.
  set (listing := list_all_files os dir recursive) in *.
  set (rest := later_listings os recursive directory listing) in *.
  rewrite length_app in *.
  rewrite (id_by_location_supply listing None uuids Hnd ltac:(lia)).
  assert (Hfirst : length (firstn (length listing) uuids) = length listing)
    by (rewrite length_firstn; lia).
  simpl app. rewrite later_dirs_supply.
  - fold rest. rewrite skipn_add, firstn_add, combine_app_same by assumption.
    reflexivity.
  - rewrite keys_combine by assumption. now rewrite firstn_skipn.
  - fold rest. rewrite length_skipn. lia.
Qed.

Lemma scan_registers_every_location_witness :
  dif.scan two_dirs_os true ["a"; "b"]%string
    [uuid4_value 1; uuid4_value 2; uuid4_value 3; uuid4_value 4;
     uuid4_value 5] =
  Some ([(uuid4_value 1, "a/"%string); (uuid4_value 2, "a/x.jpg"%string);
         (uuid4_value 3, "b/"%string); (uuid4_value 4, "b/y.jpg"%string)],
        [uuid4_value 5]).
Proof.
  apply (scan_registers_every_location two_dirs_os true ["a"; "b"]%string
           [uuid4_value 1; uuid4_value 2; uuid4_value 3; uuid4_value 4;
            uuid4_value 5]).
  - discriminate.
  - solve_nodup.
  - vm_compute. lia.
Defined.

(** ** Validation and deletion *)

Lemma nodup_length_le {A : Type} (dec : forall x y : A, {x = y} + {x <> y})
  (l : list A) : (length (nodup dec l) <= length l)%nat.
Proof.
  induction l as [|x l IH]; simpl; [lia|].
  destruct (in_dec dec x l); simpl; lia.
Qed.

(** X17: the check of the directory list passes exactly when no directory
    string is given twice. *)
Theorem directory_unique_iff (directory : list string) :
  _validate._directory_unique directory = Some tt <-> NoDup directory.
Proof.
  unfold _validate._directory_unique. split.
  - intros H.
    destruct (Nat.eqb_spec (length (nodup string_dec directory))
                (length directory)) as [Hlen|]; [|discriminate].
    clear H. induction directory as [|x l IH]; [constructor|].
    simpl in Hlen. destruct (in_dec string_dec x l) as [Hin|Hnin].
    + pose proof (nodup_length_le string_dec l). simpl in Hlen. lia.
    + simpl in Hlen. constructor; [assumption|]. apply IH. lia.
  - intros Hnd. rewrite (nodup_fixed_point string_dec Hnd).
    now rewrite Nat.eqb_refl.
Qed.

Lemma remove_all_count (D : Disk) (files : list string) :
  forall (d : disk D) (n : nat),
    snd (_help.remove_all D files d n) = (n + length (removed D files d))%nat.
Proof.
  induction files as [|file files IH]; intros d n; simpl; [lia|].
  destruct (remove D d file) as [d'|]; rewrite IH; simpl; lia.
Qed.

(** X18: when the user does not answer [y] at the prompt nothing is removed
    and no count is reported; otherwise the count of the closing message is
    one more than the number of files that [os.remove] removed. *)
Theorem delete_count_one_more (D : Disk) (lower_quality_set : list string)
  (silent_del : bool) (usr : string) (d : disk D) :
  (silent_del = false -> usr <> "y"%string ->
   _help._delete_imgs D lower_quality_set silent_del usr d = (d, None)) /\
  (silent_del = true \/ usr = "y"%string ->
   snd (_help._delete_imgs D lower_quality_set silent_del usr d) =
   Some (S (length (removed D lower_quality_set d)))).
Proof.
  unfold _help._delete_imgs. split.
  - intros -> Hne. simpl.
    destruct (String.eqb_spec usr "y"); [contradiction | reflexivity].
  - intros Hgo.
    assert (Hcount : snd (let '(d', delete_count) :=
                            _help.remove_all D lower_quality_set d 1 in
                          (d', Some delete_count)) =
                     Some (S (length (removed D lower_quality_set d)))).
    { pose proof (remove_all_count D lower_quality_set d 1) as Hc.
      destruct (_help.remove_all D lower_quality_set d 1) as [d' n].
      simpl in *. now rewrite Hc. }
    destruct silent_del; simpl; [exact Hcount|].
    destruct Hgo as [Hgo|Hy]; [discriminate|]. subst usr. simpl.
    exact Hcount.
Qed.

Lemma delete_count_one_more_witness :
  snd (_help._delete_imgs listed_disk ["b.jpg"; "gone.jpg"]%string true ""
         ["a.jpg"; "b.jpg"]%string) =
  Some (S (length (removed listed_disk ["b.jpg"; "gone.jpg"]%string
                     ["a.jpg"; "b.jpg"]%string))).
Proof.
  apply (delete_count_one_more listed_disk ["b.jpg"; "gone.jpg"]%string true
           "" ["a.jpg"; "b.jpg"]%string).
  now left.
Defined.

(** ** Fast search, continued *)

Lemma inner_step_fast (os : OS) (reg : registry) (similarity : Q)
  (imgs : Dict.t matrix) (a : nat) (id_A : Z) (matrix_A : matrix) (j : nat)
  (entry_B : Z * matrix) (st st' : _search.state) :
  NoDup (Dict.keys imgs) ->
  nth_error imgs a = Some (id_A, matrix_A) ->
  nth_error imgs j = Some entry_B ->
  pruning similarity imgs a id_A j st /\
  grouped similarity imgs a j st /\ first_scores similarity imgs st ->
  _search.inner_step os reg similarity true a id_A matrix_A st (j, entry_B)
    = Some st' ->
  pruning similarity imgs a id_A (S j) st' /\
  grouped similarity imgs a (S j) st' /\ first_scores similarity imgs st'.
Proof.
  intros Hids Ha Hj (Hpr & Hgr & Hsc) Hstep.
  split; [exact (inner_step_pruning _ _ _ _ _ _ _ _ _ _ _ Hids Ha Hj Hpr Hstep)|].
  destruct entry_B as [id_B matrix_B].
  destruct Hpr as (Hnd & P1 & P2 & P3 & P4 & P5 & P6 & P7).
  assert (HidA : id_at imgs a = Some id_A) by (unfold id_at; now rewrite Ha).
  assert (HidB : id_at imgs j = Some id_B) by (unfold id_at; now rewrite Hj).
  apply inner_step_cases in Hstep.
  destruct Hstep as [[-> Hskip]|[Hlt [turns [B' [s [Hm Hon]]]]]].
  - split; [|assumption].
    intros k i K b Hk Hi Hki Hhit Hpos.
    destruct Hpos as [Hpos|[-> Hij]]; [apply (Hgr k i K b); auto|].
    destruct (Nat.eq_dec i j) as [->|Hne];
      [|apply (Hgr a i K b); auto; right; split; [reflexivity|lia]].
    exfalso. destruct Hhit as (x & mx & y & my & Hx & Hy & Hxy).
    rewrite Ha in Hx. rewrite Hj in Hy.
    injection Hx as <- <-. injection Hy as <- <-.
    destruct Hskip as [Hskip|Hskip]; [lia | contradiction].
  - assert (HnoA : ~ is_member id_A (_search.result st))
      by (intros HmA; apply P7, P1, HmA).
    destruct (on_match_effect _ _ _ _ _ _ _ _ Hnd Hon) as [Hnd' [Hkeys Hgrp]].
    assert (Hgrp' : forall b K, in_group b K (_search.result st) \/
                                (b = id_B /\ K = id_A) ->
                                in_group b K (_search.result st')).
    { intros b K [H|[-> ->]]; apply Hgrp; [now left|].
      right. split; [reflexivity|]. right. auto. }
    split.
    + intros k i K b Hk Hi Hki Hhit Hpos.
      apply Hgrp'. destruct Hpos as [[Hka HK]|[-> Hij]].
      * left. apply (Hgr k i K b); auto. left. split; [assumption|].
        apply Hkeys in HK. destruct HK as [HK|[-> _]]; [assumption|].
        pose proof (id_at_inj imgs k a id_A Hids Hk HidA). lia.
      * assert (K = id_A) by congruence. subst K.
        destruct (Nat.eq_dec i j) as [->|Hne].
        -- right. split; [congruence | reflexivity].
        -- left. apply (Hgr a i id_A b); auto. right. split; [reflexivity|lia].
    + destruct (on_match_cases _ _ _ _ _ _ _ _ Hon)
        as [file_B [_ [_ Hcases]]].
      cbv zeta in Hcases.
      set (info := {| _search.m_location := path_str os file_B;
                      _search.m_mse := s |}) in *.
      assert (Hnew : forall b i0, (b, i0) = (id_B, info) ->
                exists k i matrix_K matrix_b turns0 turned,
                  (k < i)%nat /\
                  nth_error imgs k = Some (id_A, matrix_K) /\
                  nth_error imgs i = Some (b, matrix_b) /\
                  _search.match_rotations matrix_K matrix_b similarity =
                    Some (turns0, turned, _search.m_mse i0)).
      { intros b i0 Heq. injection Heq as -> ->.
        exists a, j, matrix_A, matrix_B, turns, B'. auto. }
      intros K g' b i0 Hin Hb.
      destruct Hcases as [[Hmem _]|[[_ [_ Hr]]|[_ [_ [file_A [_ Hr]]]]]];
        [contradiction | |]; rewrite Hr in Hin.
      * apply (add_to_group_In _ _ _ _ _ _ Hnd) in Hin.
        destruct Hin as [g [Hin ->]].
        destruct (Z.eqb_spec K id_A) as [->|Hne];
          [|exact (Hsc K g b i0 Hin Hb)].
        simpl in Hb. apply In_set in Hb.
        destruct Hb as [Heq|Hb]; [exact (Hnew b i0 Heq)|].
        exact (Hsc id_A g b i0 Hin Hb).
      * apply in_app_iff in Hin. destruct Hin as [Hin|[Heq|[]]];
          [exact (Hsc K g' b i0 Hin Hb)|].
        injection Heq as <- <-. simpl in Hb. destruct Hb as [Heq|[]].
        exact (Hnew b i0 (eq_sym Heq)).
Qed.

Lemma outer_step_fast (os : OS) (reg : registry) (similarity : Q)
  (imgs : Dict.t matrix) (a : nat) (entry_A : Z * matrix)
  (st st' : _search.state) :
  NoDup (Dict.keys imgs) ->
  nth_error imgs a = Some entry_A ->
  pruned similarity imgs a st /\
  grouped similarity imgs a 0 st /\ first_scores similarity imgs st ->
  _search.outer_step os reg similarity true imgs st (a, entry_A) = Some st' ->
  pruned similarity imgs (S a) st' /\
  grouped similarity imgs (S a) 0 st' /\ first_scores similarity imgs st'.
Proof.
  intros Hids Ha (Hpr & Hgr & Hsc) Hstep.
  split; [exact (outer_step_pruned _ _ _ _ _ _ _ _ Hids Ha Hpr Hstep)|].
  destruct entry_A as [id_A matrix_A].
  assert (HidA : id_at imgs a = Some id_A) by (unfold id_at; now rewrite Ha).
  destruct Hpr as (Hnd & P1 & P2 & P3 & P4 & P5).
  unfold _search.outer_step in Hstep.
  destruct (list_mem id_A (_search.exclude_from_search st)) eqn:Hex.
  - injection Hstep as <-. apply list_mem_In in Hex. split; [|assumption].
    intros k i K b Hk Hi Hki Hhit [[Hka HK]|[_ Hi0]]; [|lia].
    destruct (Nat.eq_dec k a) as [->|Hne].
    + exfalso. apply (P5 K HK). congruence.
    + apply (Hgr k i K b); auto. left. split; [lia|assumption].
  - assert (Hstart : pruning similarity imgs a id_A 0 st /\
                     grouped similarity imgs a 0 st /\
                     first_scores similarity imgs st).
    { split; [|split; assumption]. repeat split; auto.
      - intros K HK. destruct (P2 K HK) as [k [Hk Hid]]. exists k.
        split; [lia|auto].
      - intros i b Hi. lia.
      - rewrite <- list_mem_In. congruence. }
    assert (Hend : pruning similarity imgs a id_A (length imgs) st' /\
                   grouped similarity imgs a (length imgs) st' /\
                   first_scores similarity imgs st').
    { refine (foldM_enumerate_inv _
                (fun j s => pruning similarity imgs a id_A j s /\
                            grouped similarity imgs a j s /\
                            first_scores similarity imgs s)
                imgs st st' Hstart _ Hstep).
      intros j x s s' Hj Hs Hin.
      exact (inner_step_fast _ _ _ _ _ _ _ _ _ _ _ Hids Ha Hj Hs Hin). }
    destruct Hend as (_ & Hgr' & Hsc'). split; [|assumption].
    intros k i K b Hk Hi Hki Hhit [[Hka HK]|[_ Hi0]]; [|lia].
    apply (Hgr' k i K b); auto.
    destruct (Nat.eq_dec k a) as [->|Hne].
    + right. split; [reflexivity|].
      destruct (hit_bound _ _ _ _ Hhit) as [_ Hb]. exact Hb.
    + left. split; [lia|assumption].
Qed.

Lemma search_loop_fast (os : OS) (reg : registry) (similarity : Q)
  (imgs : Dict.t matrix) (st : _search.state) :
  NoDup (Dict.keys imgs) ->
  _search.search_loop os reg similarity true imgs = Some st ->
  pruned similarity imgs (length imgs) st /\
  grouped similarity imgs (length imgs) 0 st /\
  first_scores similarity imgs st.
Proof.
  intros Hids H.
  refine (foldM_enumerate_inv _
            (fun a s => pruned similarity imgs a s /\
                        grouped similarity imgs a 0 s /\
                        first_scores similarity imgs s)
            imgs _ st _ _ H).
  - split; [|split].
    + repeat split; simpl; try constructor; try easy.
      * intros b [K [g [[] _]]].
      * intros b K [g [[] _]].
    + intros k i K b _ _ _ _ [[_ []]|[_ Hi]]. lia.
    + intros K g b info [].
  - intros a x s s' Ha Hs Hstep.
    exact (outer_step_fast _ _ _ _ _ _ _ _ Hids Ha Hs Hstep).
Qed.

(** X19: with fast search a group holds exactly the images, enumerated
    after its representative, that pass the match test against the
    representative. *)
Theorem fast_search_groups (os : OS) (imgs : Dict.t matrix) (reg : registry)
  (similarity : Q) (result : Dict.t _search.group) (excluded : list Z)
  (total_count match_count : nat) :
  NoDup (Dict.keys imgs) ->
  _search._matches os imgs reg similarity true =
    Some (result, excluded, total_count, match_count) ->
  forall b K,
    in_group b K result <->
    In K (Dict.keys result) /\
    exists k i, (k < i)%nat /\ id_at imgs k = Some K /\
                id_at imgs i = Some b /\ hit similarity imgs k i.
Proof.
  intros Hids Hrun. unfold _search._matches in Hrun.
  destruct (_search.search_loop os reg similarity true imgs) as [st|] eqn:Hst;
    [|discriminate].
  injection Hrun as <- <- <- <-.
  destruct (search_loop_fast _ _ _ _ _ Hids Hst)
    as ((_ & _ & _ & P3 & _) & Hgr & _).
  intros b K. split.
  - intros HK. split; [exact (in_group_key _ _ _ HK) | exact (P3 b K HK)].
  - intros [HK (k & i & Hki & Hk & Hi & Hhit)].
    apply (Hgr k i K b); auto. left. split; [|assumption].
    destruct (hit_bound _ _ _ _ Hhit) as [Hb _]. exact Hb.
Qed.

(** X20: with fast search the first match wins: the score recorded for a
    member is the score at which the match test accepted it against the
    representative of its group. *)
Theorem fast_search_scores (os : OS) (imgs : Dict.t matrix) (reg : registry)
  (similarity : Q) (result : Dict.t _search.group) (excluded : list Z)
  (total_count match_count : nat) :
  NoDup (Dict.keys imgs) ->
  _search._matches os imgs reg similarity true =
    Some (result, excluded, total_count, match_count) ->
  forall K g b info,
    In (K, g) result -> In (b, info) (_search.matches g) ->
    exists k i matrix_K matrix_b turns turned,
      (k < i)%nat /\
      nth_error imgs k = Some (K, matrix_K) /\
      nth_error imgs i = Some (b, matrix_b) /\
      _search.match_rotations matrix_K matrix_b similarity =
        Some (turns, turned, _search.m_mse info).
Proof.
  intros Hids Hrun. unfold _search._matches in Hrun.
  destruct (_search.search_loop os reg similarity true imgs) as [st|] eqn:Hst;
    [|discriminate].
  injection Hrun as <- <- <- <-.
  destruct (search_loop_fast _ _ _ _ _ Hids Hst) as (_ & _ & Hsc).
  exact Hsc.
Qed.

Lemma fast_search_groups_witness :
  in_group (uuid4_value 5) (uuid4_value 3) (run_result seven_fast_run) <->
  In (uuid4_value 3) (Dict.keys (run_result seven_fast_run)) /\
  exists k i, (k < i)%nat /\ id_at seven_pictures k = Some (uuid4_value 3) /\
              id_at seven_pictures i = Some (uuid4_value 5) /\
              hit (100 # 1) seven_pictures k i.
Proof.
  apply (fast_search_groups plain_os seven_pictures (locations 7) (100 # 1)
           (run_result seven_fast_run) (run_excluded seven_fast_run)
           (run_total seven_fast_run) (run_count seven_fast_run)).
  - solve_nodup.
  - vm_compute. reflexivity.
Defined.

Lemma fast_search_scores_witness :
  exists k i matrix_K matrix_b turns turned,
    (k < i)%nat /\
    nth_error seven_pictures k =
      Some (fst (first_group (run_result seven_fast_run)), matrix_K) /\
    nth_error seven_pictures i =
      Some (fst (first_entry (snd (first_group (run_result seven_fast_run)))),
            matrix_b) /\
    _search.match_rotations matrix_K matrix_b (100 # 1) =
      Some (turns, turned,
            _search.m_mse
              (snd (first_entry
                      (snd (first_group (run_result seven_fast_run)))))).
Proof.
  apply (fast_search_scores plain_os seven_pictures (locations 7) (100 # 1)
           (run_result seven_fast_run) (run_excluded seven_fast_run)
           (run_total seven_fast_run) (run_count seven_fast_run)
           ltac:(solve_nodup) eq_refl
           (fst (first_group (run_result seven_fast_run)))
           (snd (first_group (run_result seven_fast_run)))).
  - vm_compute. left. reflexivity.
  - vm_compute. left. reflexivity.
Defined.

(** ** The match test does not depend on the order of the pair *)

Lemma sum_upto_S (n : nat) (f : nat -> Z) :
  sum_upto (S n) f = sum_upto n f + f n.
Proof. reflexivity. Qed.

Lemma sum_upto_shift (n : nat) (f : nat -> Z) :
  sum_upto (S n) f = f O + sum_upto n (fun i => f (S i)).
Proof.
  induction n as [|n IH]; [simpl; lia|].
  rewrite sum_upto_S, IH, (sum_upto_S n (fun i => f (S i))). lia.
Qed.

Lemma sum_upto_zero (n : nat) : sum_upto n (fun _ => 0) = 0.
Proof.
  induction n as [|n IH]; [reflexivity|]. rewrite sum_upto_S, IH. lia.
Qed.

Lemma sum_upto_add (n : nat) (f g : nat -> Z) :
  sum_upto n (fun i => f i + g i) = sum_upto n f + sum_upto n g.
Proof.
  induction n as [|n IH]; [reflexivity|]. rewrite !sum_upto_S, IH. lia.
Qed.

Lemma sum_upto_swap (n m : nat) (g : nat -> nat -> Z) :
  sum_upto n (fun i => sum_upto m (fun j => g i j)) =
  sum_upto m (fun j => sum_upto n (fun i => g i j)).
Proof.
  induction n as [|n IH].
  - simpl. symmetry. apply sum_upto_zero.
  - rewrite sum_upto_S, IH, <- sum_upto_add.
    apply sum_upto_ext. intros j _. now rewrite sum_upto_S.
Qed.

Lemma sum_upto_rev (n : nat) (h : nat -> Z) :
  sum_upto n (fun i => h (n - 1 - i)%nat) = sum_upto n h.
Proof.
  induction n as [|n IH]; [reflexivity|].
  rewrite sum_upto_shift, sum_upto_S.
  replace (S n - 1 - 0)%nat with n by lia.
  rewrite <- IH, Z.add_comm. f_equal.
  apply sum_upto_ext. intros i Hi. f_equal. lia.
Qed.

Lemma rotate_element (S c : nat) (img : matrix) (i j k : nat) :
  has_shape S S c img -> (i < S)%nat -> (j < S)%nat ->
  element (_help._rotate_img img) i j k = element img j (S - 1 - i) k.
Proof.
  intros Hs Hi Hj. unfold element.
  now rewrite (rotate_pixel S c img i j Hs Hi Hj).
Qed.

(** Turning both grids leaves the score as it is. *)
Lemma mse_rotate_both (S c : nat) (A B : matrix) :
  has_shape S S c A -> has_shape S S c B ->
  _compute._mse (_help._rotate_img A) (_help._rotate_img B) =
  _compute._mse A B.
Proof.
  intros HA HB.
  pose proof (rotate_has_shape S c A HA) as HA'.
  pose proof (rotate_has_shape S c B HB) as HB'.
  unfold _compute._mse.
  rewrite (np_sum_by_index S c _ _ HA' HB'), (np_sum_by_index S c A B HA HB).
  assert (Hshape : (shape0 (_help._rotate_img A) * shape1 (_help._rotate_img A)
                    = shape0 A * shape1 A)%nat).
  { unfold shape0. destruct HA as [HlA HrA], HA' as [HlA' HrA'].
    rewrite HlA, HlA'. f_equal.
    destruct S as [|S].
    - destruct A; [|discriminate].
      destruct (_help._rotate_img []); [reflexivity|discriminate].
    - rewrite (has_shape_shape1 (Datatypes.S S) (Datatypes.S S) c A
                 (conj HlA HrA) ltac:(lia)).
      apply (has_shape_shape1 (Datatypes.S S) (Datatypes.S S) c _
               (conj HlA' HrA')). lia. }
  rewrite Hshape. f_equal.
  transitivity
    (sum_upto S (fun i => sum_upto S (fun j =>
       sum_upto c (fun k =>
         (element A j (S - 1 - i) k - element B j (S - 1 - i) k) ^ 2)))).
  { apply sum_upto_ext. intros i Hi. apply sum_upto_ext. intros j Hj.
    apply sum_upto_ext. intros k _.
    now rewrite (rotate_element S c A i j k HA Hi Hj),
      (rotate_element S c B i j k HB Hi Hj). }
  rewrite sum_upto_swap.
  apply sum_upto_ext. intros j _.
  exact (sum_upto_rev S (fun i => sum_upto c (fun k =>
           (element A j i k - element B j i k) ^ 2))).
Qed.

Lemma mse_rotated_both (S c : nat) (A B : matrix) (m : nat) :
  has_shape S S c A -> has_shape S S c B ->
  _compute._mse (rotated m A) (rotated m B) = _compute._mse A B.
Proof.
  intros HA HB. induction m as [|m IH]; [reflexivity|].
  change (rotated (Datatypes.S m) A) with (_help._rotate_img (rotated m A)).
  change (rotated (Datatypes.S m) B) with (_help._rotate_img (rotated m B)).
  rewrite (mse_rotate_both S c _ _ (rotated_has_shape S c A m HA)
             (rotated_has_shape S c B m HB)).
  exact IH.
Qed.

Lemma rotated_add (m k : nat) (img : matrix) :
  rotated m (rotated k img) = rotated (m + k) img.
Proof.
  induction m as [|m IH]; [reflexivity|].
  change (rotated (S m) (rotated k img))
    with (_help._rotate_img (rotated m (rotated k img))).
  now rewrite IH.
Qed.

Lemma accepted_swap (similarity : Q) (S c : nat) (A B : matrix) (k : nat) :
  has_shape S S c A -> has_shape S S c B -> (k <= 3)%nat ->
  accepted similarity A B k ->
  exists k', (k' <= 3)%nat /\ accepted similarity B A k'.
Proof.
  intros HA HB Hk Hacc. unfold accepted in *.
  destruct k as [|k].
  - exists O. split; [lia|]. simpl in *.
    now rewrite (mse_swap S S c B A HB HA).
  - exists (3 - k)%nat. split; [lia|].
    rewrite (mse_swap S S c B _ HB (rotated_has_shape S c A _ HA)).
    rewrite <- (rotated_four S c B HB) at 1.
    replace 4%nat with ((3 - k) + Datatypes.S k)%nat by lia.
    rewrite <- rotated_add.
    rewrite (mse_rotated_both S c A _ (3 - k) HA
               (rotated_has_shape S c B _ HB)).
    exact Hacc.
Qed.

Lemma match_rotations_some_iff (A B : matrix) (similarity : Q) :
  _search.match_rotations A B similarity <> None <->
  exists k, (k <= 3)%nat /\ accepted similarity A B k.
Proof.
  pose proof (match_rotations_spec A B similarity) as Hspec.
  destruct (_search.match_rotations A B similarity) as [[[k B'] s]|]; split.
  - intros _. destruct Hspec as (Hk & _ & _ & Hacc & _). now exists k.
  - discriminate.
  - intros H. now contradiction H.
  - intros [k [Hk Hacc]]. exfalso. exact (Hspec k Hk Hacc).
Qed.

(** X21: on two square grids of one shape the match test accepts the pair
    whichever of the two is the anchor (the score it accepts at can
    differ, the turns being tried in a different order). *)
Theorem match_test_symmetric (S c : nat) (A B : matrix) (similarity : Q) :
  has_shape S S c A -> has_shape S S c B ->
  (_search.match_rotations A B similarity <> None <->
   _search.match_rotations B A similarity <> None).
Proof.
  intros HA HB. rewrite !match_rotations_some_iff. split.
  - intros [k [Hk Hacc]]. exact (accepted_swap similarity S c A B k HA HB Hk Hacc).
  - intros [k [Hk Hacc]]. exact (accepted_swap similarity S c B A k HB HA Hk Hacc).
Qed.

Lemma match_test_symmetric_witness :
  _search.match_rotations [[[1]; [2]]; [[3]; [4]]] [[[2]; [4]]; [[1]; [3]]]
    0%Q <> None <->
  _search.match_rotations [[[2]; [4]]; [[1]; [3]]] [[[1]; [2]]; [[3]; [4]]]
    0%Q <> None.
Proof.
  apply (match_test_symmetric 2 1);
    (split; [reflexivity | repeat constructor]).
Defined.

(** ** The turns of the match test *)







(** ** Preprocessing keeps the order of registration *)

Lemma imgs_fold_order (os : OS) (px_size : Z) :
  forall (l : registry) imgs0 inv0 imgs inv,
    NoDup (Dict.keys l) ->
    (forall k, In k (Dict.keys l) -> Dict.mem k imgs0 = false) ->
    fold_left (_compute.imgs_step os px_size) l (imgs0, inv0) = (imgs, inv) ->
    Dict.keys imgs =
      Dict.keys imgs0 ++ Dict.keys (filter (decodes os px_size) l) /\
    inv = inv0 ++ Dict.keys (filter (undecodable os px_size) l).
Proof.
  induction l as [|[id file] l IH]; intros imgs0 inv0 imgs inv Hnd Hfresh H.
  - simpl in H. injection H as <- <-. simpl. now rewrite !app_nil_r.
  - simpl in Hnd. inversion Hnd as [|? ? Hid Hnd']; subst.
    assert (Hrest : forall k, In k (Dict.keys l) -> Dict.mem k imgs0 = false)
      by (intros k Hk; apply Hfresh; now right).
    simpl in H. unfold decodes, undecodable in *. simpl.
    destruct (isdir os file) eqn:Hdir; simpl.
    + exact (IH _ _ _ _ Hnd' Hrest H).
    + destruct (image_load os file px_size) as [img|]; simpl.
      * assert (Hrest' : forall k, In k (Dict.keys l) ->
                           Dict.mem k (Dict.set id img imgs0) = false).
        { intros k Hk. rewrite mem_set, (Hrest k Hk).
          destruct (Z.eqb_spec k id) as [->|]; [contradiction|reflexivity]. }
        destruct (IH _ _ _ _ Hnd' Hrest' H) as [Hk Hi].
        rewrite keys_set, (Hfresh id (or_introl eq_refl)) in Hk.
        split; [|exact Hi]. rewrite Hk, <- app_assoc. reflexivity.
      * destruct (IH _ _ _ _ Hnd' Hrest H) as [Hk Hi].
        split; [exact Hk|]. rewrite Hi, <- app_assoc. reflexivity.
Qed.

Lemma filter_other_keys {V : Type} (k : Z) (d : Dict.t V) :
  ~ In k (Dict.keys d) -> filter (fun e => negb (Z.eqb k (fst e))) d = d.
Proof.
  induction d as [|[k0 v0] d IH]; simpl; intros Hk; [reflexivity|].
  destruct (Z.eqb_spec k k0) as [->|Hne]; [exfalso; apply Hk; now left|].
  simpl. f_equal. apply IH. intros Hin. apply Hk. now right.
Qed.

Lemma pop_filter {V : Type} (k : Z) (d : Dict.t V) :
  NoDup (Dict.keys d) ->
  Dict.pop k d = filter (fun e => negb (Z.eqb k (fst e))) d.
Proof.
  induction d as [|[k0 v0] d IH]; simpl; intros Hnd; [reflexivity|].
  inversion Hnd as [|? ? Hk0 Hnd']; subst.
  destruct (Z.eqb_spec k k0) as [->|Hne]; simpl.
  - symmetry. now apply filter_other_keys.
  - f_equal. exact (IH Hnd').
Qed.

Lemma pops_filter (ids : list Z) :
  forall d : registry,
    NoDup (Dict.keys d) ->
    fold_left (fun r i => Dict.pop i r) ids d =
    filter (fun e => negb (list_mem (fst e) ids)) d.
Proof.
  induction ids as [|x ids IH]; intros d Hnd; simpl.
  - clear. induction d as [|e d IHd]; simpl; [reflexivity|]. now f_equal.
  - rewrite IH by now apply NoDup_keys_pop.
    rewrite (pop_filter x d Hnd). clear.
    induction d as [|e d IHd]; simpl; [reflexivity|].
    rewrite (Z.eqb_sym (fst e) x).
    destruct (Z.eqb x (fst e)); simpl; [exact IHd|].
    destruct (list_mem (fst e) ids); simpl; [exact IHd | now rewrite IHd].
Qed.

Lemma undecodable_listed (os : OS) (px_size : Z) (reg : registry)
  (e : Z * string) :
  NoDup (Dict.keys reg) -> In e reg ->
  list_mem (fst e) (Dict.keys (filter (undecodable os px_size) reg)) =
  undecodable os px_size e.
Proof.
  intros Hnd He. destruct (undecodable os px_size e) eqn:Hu.
  - apply list_mem_In. unfold Dict.keys. apply in_map_iff. exists e.
    split; [reflexivity|]. apply filter_In. auto.
  - destruct (list_mem _ _) eqn:Hm; [|reflexivity].
    apply list_mem_In in Hm. unfold Dict.keys in Hm. apply in_map_iff in Hm.
    destruct Hm as [e' [Hfst He']]. apply filter_In in He'.
    destruct He' as [He' Hu']. destruct e as [k f], e' as [k' f'].
    simpl in Hfst. subst k'.
    apply (In_get _ _ _ Hnd) in He. apply (In_get _ _ _ Hnd) in He'.
    assert (f' = f) by congruence. subst f'. congruence.
Qed.

(** X22: preprocessing keeps the order of registration: the matrices are
    enumerated, the invalid files listed and the registry left in the order
    in which the registry held their entries. *)
Theorem preprocessing_keeps_order (os : OS) (reg : registry) (px_size : Z)
  (imgs : Dict.t matrix) (invalid : list Z) (reg' : registry) :
  NoDup (Dict.keys reg) ->
  _compute._imgs_matrices os reg px_size = (imgs, invalid, reg') ->
  Dict.keys imgs = Dict.keys (filter (decodes os px_size) reg) /\
  invalid = Dict.keys (filter (undecodable os px_size) reg) /\
  reg' = filter (fun e => negb (undecodable os px_size e)) reg.
Proof.
  intros Hnd Hrun. unfold _compute._imgs_matrices in Hrun.
  destruct (fold_left (_compute.imgs_step os px_size) reg ([], []))
    as [imgs0 inv0] eqn:Hfold.
  injection Hrun as <- <- <-.
  destruct (imgs_fold_order os px_size reg [] [] imgs0 inv0 Hnd
              (fun _ _ => eq_refl) Hfold) as [Hk Hi].
  simpl in Hk, Hi. split; [exact Hk|]. split; [exact Hi|].
  rewrite (pops_filter inv0 reg Hnd). apply filter_ext_in.
  intros e He. rewrite Hi. f_equal.
  exact (undecodable_listed os px_size reg e Hnd He).
Qed.

Lemma preprocessing_keeps_order_witness :
  Dict.keys [(uuid4_value 2, solid 10 [9; 9; 9])] =
    Dict.keys (filter (decodes mixed_os 10) mixed_registry) /\
  [uuid4_value 3] =
    Dict.keys (filter (undecodable mixed_os 10) mixed_registry) /\
  [(uuid4_value 1, "pics/"%string); (uuid4_value 2, "pics/a.jpg"%string)] =
    filter (fun e => negb (undecodable mixed_os 10 e)) mixed_registry.
Proof.
  apply (preprocessing_keeps_order mixed_os mixed_registry 10).
  - solve_nodup.
  - vm_compute. reflexivity.
Defined.
